(** * USTCchess: the game client of [src/main/game.ts]

    A shallow embedding of the session engine of the game client: the
    request/response correlator ([contactToServer]), the inbound dispatcher
    ([onMessage]), the local request router ([contact]), the check detector
    ([getIsChecked]) and the coordinator built by [createClients], together
    with the position equality of the board component
    ([isEqualPosition]).

    JavaScript values are modelled dynamically (type [Value]); numbers are
    the integers the protocol exchanges (camp identifiers, coordinates).
    The event loop is modelled as a step function over explicit events:
    every callback the source registers (socket message, timers, awaited
    continuations) is one event, run to completion. *)

From Stdlib Require Import Ascii.
From stdpp Require Import gmap strings list pretty.

Open Scope string_scope.

(** ** JavaScript values *)

(** The values that travel through the client: what [JSON.parse] yields,
    what the renderer passes over IPC, and [undefined].  An object is the
    list of its own properties in enumeration order. *)
#[warnings="-register-all"]
Inductive Value : Type :=
  | VUndefined
  | VNull
  | VBool (b : bool)
  | VNum (n : Z)
  | VBigInt (n : Z)
  | VStr (s : string)
  | VArr (elems : list Value)
  | VObj (props : list (string * Value)).

Module JS.

(** Lookup of an own property, first match. *)
Fixpoint assoc {A} (k : string) (props : list (string * A)) : option A :=
  match props with
  | [] => None
  | (k', v) :: rest => if decide (k = k') then Some v else assoc k rest
  end.

(** [Boolean(v)]: the test of [if (v)], [v && ...] and [v || ...]. *)
Definition truthy (v : Value) : bool :=
  match v with
  | VUndefined | VNull => false
  | VBool b => b
  | VNum n | VBigInt n => negb (n =? 0)%Z
  | VStr s => negb (String.eqb s "")
  | VArr _ | VObj _ => true
  end.

(** [typeof v === 'object'] *)
Definition typeof_object (v : Value) : bool :=
  match v with
  | VNull | VArr _ | VObj _ => true
  | _ => false
  end.

(** [v.k] for a property name [k] that is not an array index.  [None] is
    the [TypeError] raised on [undefined] and [null]. *)
Definition get (v : Value) (k : string) : option Value :=
  match v with
  | VUndefined | VNull => None
  | VObj props => Some (default VUndefined (assoc k props))
  | VArr elems =>
      Some (if decide (k = "length") then VNum (Z.of_nat (length elems))
            else VUndefined)
  | VStr s =>
      Some (if decide (k = "length") then VNum (Z.of_nat (String.length s))
            else VUndefined)
  | VBool _ | VNum _ | VBigInt _ => Some VUndefined
  end.

(** [v?.k] *)
Definition get_opt (v : Value) (k : string) : Value :=
  default VUndefined (get v k).

(** [k in v] for an object or array [v] and a name [k] that is not an
    array index. *)
Definition has_property (k : string) (v : Value) : bool :=
  match v with
  | VObj props => bool_decide (is_Some (assoc k props))
  | VArr _ => bool_decide (k = "length")
  | _ => false
  end.

(** [a === b].  Two arrays or objects are only identical when they are the
    same reference, which never holds between values obtained from
    different messages. *)
Definition strict_eq (a b : Value) : bool :=
  match a, b with
  | VUndefined, VUndefined => true
  | VNull, VNull => true
  | VBool x, VBool y => bool_decide (x = y)
  | VNum x, VNum y => bool_decide (x = y)
  | VBigInt x, VBigInt y => bool_decide (x = y)
  | VStr x, VStr y => bool_decide (x = y)
  | _, _ => false
  end.

(** [sep]-separated concatenation: [Array.prototype.join]. *)
Fixpoint join (sep : string) (parts : list string) : string :=
  match parts with
  | [] => ""
  | [s] => s
  | s :: rest => s +:+ sep +:+ join sep rest
  end.

(** [String(v)], the conversion of template literals. *)
Fixpoint to_string (v : Value) : string :=
  match v with
  | VUndefined => "undefined"
  | VNull => "null"
  | VBool b => if b then "true" else "false"
  | VNum n | VBigInt n => pretty n
  | VStr s => s
  | VArr elems =>
      join "," (map (fun e => match e with
                              | VUndefined | VNull => ""
                              | _ => to_string e
                              end) elems)
  | VObj _ => "[object Object]"
  end.

(** [JSON.stringify] raises a [TypeError] exactly on the values that hold a
    [BigInt]; this is the serialization failure of the correlator. *)
Fixpoint serializable (v : Value) : bool :=
  match v with
  | VBigInt _ => false
  | VArr elems => forallb serializable elems
  | VObj props => forallb (fun kv => serializable kv.2) props
  | _ => true
  end.

End JS.

(** ** Positions *)

(** A [Position] is the two-element array [[row, column]]. *)
Definition Position : Type := Z * Z.

Definition pos_value (p : Position) : Value := VArr [VNum p.1; VNum p.2].

(** part_000, [isEqualPosition]:
    [pos1[0] === pos2[0] && pos1[1] === pos2[1]]. *)
Definition isEqualPosition (pos1 pos2 : Position) : bool :=
  JS.strict_eq (VNum pos1.1) (VNum pos2.1) && JS.strict_eq (VNum pos1.2) (VNum pos2.2).

(** part_000, [isInAvailableMoves]:
    [availableMoves.some((p) => isEqualPosition(p, pos))]. *)
Definition isInAvailableMoves (availableMoves : list Position) (pos : Position) : bool :=
  existsb (fun p => isEqualPosition p pos) availableMoves.

(** [JSON.stringify(p)] of a position: ["[row,column]"] with both integers
    in decimal, the text [JSON.stringify] gives integers below 10^21. *)
Definition JSON_stringify_pos (p : Position) : string :=
  "[" +:+ pretty p.1 +:+ "," +:+ pretty p.2 +:+ "]".

(** ** The check detector *)

(** The two accumulators of [getIsChecked]: the array [myChiefPos] and the
    [Set<string>] [opponentMoves]. *)
Record Scan : Type := mkScan {
  myChiefPos : list Position;
  opponentMoves : gset string
}.

Section CheckDetector.

(** [this.getAvailableMoves], the rules collaborator (class [GameData]). *)
Variable getAvailableMoves : Position -> list Position.

(** [this.camp] *)
Variable camp : Value.

(** The body of the inner loop at square [[i, j]] holding [chess]. *)
Definition visit (i j : nat) (chess : Value) (acc : Scan) : option Scan :=
  let pos : Position := (Z.of_nat i, Z.of_nat j) in
  if JS.strict_eq (JS.get_opt chess "camp") camp then
    isChief ← JS.get chess "isChief";
    Some (if JS.truthy isChief
          then mkScan (myChiefPos acc ++ [pos]) (opponentMoves acc)
          else acc)
  else
    Some (mkScan (myChiefPos acc)
            (foldl (fun s p => {[ JSON_stringify_pos p ]} ∪ s)
               (opponentMoves acc) (getAvailableMoves pos))).

(** [for (let j = ...; j < this.chessboard[i].length; j++)] *)
Fixpoint scan_row (i j : nat) (cells : list Value) (acc : Scan) : option Scan :=
  match cells with
  | [] => Some acc
  | chess :: rest => acc' ← visit i j chess acc; scan_row i (S j) rest acc'
  end.

(** The elements of an array.  [None] when the value is not an array: the
    board is typed as an array of arrays, and on any other value the source
    raises a [TypeError] or walks something that is not a board. *)
Definition as_array (v : Value) : option (list Value) :=
  match v with
  | VArr elems => Some elems
  | _ => None
  end.

(** [for (let i = ...; i < this.chessboard.length; i++)] *)
Fixpoint scan_rows (i : nat) (rows : list Value) (acc : Scan) : option Scan :=
  match rows with
  | [] => Some acc
  | row :: rest =>
      cells ← as_array row;
      acc' ← scan_row i 0 cells acc;
      scan_rows (S i) rest acc'
  end.

(** [GameClient.getIsChecked] (lines 249-263).  [None] when the board is not
    an array of arrays or a property access raises. *)
Definition getIsChecked (chessboard : Value) : option (list Position) :=
  rows ← as_array chessboard;
  acc ← scan_rows 0 rows (mkScan [] ∅);
  Some (filter (fun p => JSON_stringify_pos p ∈ opponentMoves acc) (myChiefPos acc)).

End CheckDetector.

(** Modelled from the spec: the declarations of [types/chessboard.ts] are not
    among the sources.  A board is a 2-D grid of optional pieces; a piece has
    a side identifier, a royal flag and a display identity. *)
Record Chess : Type := mkChess {
  chess_name : string;
  chess_camp : Z;
  chess_isChief : bool
}.

Definition Chessboard : Type := list (list (option Chess)).

Definition chess_value (c : Chess) : Value :=
  VObj [("name", VStr (chess_name c)); ("camp", VNum (chess_camp c));
        ("isChief", VBool (chess_isChief c))].

Definition cell_value (c : option Chess) : Value :=
  match c with
  | Some c => chess_value c
  | None => VNull
  end.

Definition board_value (b : Chessboard) : Value :=
  VArr (map (fun row => VArr (map cell_value row)) b).

(** ** The session object *)

(** [types/game.ts], [Response]: [{ status, data }]. *)
Record Response : Type := mkResponse {
  status : Value;
  data : Value
}.

(** part_001, [ExtensionInfo]; the client reads [key] and [version] only. *)
Record ExtensionInfo : Type := mkExtensionInfo {
  key : string;
  name : string;
  author : string;
  version : string
}.

(** The fields [GameClient] inherits from [GameData] ([utils/game.ts]). *)
Record GameData : Type := mkGameData {
  mapData : Value;
  chessboard : Value;
  extensions : list ExtensionInfo
}.

(** What a suspended [contact] call does once its promise settles. *)
Inductive Awaiter : Type :=
  | AwaitGetState
  | AwaitMove.

(** The closures the event loop holds for the client: the three kinds of
    [setTimeout] callbacks and the two continuations of [onMessage] behind
    an [await]. *)
Inductive Callback : Type :=
  | RequestTimeout (messageId : string) (p : nat)
  | DelayedClose (content : string)
  | HandshakeTimeout
  | ExtensionsLoaded (camp mapData : Value) (loaded : list ExtensionInfo)
  | MismatchDialogClosed.

(** Calls on the collaborators the client does not own. *)
Inductive Effect : Type :=
  | WsSend (message : Value)
  | WsClose (code : option Z)
  | WebContentsSend (channel : Value) (args : list Value)
  | SetTitle (title : string)
  | ShowErrorBox (title : string) (content : Value)
  | ShowMessageBox (kind title message detail : string)
  | LogInvalidResponse (rawData : string)
  | LogUnknownResponse (parsed : Value)
  | Uncaught
  | CloseCallback
  | Reply (p : nat) (r : Response).

Record GameClient : Type := mkGameClient {
  (** the fields inherited from [GameData] *)
  super : GameData;
  (** [this.window.webContents.id], the surface id *)
  id : nat;
  (** whether [this.window] has been destroyed *)
  windowDestroyed : bool;
  isLocal : bool;
  isConnectSuccess : bool;
  (** [Map<string, handler>]: every handler is the closure of [contactToServer], determined by the promise it resolves *)
  messageHandlers : gmap string nat;
  camp : Value;
  isGameEnd : bool;
  (** the promises created so far *)
  nextPromise : nat;
  (** every call of a promise's [resolve], oldest first *)
  resolveCalls : list (nat * Response);
  (** the suspended [contact] calls, by the promise they await *)
  awaiters : gmap nat Awaiter;
  (** timers not yet expired and awaited collaborators *)
  pending : list Callback;
  (** calls made to the outside, oldest first *)
  effects : list Effect
}.

Definition set_isConnectSuccess (x : bool) (c : GameClient) : GameClient :=
  mkGameClient (super c) (id c) (windowDestroyed c) (isLocal c) x (messageHandlers c) (camp c) (isGameEnd c) (nextPromise c) (resolveCalls c) (awaiters c) (pending c) (effects c).

Definition set_messageHandlers (x : gmap string nat) (c : GameClient) : GameClient :=
  mkGameClient (super c) (id c) (windowDestroyed c) (isLocal c) (isConnectSuccess c) x (camp c) (isGameEnd c) (nextPromise c) (resolveCalls c) (awaiters c) (pending c) (effects c).

Definition set_camp (x : Value) (c : GameClient) : GameClient :=
  mkGameClient (super c) (id c) (windowDestroyed c) (isLocal c) (isConnectSuccess c) (messageHandlers c) x (isGameEnd c) (nextPromise c) (resolveCalls c) (awaiters c) (pending c) (effects c).

Definition set_isGameEnd (x : bool) (c : GameClient) : GameClient :=
  mkGameClient (super c) (id c) (windowDestroyed c) (isLocal c) (isConnectSuccess c) (messageHandlers c) (camp c) x (nextPromise c) (resolveCalls c) (awaiters c) (pending c) (effects c).

Definition set_nextPromise (x : nat) (c : GameClient) : GameClient :=
  mkGameClient (super c) (id c) (windowDestroyed c) (isLocal c) (isConnectSuccess c) (messageHandlers c) (camp c) (isGameEnd c) x (resolveCalls c) (awaiters c) (pending c) (effects c).

Definition set_resolveCalls (x : list (nat * Response)) (c : GameClient) : GameClient :=
  mkGameClient (super c) (id c) (windowDestroyed c) (isLocal c) (isConnectSuccess c) (messageHandlers c) (camp c) (isGameEnd c) (nextPromise c) x (awaiters c) (pending c) (effects c).

Definition set_awaiters (x : gmap nat Awaiter) (c : GameClient) : GameClient :=
  mkGameClient (super c) (id c) (windowDestroyed c) (isLocal c) (isConnectSuccess c) (messageHandlers c) (camp c) (isGameEnd c) (nextPromise c) (resolveCalls c) x (pending c) (effects c).

Definition set_pending (x : list Callback) (c : GameClient) : GameClient :=
  mkGameClient (super c) (id c) (windowDestroyed c) (isLocal c) (isConnectSuccess c) (messageHandlers c) (camp c) (isGameEnd c) (nextPromise c) (resolveCalls c) (awaiters c) x (effects c).

Definition set_effects (x : list Effect) (c : GameClient) : GameClient :=
  mkGameClient (super c) (id c) (windowDestroyed c) (isLocal c) (isConnectSuccess c) (messageHandlers c) (camp c) (isGameEnd c) (nextPromise c) (resolveCalls c) (awaiters c) (pending c) x.

Definition set_windowDestroyed (x : bool) (c : GameClient) : GameClient :=
  mkGameClient (super c) (id c) x (isLocal c) (isConnectSuccess c) (messageHandlers c) (camp c) (isGameEnd c) (nextPromise c) (resolveCalls c) (awaiters c) (pending c) (effects c).

Definition set_super (x : GameData) (c : GameClient) : GameClient :=
  mkGameClient x (id c) (windowDestroyed c) (isLocal c) (isConnectSuccess c) (messageHandlers c) (camp c) (isGameEnd c) (nextPromise c) (resolveCalls c) (awaiters c) (pending c) (effects c).

Definition set_mapData (x : Value) (c : GameClient) : GameClient :=
  set_super (mkGameData x (chessboard (super c)) (extensions (super c))) c.

Definition set_chessboard (x : Value) (c : GameClient) : GameClient :=
  set_super (mkGameData (mapData (super c)) x (extensions (super c))) c.

Definition set_extensions (x : list ExtensionInfo) (c : GameClient) : GameClient :=
  set_super (mkGameData (mapData (super c)) (chessboard (super c)) x) c.

Definition emit (e : Effect) (c : GameClient) : GameClient :=
  set_effects (effects c ++ [e]) c.

Definition schedule (cb : Callback) (c : GameClient) : GameClient :=
  set_pending (pending c ++ [cb]) c.

(** [private timeout: number = 10000] *)
Definition timeout : Z := 10000.

(** The delay a timer callback was scheduled with, in milliseconds. *)
Definition delay (cb : Callback) : option Z :=
  match cb with
  | RequestTimeout _ _ | HandshakeTimeout => Some timeout
  | DelayedClose _ => Some 500%Z
  | ExtensionsLoaded _ _ _ | MismatchDialogClosed => None
  end.

(** The collaborators whose code is outside [game.ts]. *)
Record World : Type := mkWorld {
  (** [JSON.parse]; [None] is its [SyntaxError] *)
  JSON_parse : string -> option Value;
  (** [autoGetNeededExtensions] of [main/main.ts]: the extensions it
      resolves for a required set *)
  autoGetNeededExtensions : Value -> list ExtensionInfo;
  (** [checkExtensions] of [main/main.ts] *)
  checkExtensions : list ExtensionInfo -> Value -> bool;
  (** [GameData.getAvailableMoves] *)
  getAvailableMoves : GameData -> Value -> list Position
}.

(** Modelled from the spec: [checkExtensions] of [main/main.ts] is not among
    the sources.  Negotiation passes iff every required key is present in
    the available list with an exactly matching version. *)
Definition checkExtensions_spec (available : list ExtensionInfo) (required : Value) : bool :=
  match required with
  | VObj props =>
      forallb (fun kv =>
        existsb (fun ext => bool_decide (key ext = kv.1)
                            && JS.strict_eq (VStr (version ext)) kv.2) available) props
  | _ => true
  end.

Module Promise.

(** The value a promise is settled with: the argument of the first call of
    its [resolve]; later calls are ignored by the promise. *)
Definition settled (p : nat) (c : GameClient) : option Response :=
  snd <$> head (filter (fun call => call.1 = p) (resolveCalls c)).

(** The calls of [resolve] made for promise [p]. *)
Definition calls (p : nat) (c : GameClient) : list Response :=
  snd <$> filter (fun call => call.1 = p) (resolveCalls c).

End Promise.

(** ** The methods of [GameClient] *)

Module Client.

Definition LF : string := String "010"%char "".

Definition failed_to_send : Response :=
  mkResponse (VStr "error") (VStr "Failed to send message.").

Definition timed_out : Response :=
  mkResponse (VStr "error") (VStr "Timeout waiting for response.").

Definition mode_label (c : GameClient) : string :=
  if isLocal c then "本地模式" else "联机模式".

(** [Object.entries(v)]; [None] is the [TypeError] on [undefined] and
    [null]. *)
Definition entries (v : Value) : option (list (string * Value)) :=
  match v with
  | VUndefined | VNull => None
  | VObj props => Some props
  | VArr elems => Some (imap (fun i e => (pretty i, e)) elems)
  | VStr s =>
      Some (imap (fun i ch => (pretty i, VStr (String ch "")))
              (String.list_ascii_of_string s))
  | VBool _ | VNum _ | VBigInt _ => Some []
  end.

(** [`${key}@${version}`] of a required entry and of a loaded extension. *)
Definition required_line (kv : string * Value) : string :=
  kv.1 +:+ "@" +:+ JS.to_string kv.2.

Definition existing_line (ext : ExtensionInfo) : string :=
  key ext +:+ "@" +:+ version ext.

(** The [detail] of the mismatch dialog, lines 157-166. *)
Definition mismatch_detail
    (required : list (string * Value)) (existing : list ExtensionInfo) : string :=
  let requiredExtensions := JS.join (LF +:+ "  ") (required_line <$> required) in
  let joined := JS.join (LF +:+ "  ") (existing_line <$> existing) in
  let existingExtensions := if JS.truthy (VStr joined) then joined else "无" in
  "所需扩展：" +:+ LF +:+ "  " +:+ requiredExtensions +:+ LF +:+
  "已有扩展：" +:+ LF +:+ "  " +:+ existingExtensions.

(** [this.close], assigned in the constructor (lines 77-81). *)
Definition close (content : Value) (c : GameClient) : GameClient :=
  let c := if isConnectSuccess c then emit (WsClose None) c else c in
  let c := if JS.truthy content then emit (ShowErrorBox "错误" content) c else c in
  emit CloseCallback c.

(** The rest of [contact] once the awaited response [res] is there
    (lines 207-212 and 219). *)
Definition resume (k : Awaiter) (p : nat) (res : Response) (c : GameClient) : GameClient :=
  let c := set_awaiters (delete p (awaiters c)) c in
  match k with
  | AwaitGetState =>
      let c :=
        if JS.strict_eq (status res) (VStr "success") then
          if JS.truthy (data res) && JS.typeof_object (data res)
             && JS.has_property "chessboard" (data res)
          then set_chessboard (JS.get_opt (data res) "chessboard") c
          else c
        else c in
      emit (Reply p res) c
  | AwaitMove => emit (Reply p res) c
  end.

(** A call of the [resolve] function of promise [p].  Only the first call
    settles the promise and wakes the call that awaits it. *)
Definition resolve (p : nat) (res : Response) (c : GameClient) : GameClient :=
  let c' := set_resolveCalls (resolveCalls c ++ [(p, res)]) c in
  match Promise.settled p c, awaiters c !! p with
  | None, Some k => resume k p res c'
  | _, _ => c'
  end.

(** [await] of promise [p] by a [contact] call that continues as [k]. *)
Definition await (p : nat) (k : Awaiter) (c : GameClient) : GameClient :=
  match Promise.settled p c with
  | Some res => resume k p res c
  | None => set_awaiters (<[p := k]> (awaiters c)) c
  end.

(** The handler [contactToServer] stores under [messageId]
    (lines 231-234). *)
Definition handler (messageId : string) (p : nat) (response : Response)
    (c : GameClient) : GameClient :=
  resolve p response (set_messageHandlers (delete messageId (messageHandlers c)) c).

(** [contactToServer] (lines 226-247).  [messageId] is the token drawn from
    [Math.random()], [sendFails] tells whether [this.ws.send] raises; the
    result is the promise returned. *)
Definition contactToServer (type : string) (payload : Value)
    (messageId : string) (sendFails : bool) (c : GameClient) : nat * GameClient :=
  let p := nextPromise c in
  let c := set_nextPromise (S p) c in
  let c :=
    if JS.serializable payload then
      let c := set_messageHandlers (<[messageId := p]> (messageHandlers c)) c in
      if sendFails then resolve p failed_to_send c
      else emit (WsSend (VObj [("type", VStr type); ("data", payload);
                               ("id", VStr messageId)])) c
    else resolve p failed_to_send c in
  (p, schedule (RequestTimeout messageId p) c).

Section WithWorld.

Variable W : World.

(** The part of the [connect-success] case behind
    [await autoGetNeededExtensions(...)] (lines 155-174). *)
Definition negotiate (camp0 mapData0 : Value) (loaded : list ExtensionInfo)
    (c : GameClient) : GameClient :=
  let c := set_extensions loaded c in
  let accepted (c : GameClient) : GameClient :=
    let c := set_camp camp0 c in
    let c := emit (WsSend (VObj [("type", VStr "prepared")])) c in
    match JS.get mapData0 "name" with
    | None => emit Uncaught c
    | Some title =>
        let c := emit (SetTitle (JS.to_string title +:+ " - " +:+ mode_label c)) c in
        emit (WebContentsSend (VStr "connect-success") []) c
    end in
  if isLocal c then accepted c
  else
    match JS.get (mapData (super c)) "extensions" with
    | None => emit Uncaught c
    | Some required =>
        if checkExtensions W (extensions (super c)) required then accepted c
        else
          match entries required with
          | None => emit Uncaught c
          | Some es =>
              schedule MismatchDialogClosed
                (emit (ShowMessageBox "error" "错误" "已启用扩展与服务器不匹配"
                         (mismatch_detail es (extensions (super c)))) c)
          end
    end.

(** The body of a pending callback. *)
Definition fire (cb : Callback) (c : GameClient) : GameClient :=
  match cb with
  | RequestTimeout messageId p =>
      if bool_decide (is_Some (messageHandlers c !! messageId)) then
        resolve p timed_out
          (set_messageHandlers (delete messageId (messageHandlers c)) c)
      else c
  | DelayedClose content => close (VStr content) c
  | HandshakeTimeout =>
      if isConnectSuccess c then c else emit (WsClose (Some 4000%Z)) c
  | ExtensionsLoaded camp0 mapData0 loaded => negotiate camp0 mapData0 loaded c
  | MismatchDialogClosed => close VUndefined c
  end.

(** The test [data.id && this.messageHandlers.has(data.id)] together with
    [this.messageHandlers.get(data.id)]: the key and the promise of the
    handler an inbound message is routed to. *)
Definition routed (id0 : Value) (c : GameClient) : option (string * nat) :=
  if JS.truthy id0 then
    match id0 with
    | VStr i => (fun p => (i, p)) <$> messageHandlers c !! i
    | _ => None
    end
  else None.

Definition is_type (v : Value) (s : string) : bool := JS.strict_eq v (VStr s).

(** The [switch (data.type)] of [onMessage] (lines 150-193). *)
Definition push (type payload parsed : Value) (c : GameClient) : GameClient :=
  if is_type type "connect-success" then
    let c := set_isConnectSuccess true c in
    match JS.get payload "camp", JS.get payload "mapData" with
    | Some camp0, Some mapData0 =>
        let c := set_mapData mapData0 c in
        match JS.get mapData0 "extensions" with
        | Some required =>
            schedule (ExtensionsLoaded camp0 mapData0
                        (autoGetNeededExtensions W required)) c
        | None => emit Uncaught c
        end
    | _, _ => emit Uncaught c
    end
  else if is_type type "connect-fail" then
    if JS.strict_eq payload (VStr "too-many-clients")
    then schedule (DelayedClose "游戏房间已满") c
    else close payload c
  else if is_type type "game-start" || is_type type "change-turn" then
    emit (WebContentsSend type []) c
  else if is_type type "game-end" then
    emit (WebContentsSend (VStr "game-end") [payload]) (set_isGameEnd true c)
  else emit (LogUnknownResponse parsed) c.

(** [onMessage] (lines 135-195). *)
Definition onMessage (rawData : string) (c : GameClient) : GameClient :=
  match JSON_parse W rawData with
  | None => emit (LogInvalidResponse rawData) c
  | Some parsed =>
      match JS.get parsed "id", JS.get parsed "type", JS.get parsed "data" with
      | Some id0, Some type, Some payload =>
          match routed id0 c with
          | Some (i, p) => handler i p (mkResponse type payload) c
          | None => push type payload parsed c
          end
      | _, _, _ => emit Uncaught c
      end
  end.

(** [this.getIsChecked()] on the fields of the object. *)
Definition getIsChecked_of (c : GameClient) : option (list Position) :=
  getIsChecked (fun pos => getAvailableMoves W (super c) (pos_value pos))
    (camp c) (chessboard (super c)).

(** What a call of [contact] hands back: a response at once, the promise
    it awaits, or an exception. *)
Inductive Returned : Type :=
  | Now (r : Response)
  | Later (p : nat)
  | Raised.

(** [contact] (lines 197-224). *)
Definition contact (type : string) (payload : Value)
    (messageId : string) (sendFails : bool) (c : GameClient)
    : Returned * GameClient :=
  if String.eqb type "get-info" then
    if JS.truthy (camp c) && JS.truthy (mapData (super c)) then
      (Now (mkResponse (VStr "success")
              (VObj [("camp", camp c); ("mapData", mapData (super c))])), c)
    else (Now (mkResponse (VStr "error") (VStr "Fail to get info.")), c)
  else if String.eqb type "get-state" then
    let '(p, c) := contactToServer type payload messageId sendFails c in
    (Later p, await p AwaitGetState c)
  else if String.eqb type "get-available-moves" then
    (Now (mkResponse (VStr "success")
            (VArr (pos_value <$> getAvailableMoves W (super c) payload))), c)
  else if String.eqb type "get-is-checked" then
    match getIsChecked_of c with
    | Some checked =>
        (Now (mkResponse (VStr "success") (VArr (pos_value <$> checked))), c)
    | None => (Raised, c)
    end
  else if String.eqb type "move" then
    let '(p, c) := contactToServer type payload messageId sendFails c in
    (Later p, await p AwaitMove c)
  else (Now (mkResponse (VStr "error") (VStr "Unknown type.")), c).

(** What the event loop can run on a client: the socket callbacks of the
    constructor, a pending callback, a [contact] call routed to the client,
    and the close request of its window (lines 309-314) with the answer of
    the confirmation prompt. *)
Inductive Event : Type :=
  | Message (rawData : string)
  | SocketError
  | SocketClose (code : Z)
  | Fire (n : nat)
  | Contact (type : string) (payload : Value) (messageId : string) (sendFails : bool)
  | WindowClose (confirmed : bool).

(** One turn of the event loop.  [Fire n] runs the [n]-th pending
    callback and is impossible when there is none. *)
Definition step (ev : Event) (c : GameClient) : option GameClient :=
  match ev with
  | Message rawData => Some (onMessage rawData c)
  | SocketError => Some (schedule (DelayedClose "无法连接到服务器") c)
  | SocketClose code =>
      let c := set_isConnectSuccess false c in
      Some (if bool_decide (code = 4004%Z)
            then close (VStr (if isLocal c then "" else "对方已断开连接")) c
            else c)
  | Fire n =>
      cb ← pending c !! n;
      Some (fire cb (set_pending (delete n (pending c)) c))
  | Contact type payload messageId sendFails =>
      Some (contact type payload messageId sendFails c).2
  | WindowClose confirmed =>
      Some (if isGameEnd c || confirmed then close VUndefined c else c)
  end.

Fixpoint run (evs : list Event) (c : GameClient) : option GameClient :=
  match evs with
  | [] => Some c
  | ev :: rest => c' ← step ev c; run rest c'
  end.

End WithWorld.

(** The constructor (lines 68-133): the object after [new GameClient], with
    the inherited fields as [GameData]'s constructor left them.  The socket
    callbacks it registers are the events [Message], [SocketError] and
    [SocketClose]; its timer is the pending [HandshakeTimeout].  The window
    menu is presentation only and left out. *)
Definition new (inherited : GameData) (surface : nat) (local : bool) : GameClient :=
  {| super := inherited; id := surface; windowDestroyed := false;
     isLocal := local; isConnectSuccess := false; messageHandlers := ∅;
     camp := VNum 0; isGameEnd := false;
     nextPromise := 0; resolveCalls := []; awaiters := ∅;
     pending := [HandshakeTimeout];
     effects := [SetTitle ("USTC棋 - " +:+ (if local then "本地模式" else "联机模式"))] |}.

End Client.

(** ** The coordinator built by [createClients] *)

Module Coordinator.

(** The variables the closures of [createClients] share, and what they do
    to the process: the ['contact'] entry of [ipcMain] and the calls of
    the [stopGame] callback. *)
Record State : Type := mkState {
  isClosed : bool;
  gameClients : list GameClient;
  (** whether [ipcMain] holds the handler of ['contact'] *)
  contactHandler : bool;
  (** how often [stopGame] has been called *)
  stopGame : nat
}.

(** [close] (lines 285-291). *)
Definition close (s : State) : State :=
  if isClosed s then s
  else {| isClosed := true;
          gameClients := set_windowDestroyed true <$> gameClients s;
          contactHandler := false;
          stopGame := S (stopGame s) |}.

(** [createClients] (lines 278-316); [surfaces] are the ids of the windows
    created, one per client.  The placement of the two windows of a local
    game is presentation only and left out. *)
Definition createClients (inherited : GameData) (surfaces : list nat)
    (local : bool) : State :=
  {| isClosed := false;
     gameClients := (fun surface => Client.new inherited surface local) <$> surfaces;
     contactHandler := true;
     stopGame := 0 |}.

(** The outcome of [ipcRenderer.invoke('contact', ...)] from the window
    [sender]. *)
Inductive Invoked : Type :=
  | Answered (r : Client.Returned)
  | NotAGameWindow
  | NoHandler.

Definition is_CloseCallback (e : Effect) : bool :=
  match e with
  | CloseCallback => true
  | _ => false
  end.

(** The calls of the constructor argument [close] a client made while it
    went from [before] to [after]. *)
Definition close_calls (before after : GameClient) : nat :=
  length (filter (fun e => is_CloseCallback e = true)
            (drop (length (effects before)) (effects after))).

Section WithWorld.

Variable W : World.

(** The handler of ['contact'] (lines 302-307), behind the lookup
    [ipcMain] makes: without a handler the invocation is rejected. *)
Definition invoke (sender : nat) (type : string) (payload : Value)
    (messageId : string) (sendFails : bool) (s : State) : Invoked * State :=
  if contactHandler s then
    match list_find (fun c => id c = sender) (gameClients s) with
    | Some (k, c) =>
        let '(r, c') := Client.contact W type payload messageId sendFails c in
        (Answered r,
         mkState (isClosed s) (<[k := c']> (gameClients s))
           (contactHandler s) (stopGame s))
    | None => (NotAGameWindow, s)
    end
  else (NoHandler, s).

(** An event of client [k], followed by the calls of the shared [close]
    it asked for. *)
Definition deliver (k : nat) (ev : Client.Event) (s : State) : option State :=
  c ← gameClients s !! k;
  c' ← Client.step W ev c;
  Some (Nat.iter (close_calls c c') close
          (mkState (isClosed s) (<[k := c']> (gameClients s))
             (contactHandler s) (stopGame s))).

Inductive Event : Type :=
  | Deliver (k : nat) (ev : Client.Event)
  | Invoke (sender : nat) (type : string) (payload : Value)
      (messageId : string) (sendFails : bool)
  | Close.

Definition step (ev : Event) (s : State) : option State :=
  match ev with
  | Deliver k ev => deliver k ev s
  | Invoke sender type payload messageId sendFails =>
      Some (invoke sender type payload messageId sendFails s).2
  | Close => Some (close s)
  end.

Fixpoint run (evs : list Event) (s : State) : option State :=
  match evs with
  | [] => Some s
  | ev :: rest => s' ← step ev s; run rest s'
  end.

End WithWorld.

End Coordinator.

(** ** Vocabulary of the statements *)

(** No comma among the characters of [s]. *)
Fixpoint comma_free (s : string) : bool :=
  match s with
  | "" => true
  | String ch rest => negb (Ascii.eqb ch ",") && comma_free rest
  end.

(** The squares of row [i], left to right, each with its position. *)
Definition row_squares (i : nat) (row : list (option Chess))
    : list (Position * option Chess) :=
  imap (fun j cell => ((Z.of_nat i, Z.of_nat j), cell)) row.

(** The squares of a board in row-major scan order. *)
Definition squares (b : Chessboard) : list (Position * option Chess) :=
  concat (imap row_squares b).

Definition occupied (cell : option Chess) : bool :=
  match cell with
  | Some _ => true
  | None => false
  end.

(** The square holds a piece of camp [own]. *)
Definition own_piece (own : Z) (cell : option Chess) : bool :=
  match cell with
  | Some c => bool_decide (chess_camp c = own)
  | None => false
  end.

(** The square holds a royal piece of camp [own]. *)
Definition royal_piece (own : Z) (cell : option Chess) : bool :=
  match cell with
  | Some c => bool_decide (chess_camp c = own) && chess_isChief c
  | None => false
  end.

(** The positions of the royal pieces of camp [own], in scan order. *)
Definition royal_positions (own : Z) (b : Chessboard) : list Position :=
  fst <$> filter (fun sq => royal_piece own sq.2 = true) (squares b).

(** The destinations [movesFrom] reports over the squares selected by
    [from]. *)
Definition reach (from : option Chess -> bool)
    (movesFrom : Position -> list Position) (b : Chessboard) : list Position :=
  concat ((fun sq => movesFrom sq.1) <$> filter (fun sq => from sq.2 = true) (squares b)).

(** Every square that does not hold a piece of camp [own], empty squares
    included: the squares whose moves the source collects. *)
Definition not_own (own : Z) (cell : option Chess) : bool :=
  negb (own_piece own cell).

(** The squares the specification names: occupied, and not by a piece of
    camp [own]. *)
Definition occupied_not_own (own : Z) (cell : option Chess) : bool :=
  occupied cell && negb (own_piece own cell).

(** The result of the check detector as a list comprehension: the royal
    positions of camp [own] that are destinations from the squares selected
    by [from]. *)
Definition checked_by (from : option Chess -> bool) (own : Z)
    (movesFrom : Position -> list Position) (b : Chessboard) : list Position :=
  filter (fun p => p ∈ reach from movesFrom b) (royal_positions own b).

(** What one square adds to the accumulators of the scan. *)
Definition absorb (movesFrom : Position -> list Position) (own : Z)
    (acc : Scan) (sq : Position * option Chess) : Scan :=
  if own_piece own sq.2 then
    if royal_piece own sq.2
    then mkScan (myChiefPos acc ++ [sq.1]) (opponentMoves acc)
    else acc
  else
    mkScan (myChiefPos acc)
      (foldl (fun s p => {[ JSON_stringify_pos p ]} ∪ s)
         (opponentMoves acc) (movesFrom sq.1)).

(** A one-row board with an empty square next to the royal piece of camp 1,
    and a move generator that reports a move from the empty square. *)
Definition lone_royal_board : Chessboard :=
  [[None; Some (mkChess "K" 1 true)]].

Definition moves_from_empty_corner (pos : Position) : list Position :=
  if bool_decide (pos = (0, 0)%Z) then [(0, 1)%Z] else [].

(** ** Vocabulary of the correlator statements *)

(** The states a client can be in: those the event loop reaches from a
    freshly constructed client. *)
Definition reachable (W : World) (c : GameClient) : Prop :=
  exists inherited surface local evs,
    Client.run W evs (Client.new inherited surface local) = Some c.

(** [cb] is the timer of the request with token [messageId] and promise
    [p]. *)
Definition is_timer (messageId : string) (p : nat) (cb : Callback) : bool :=
  match cb with
  | RequestTimeout i q => bool_decide (i = messageId) && bool_decide (q = p)
  | _ => false
  end.

(** [cb] is the timer of another request that shares the token or the
    promise. *)
Definition conflicts (messageId : string) (p : nat) (cb : Callback) : bool :=
  match cb with
  | RequestTimeout i q => xorb (bool_decide (i = messageId)) (bool_decide (q = p))
  | _ => false
  end.

(** How many timers of the request are pending. *)
Definition timers_of (messageId : string) (p : nat) (c : GameClient) : nat :=
  length (filter (fun cb => is_timer messageId p cb = true) (pending c)).

(** The token is free: no handler is stored under it and no timer of an
    earlier request with the same token is still pending. *)
Definition unused (messageId : string) (c : GameClient) : Prop :=
  messageHandlers c !! messageId = None
  /\ Forall (fun cb => forall q, is_timer messageId q cb = false) (pending c).

(** The life of one request. *)
Inductive Phase : Type :=
  | Outstanding
  | Resolved (response : Response) (timerPending : bool).

(** The client holds the request ([messageId], [p]) in phase [ph]:
    [Outstanding] is a registered handler, no call of [resolve] and a
    pending timer; [Resolved r live] is no handler, the single call
    [resolve r], and the timer pending or gone.  No other handler resolves
    [p] and no other timer shares the token or the promise. *)
Definition in_phase (messageId : string) (p : nat) (c : GameClient) (ph : Phase) : Prop :=
  match ph with
  | Outstanding =>
      messageHandlers c !! messageId = Some p
      /\ Promise.calls p c = []
      /\ timers_of messageId p c = 1
  | Resolved r live =>
      messageHandlers c !! messageId = None
      /\ Promise.calls p c = [r]
      /\ timers_of messageId p c = (if live then 1 else 0)
  end
  /\ (forall i, messageHandlers c !! i = Some p -> i = messageId)
  /\ Forall (fun cb => conflicts messageId p cb = false) (pending c)
  /\ p < nextPromise c.

(** The inbound message [rawData] carries the token [messageId]. *)
Definition answers (W : World) (messageId : string) (rawData : string) : bool :=
  match JSON_parse W rawData with
  | Some parsed => JS.strict_eq (JS.get_opt parsed "id") (VStr messageId)
  | None => false
  end.

(** The response an inbound message delivers to a handler:
    [{ status: data.type, data: data.data }]. *)
Definition response_of (W : World) (rawData : string) : Response :=
  match JSON_parse W rawData with
  | Some parsed => mkResponse (JS.get_opt parsed "type") (JS.get_opt parsed "data")
  | None => mkResponse VUndefined VUndefined
  end.

(** Event [ev] runs the timer of the request in state [c]. *)
Definition expires (messageId : string) (p : nat) (c : GameClient)
    (ev : Client.Event) : bool :=
  match ev with
  | Client.Fire n =>
      match pending c !! n with
      | Some cb => is_timer messageId p cb
      | None => false
      end
  | _ => false
  end.

(** Event [ev] issues a request under the token [messageId] again. *)
Definition reissues (messageId : string) (ev : Client.Event) : bool :=
  match ev with
  | Client.Contact type _ i _ =>
      (String.eqb type "get-state" || String.eqb type "move") && bool_decide (i = messageId)
  | _ => false
  end.

(** The phase after event [ev] ran in state [c]: a matching response or the
    timer resolves an outstanding request, whichever comes first; afterwards
    only the expiry of the timer is recorded. *)
Definition advance (W : World) (messageId : string) (p : nat) (c : GameClient)
    (ph : Phase) (ev : Client.Event) : Phase :=
  match ph with
  | Outstanding =>
      match ev with
      | Client.Message rawData =>
          if answers W messageId rawData
          then Resolved (response_of W rawData) true
          else Outstanding
      | _ =>
          if expires messageId p c ev
          then Resolved Client.timed_out false
          else Outstanding
      end
  | Resolved r live =>
      if expires messageId p c ev then Resolved r false else Resolved r live
  end.

(** [added] holds no request timer. *)
Definition quiet (added : list Callback) : Prop :=
  Forall (fun cb => match cb with RequestTimeout _ _ => False | _ => True end) added.

(** What an operation did to the correlator: it kept the handlers and the
    promise counter, made the calls [calls] of [resolve] and scheduled the
    callbacks [added]. *)
Definition delta (c c' : GameClient)
    (calls : list (nat * Response)) (added : list Callback) : Prop :=
  messageHandlers c' = messageHandlers c
  /\ resolveCalls c' = (resolveCalls c ++ calls)%list
  /\ nextPromise c' = nextPromise c
  /\ pending c' = (pending c ++ added)%list.

(** Every promise mentioned by the correlator has been created. *)
Definition well_formed (c : GameClient) : Prop :=
  Forall (fun call => call.1 < nextPromise c) (resolveCalls c)
  /\ (forall i q, messageHandlers c !! i = Some q -> q < nextPromise c)
  /\ Forall (fun cb => match cb with
                       | RequestTimeout _ q => q < nextPromise c
                       | _ => True
                       end) (pending c).

(** The phase of the request after the events [evs] ran from state [c]. *)
Fixpoint follow (W : World) (messageId : string) (p : nat)
    (evs : list Client.Event) (c : GameClient) (ph : Phase) : Phase :=
  match evs with
  | [] => ph
  | ev :: rest =>
      match Client.step W ev c with
      | Some c' => follow W messageId p rest c' (advance W messageId p c ph ev)
      | None => ph
      end
  end.

(** The board a response carries: its status is success and its data is an
    object with a chessboard member. *)
Definition snapshot_of (res : Response) : option Value :=
  match status res, data res with
  | VStr s, VObj props =>
      if String.eqb s "success" then JS.assoc "chessboard" props else None
  | _, _ => None
  end.

(** The teardown callback ran once if the coordinator is closed and never
    otherwise, and a closed coordinator has no handler of ['contact']. *)
Definition torn_down_once (s : Coordinator.State) : Prop :=
  Coordinator.stopGame s = (if Coordinator.isClosed s then 1 else 0)
  /\ (Coordinator.isClosed s = true -> Coordinator.contactHandler s = false).

(** Every awaited promise has been created. *)
Definition awaiters_bounded (c : GameClient) : Prop :=
  forall q k, awaiters c !! q = Some k -> q < nextPromise c.

(** ** Sample inputs *)

Definition dq : string := String "034"%char "".

(** The JSON text of an envelope with string members, in the order
    [type], [data], [id]; absent members are left out. *)
Definition envelope_text (type : string) (payload id0 : option string) : string :=
  "{" +:+ dq +:+ "type" +:+ dq +:+ ":" +:+ dq +:+ type +:+ dq
  +:+ from_option (fun s => "," +:+ dq +:+ "data" +:+ dq +:+ ":" +:+ dq +:+ s +:+ dq) "" payload
  +:+ from_option (fun s => "," +:+ dq +:+ "id" +:+ dq +:+ ":" +:+ dq +:+ s +:+ dq) "" id0
  +:+ "}".

(** What [JSON.parse] makes of such a text. *)
Definition envelope_value (type : string) (payload id0 : option string) : Value :=
  VObj ([("type", VStr type)]
        ++ from_option (fun s => [("data", VStr s)]) [] payload
        ++ from_option (fun s => [("id", VStr s)]) [] id0).

(** The map of the examples: two required extensions. *)
Definition sample_map : Value :=
  VObj [("name", VStr "classic");
        ("extensions", VObj [("a", VStr "1"); ("b", VStr "2")])].

(** The handshake-success push that assigns camp 1 on [sample_map], as text
    and as parsed. *)
Definition handshake_text : string :=
  "{" +:+ dq +:+ "type" +:+ dq +:+ ":" +:+ dq +:+ "connect-success" +:+ dq +:+ ","
  +:+ dq +:+ "data" +:+ dq +:+ ":{" +:+ dq +:+ "camp" +:+ dq +:+ ":1,"
  +:+ dq +:+ "mapData" +:+ dq +:+ ":{" +:+ dq +:+ "name" +:+ dq +:+ ":"
  +:+ dq +:+ "classic" +:+ dq +:+ "," +:+ dq +:+ "extensions" +:+ dq +:+ ":{"
  +:+ dq +:+ "a" +:+ dq +:+ ":" +:+ dq +:+ "1" +:+ dq +:+ ","
  +:+ dq +:+ "b" +:+ dq +:+ ":" +:+ dq +:+ "2" +:+ dq +:+ "}}}}".

Definition handshake_value : Value :=
  VObj [("type", VStr "connect-success");
        ("data", VObj [("camp", VNum 1); ("mapData", sample_map)])].

(** The texts [JSON.parse] of the examples understands. *)
Definition sample_texts : list (string * Value) :=
  (handshake_text, handshake_value)
  :: ((fun e : string * option string * option string =>
         (envelope_text e.1.1 e.1.2 e.2, envelope_value e.1.1 e.1.2 e.2))
      <$> [("success", Some "board", Some "k3x");
           ("success", Some "board", Some "");
           ("connect-fail", Some "too-many-clients", None);
           ("connect-fail", Some "", None);
           ("connect-fail", Some "banned", None);
           ("game-start", None, None)]).

(** A world for the examples: [JSON.parse] knows [sample_texts] and rejects
    every other text, the only extension installed is a@1, the
    compatibility check is the specified one, and no piece can move. *)
Definition sample_extension : ExtensionInfo := mkExtensionInfo "a" "A" "nobody" "1".

Definition sample_world : World :=
  {| JSON_parse := fun rawData =>
       snd <$> head (filter (fun e : string * Value => e.1 = rawData) sample_texts);
     autoGetNeededExtensions := fun _ => [sample_extension];
     checkExtensions := checkExtensions_spec;
     getAvailableMoves := fun _ _ => [] |}.

(** A client right after its construction. *)
Definition sample_client (local : bool) : GameClient :=
  Client.new (mkGameData VUndefined (VArr []) []) 7 local.

(** ** The board component *)

(** part_000, [ChessboardComponent].  The component keeps three state
    cells and hands five handlers to every cell it draws.  A handler is the
    closure of one render: it reads the state of that render, and what it
    does is the list of the calls it makes, in order: the state setters,
    the [move] prop and [e.preventDefault].  The props a handler awaits
    are given by the values their promises resolve to.  Sizes, CSS class
    names and the element ids are presentation only and left out. *)
Module ChessboardComponent.

(** The cells of [useState]: [selectedPosition], [draggingPiece] and
    [availableMoves]. *)
Record UiState : Type := mkUiState {
  selectedPosition : option Position;
  draggingPiece : option Position;
  availableMoves : list Position
}.

(** The state of the first render. *)
Definition initial : UiState := mkUiState None None [].

Inductive Call : Type :=
  | SetSelectedPosition (x : option Position)
  | SetDraggingPosition (x : option Position)
  | SetAvailableMoves (x : list Position)
  | Move (from to : Position)
  | PreventDefault.

(** What a call does to the state cells. *)
Definition apply_call (st : UiState) (call : Call) : UiState :=
  match call with
  | SetSelectedPosition x => mkUiState x (draggingPiece st) (availableMoves st)
  | SetDraggingPosition x => mkUiState (selectedPosition st) x (availableMoves st)
  | SetAvailableMoves x => mkUiState (selectedPosition st) (draggingPiece st) x
  | Move _ _ | PreventDefault => st
  end.

(** The state of the next render once the calls of a handler are done,
    when no other handler set a cell in between. *)
Definition commit (calls : list Call) (st : UiState) : UiState :=
  foldl apply_call st calls.

(** [l[i]] for a number [i]; [None] is [undefined]. *)
Definition index {A} (l : list A) (i : Z) : option A :=
  if (0 <=? i)%Z then l !! Z.to_nat i else None.

(** What the component draws for one square (lines 89-104). *)
Record Cell : Type := mkCell {
  key : string;
  (** the position its handlers are called with *)
  position : Position;
  color : string;
  cursor : string;
  backgroundColor : option string;
  cellDraggable : bool;
  (** [chess?.name] *)
  content : option string
}.

Section Props.

Variable chessboard : Chessboard.
Variable reverse : bool.
Variable draggable : bool.
(** [getAvailableMoves(pos)], as resolved *)
Variable getAvailableMoves : Position -> list Position.
(** [canMove], an optional prop, as resolved *)
Variable canMove : option (Position -> bool).
(** whether the optional prop [move] is given *)
Variable move : bool.

(** [await canMove?.(pos)] *)
Definition can_move (pos : Position) : bool :=
  match canMove with
  | Some f => f pos
  | None => false
  end.

(** [move?.(from, to)] *)
Definition call_move (from to : Position) : list Call :=
  if move then [Move from to] else [].

(** Lines 41-44. *)
Definition enterCell (st : UiState) (pos : Position) : list Call :=
  match selectedPosition st with
  | Some _ => []
  | None => [SetAvailableMoves (getAvailableMoves pos)]
  end.

(** Lines 45-48. *)
Definition leaveCell (st : UiState) : list Call :=
  match selectedPosition st with
  | Some _ => []
  | None => [SetAvailableMoves []]
  end.

(** Lines 49-58. *)
Definition chooseCell (st : UiState) (pos : Position) : list Call :=
  match selectedPosition st with
  | Some selected =>
      (if isInAvailableMoves (availableMoves st) pos
       then call_move selected pos else [])
      ++ [SetSelectedPosition None; SetAvailableMoves []]
  | None =>
      if can_move pos
      then [SetSelectedPosition (Some pos);
            SetAvailableMoves (getAvailableMoves pos)]
      else []
  end.

(** Lines 59-63.  With a square selected the event is cancelled at once;
    otherwise the test awaits [canMove], and the cancellation or the two
    setter calls come after it. *)
Definition onDragStart (st : UiState) (pos : Position) : list Call :=
  match selectedPosition st with
  | Some _ => [PreventDefault]
  | None =>
      if negb (can_move pos) then [PreventDefault]
      else [SetAvailableMoves (getAvailableMoves pos);
            SetDraggingPosition (Some pos)]
  end.

(** Lines 64-71. *)
Definition onDrop (st : UiState) (pos : Position) : list Call :=
  match draggingPiece st with
  | Some dragged =>
      if isInAvailableMoves (availableMoves st) pos
      then call_move dragged pos
           ++ [SetSelectedPosition None; SetDraggingPosition None;
               SetAvailableMoves []]
      else []
  | None => []
  end.

(** [getChessboardCell] (lines 76-105).  [None] is the [TypeError] of
    [chessboard[pos[0]][pos[1]]] when the row does not exist; a square the
    row does not have reads as [undefined], which counts as empty like
    [null]. *)
Definition getChessboardCell (st : UiState) (pos : Position) : option Cell :=
  row ← index chessboard pos.1;
  let chess : option Chess := mjoin (index row pos.2) in
  let cellDraggable := draggable && bool_decide (is_Some chess) in
  let selected :=
    match selectedPosition st with
    | Some sel => if isEqualPosition sel pos then Some "yellow" else None
    | None => None
    end in
  let background :=
    if isInAvailableMoves (availableMoves st) pos
    then Some (match chess with Some _ => "pink" | None => "greenyellow" end)
    else selected in
  Some {| key := "cell-" +:+ pretty pos.1 +:+ "-" +:+ pretty pos.2;
          position := pos;
          color := match chess with
                   | Some ch =>
                       if bool_decide (chess_camp ch = 1%Z) then "red"
                       else if bool_decide (chess_camp ch = 2%Z) then "blue"
                       else "green"
                   | None => "black"
                   end;
          cursor := if cellDraggable then "grab" else "pointer";
          backgroundColor := background;
          cellDraggable := cellDraggable;
          content := chess_name <$> chess |}.

(** The rows and cells of the element returned (lines 73-75 and 107-122).
    [None] is a [TypeError]: of [chessboard[0].length] on a board without
    rows, or of a cell. *)
Definition render (st : UiState) : option (list (list Cell)) :=
  row0 ← chessboard !! 0;
  let width := length row0 in
  let height := length chessboard in
  mapM (fun i : nat =>
          let rvsi := if reverse then (Z.of_nat height - Z.of_nat i - 1)%Z
                      else Z.of_nat i in
          mapM (fun j : nat =>
                  let rvsj := if reverse then (Z.of_nat width - Z.of_nat j - 1)%Z
                              else Z.of_nat j in
                  getChessboardCell st (rvsi, rvsj))
            (seq 0 width))
    (seq 0 height).

End Props.

End ChessboardComponent.

(** The piece on a square of a board, if the board has the square and it
    is occupied. *)
Definition piece_at (b : Chessboard) (pos : Position) : option Chess :=
  row ← ChessboardComponent.index b pos.1;
  mjoin (ChessboardComponent.index row pos.2).

(** ** Vocabulary of the session statements *)

(** Every registered handler still has the timer of its own request
    pending. *)
Definition timed (c : GameClient) : Prop :=
  forall i p, messageHandlers c !! i = Some p -> RequestTimeout i p ∈ pending c.

(** The answers handed back to suspended [contact] calls, oldest first,
    each with the promise the call awaited. *)
Definition replies (c : GameClient) : list (nat * Response) :=
  omap (fun e => match e with Reply p r => Some (p, r) | _ => None end) (effects c).

(** Every answer went to a call that is no longer suspended and is the
    value its promise is settled with, and no promise was answered twice. *)
Definition answered (c : GameClient) : Prop :=
  NoDup (replies c).*1
  /\ forall p r, (p, r) ∈ replies c ->
       awaiters c !! p = None /\ p < nextPromise c /\ Promise.settled p c = Some r.

(** An operation that answers no call and leaves promises and awaiters
    alone. *)
Definition still (c c' : GameClient) : Prop :=
  awaiters c' = awaiters c /\ nextPromise c' = nextPromise c
  /\ resolveCalls c' = resolveCalls c /\ replies c' = replies c.

(** What the client puts on the socket: the acknowledgement
    [{ type: 'prepared' }], a request [{ type, data, id }] of type
    [get-state] or [move] whose data serializes, [ws.close()] and
    [ws.close(4000)].  Every other effect is not on the socket. *)
Definition outbound (e : Effect) : bool :=
  match e with
  | WsSend (VObj [(k1, VStr type)]) =>
      String.eqb k1 "type" && String.eqb type "prepared"
  | WsSend (VObj [(k1, VStr type); (k2, payload); (k3, VStr _)]) =>
      String.eqb k1 "type" && String.eqb k2 "data" && String.eqb k3 "id"
      && (String.eqb type "get-state" || String.eqb type "move")
      && JS.serializable payload
  | WsSend _ => false
  | WsClose None => true
  | WsClose (Some code) => bool_decide (code = 4000%Z)
  | _ => true
  end.

(** What no operation of the client undoes: the window and the mode stay,
    the end of the game stays recorded, and the calls made to the outside
    only grow, by calls that keep to [outbound]. *)
Definition grows (c c' : GameClient) : Prop :=
  id c' = id c /\ isLocal c' = isLocal c
  /\ windowDestroyed c' = windowDestroyed c
  /\ (isGameEnd c = true -> isGameEnd c' = true)
  /\ exists added, effects c' = (effects c ++ added)%list
                   /\ Forall (fun e => outbound e = true) added.

(** [cb] is the continuation of a handshake that waits for the extension
    loader. *)
Definition is_loaded (cb : Callback) : bool :=
  match cb with
  | ExtensionsLoaded _ _ _ => true
  | _ => false
  end.

(** An operation that leaves the session data alone: the camp, the map,
    the extensions, the end-of-game mark stay, the client does not become
    connected, and no handshake continuation is added. *)
Definition calm (c c' : GameClient) : Prop :=
  camp c' = camp c /\ isGameEnd c' = isGameEnd c
  /\ mapData (super c') = mapData (super c)
  /\ extensions (super c') = extensions (super c)
  /\ (isConnectSuccess c' = true -> isConnectSuccess c = true)
  /\ forall cb, is_loaded cb = true -> cb ∈ pending c' -> cb ∈ pending c.

(** The inbound message [rawData] carries the type tag [type]: it parses
    and its [type] member is that string, whether it is then routed to a
    handler or enters the [switch]. *)
Definition is_push (W : World) (type : string) (rawData : string) : Prop :=
  exists parsed, JSON_parse W rawData = Some parsed
                 /\ JS.get_opt parsed "type" = VStr type.

(** ** Sample inputs of the session statements *)

(** A state answer to the request [k3x] that carries a board of one empty
    square, as text and as parsed. *)
Definition state_text : string :=
  "{" +:+ dq +:+ "type" +:+ dq +:+ ":" +:+ dq +:+ "success" +:+ dq +:+ ","
  +:+ dq +:+ "data" +:+ dq +:+ ":{" +:+ dq +:+ "chessboard" +:+ dq +:+ ":[[null]]},"
  +:+ dq +:+ "id" +:+ dq +:+ ":" +:+ dq +:+ "k3x" +:+ dq +:+ "}".

Definition state_value : Value :=
  VObj [("type", VStr "success");
        ("data", VObj [("chessboard", VArr [VArr [VNull]])]);
        ("id", VStr "k3x")].

(** The world of the examples, whose [JSON.parse] also understands the
    state answer and a game-end push. *)
Definition play_world : World :=
  {| JSON_parse := fun rawData =>
       snd <$> head (filter (fun e : string * Value => e.1 = rawData)
                       (sample_texts
                        ++ [(state_text, state_value);
                            (envelope_text "game-end" (Some "1") None,
                             envelope_value "game-end" (Some "1") None)])%list);
     autoGetNeededExtensions := autoGetNeededExtensions sample_world;
     checkExtensions := checkExtensions sample_world;
     getAvailableMoves := getAvailableMoves sample_world |}.

(** * Properties *)

(** ** Decimal text and the text of a position *)

Module Text.

Lemma length_append (a b : string) :
  String.length (a +:+ b) = String.length a + String.length b.
Proof. induction a as [|ch a IH]; simpl; [done | by rewrite IH]. Qed.

Lemma append_assoc (a b c : string) : (a +:+ b) +:+ c = a +:+ b +:+ c.
Proof.
  induction a as [|ch a IH]; [done|].
  change (String ch ((a +:+ b) +:+ c) = String ch (a +:+ b +:+ c)).
  by rewrite IH.
Qed.

Lemma append_cancel_r (a b s : string) : a +:+ s = b +:+ s -> a = b.
Proof.
  revert b. induction a as [|ch a IH]; intros [|ch' b] H; simpl in H.
  - done.
  - apply (f_equal String.length) in H.
    rewrite !length_append in H. simpl in H. lia.
  - apply (f_equal String.length) in H.
    rewrite !length_append in H. simpl in H. lia.
  - injection H as -> H. by rewrite (IH b H).
Qed.

(** Two texts split at their first comma agree part by part. *)
Lemma split_at_comma (a b c d : string) :
  comma_free a = true -> comma_free c = true ->
  a +:+ "," +:+ b = c +:+ "," +:+ d -> a = c /\ b = d.
Proof.
  revert c. induction a as [|ch a IH]; intros [|ch' c] Ha Hc H; simpl in *.
  - by injection H.
  - injection H as <- _. by apply andb_prop in Hc as [Hc _].
  - injection H as -> _. by apply andb_prop in Ha as [Ha _].
  - injection H as -> H.
    apply andb_prop in Ha as [_ Ha]. apply andb_prop in Hc as [_ Hc].
    destruct (IH c Ha Hc H) as [-> ->]. done.
Qed.

Lemma digit_comma_free (x : N) (s : string) :
  comma_free s = true -> comma_free (String (pretty_N_char x) s) = true.
Proof.
  intros Hs. simpl. rewrite Hs, andb_true_r.
  unfold pretty_N_char. by repeat case_match.
Qed.

Lemma pretty_N_go_comma_free (x : N) (s : string) :
  comma_free s = true -> comma_free (pretty_N_go x s) = true.
Proof.
  revert s. induction (N.lt_wf_0 x) as [x _ IH]. intros s Hs.
  destruct (decide (x = 0%N)) as [->|Hx].
  - by rewrite pretty_N_go_0.
  - rewrite pretty_N_go_step by lia.
    apply IH; [apply N.div_lt; lia | by apply digit_comma_free].
Qed.

Lemma pretty_N_comma_free (x : N) : comma_free (pretty x) = true.
Proof.
  unfold pretty, pretty_N. case_decide; [done|].
  by apply pretty_N_go_comma_free.
Qed.

Lemma pretty_Z_comma_free (z : Z) : comma_free (pretty z) = true.
Proof.
  destruct z as [|x|x]; [done | apply pretty_N_comma_free |].
  change (pretty (Z.neg x)) with ("-" +:+ pretty (N.pos x)).
  simpl. apply pretty_N_comma_free.
Qed.

(** [JSON.stringify] tells positions apart. *)
Lemma JSON_stringify_pos_inj (p q : Position) :
  JSON_stringify_pos p = JSON_stringify_pos q -> p = q.
Proof.
  destruct p as [a b], q as [c d]. unfold JSON_stringify_pos. simpl.
  intros H. injection H as H.
  apply split_at_comma in H as [H1 H2]; try apply pretty_Z_comma_free.
  apply append_cancel_r in H2.
  f_equal; by apply (inj pretty).
Qed.

End Text.

(** ** The check detector on boards *)

Module Check.

Section Scan.

Variable movesFrom : Position -> list Position.
Variable own : Z.

Lemma royal_is_own (cell : option Chess) :
  royal_piece own cell = true -> own_piece own cell = true.
Proof. destruct cell; simpl; [|done]. by intros [? _]%andb_prop. Qed.

(** The source's test and branches at a square, on a typed cell. *)
Lemma visit_cell (i j : nat) (cell : option Chess) (acc : Scan) :
  visit movesFrom (VNum own) i j (cell_value cell) acc
  = Some (absorb movesFrom own acc ((Z.of_nat i, Z.of_nat j), cell)).
Proof.
  unfold visit, absorb. destruct cell as [c|]; simpl; [|done].
  case_bool_decide; simpl; [|done].
  by destruct (chess_isChief c).
Qed.

Lemma scan_row_cells (i : nat) (row : list (option Chess)) :
  forall j acc,
    scan_row movesFrom (VNum own) i j (cell_value <$> row) acc
    = Some (foldl (absorb movesFrom own) acc
              (imap (fun k cell => ((Z.of_nat i, Z.of_nat (j + k)), cell)) row)).
Proof.
  induction row as [|cell row IH]; intros j acc; [done|].
  rewrite fmap_cons, imap_cons. cbn [scan_row foldl].
  rewrite visit_cell. cbn [mbind option_bind]. rewrite IH.
  rewrite Nat.add_0_r. do 2 f_equal.
  apply imap_ext. intros k c _. simpl. do 3 f_equal. lia.
Qed.

Lemma scan_rows_board (b : Chessboard) :
  forall i acc,
    scan_rows movesFrom (VNum own) i
      ((fun row => VArr (cell_value <$> row)) <$> b) acc
    = Some (foldl (absorb movesFrom own) acc
              (concat (imap (fun k => row_squares (i + k)) b))).
Proof.
  induction b as [|row b IH]; intros i acc; [done|].
  rewrite fmap_cons, imap_cons. cbn [scan_rows as_array mbind option_bind].
  rewrite scan_row_cells. cbn [mbind option_bind]. rewrite IH.
  cbn [concat]. rewrite foldl_app, Nat.add_0_r.
  replace (imap ((fun k => row_squares (i + k)) ∘ S) b)
    with (imap (fun k => row_squares (S i + k)) b); [done|].
  apply imap_ext. intros k c _. simpl. f_equal. lia.
Qed.

(** The set of texts grows by the texts of the destinations added. *)
Lemma added_texts (dests : list Position) :
  forall (s : gset string) (x : string),
    x ∈ foldl (fun s p => {[ JSON_stringify_pos p ]} ∪ s) s dests
    <-> x ∈ s \/ exists q, q ∈ dests /\ x = JSON_stringify_pos q.
Proof.
  induction dests as [|d dests IH]; intros s x; simpl.
  - split; [by left | intros [?|(q & Hq & _)]; [done | by inversion Hq]].
  - rewrite IH. rewrite elem_of_union, elem_of_singleton. split.
    + intros [[->|?]|(q & Hq & ->)].
      * right. exists d. split; [left | done].
      * by left.
      * right. exists q. split; [by right | done].
    + intros [?|(q & Hq & ->)]; [by left; right|].
      apply elem_of_cons in Hq as [->|Hq]; [by left; left|].
      right. by exists q.
Qed.

Lemma absorbed_chiefs (sqs : list (Position * option Chess)) :
  forall acc,
    myChiefPos (foldl (absorb movesFrom own) acc sqs)
    = (myChiefPos acc
       ++ (fst <$> filter (fun sq => royal_piece own sq.2 = true) sqs))%list.
Proof.
  induction sqs as [|sq sqs IH]; intros acc; simpl.
  - by rewrite app_nil_r.
  - rewrite IH, filter_cons. unfold absorb.
    destruct (decide (royal_piece own sq.2 = true)) as [Hroyal|Hroyal].
    + rewrite (royal_is_own _ Hroyal), Hroyal. simpl.
      by rewrite <- app_assoc.
    + destruct (own_piece own sq.2); [|done].
      by destruct (royal_piece own sq.2).
Qed.

Lemma absorbed_moves (sqs : list (Position * option Chess)) :
  forall acc x,
    x ∈ opponentMoves (foldl (absorb movesFrom own) acc sqs)
    <-> x ∈ opponentMoves acc
        \/ exists q,
             q ∈ concat ((fun sq => movesFrom sq.1)
                           <$> filter (fun sq => not_own own sq.2 = true) sqs)
             /\ x = JSON_stringify_pos q.
Proof.
  induction sqs as [|sq sqs IH]; intros acc x; simpl.
  - split; [by left | intros [?|(q & Hq & _)]; [done | by inversion Hq]].
  - rewrite IH, filter_cons. unfold absorb, not_own.
    destruct (decide (negb (own_piece own sq.2) = true)) as [Hown|Hown].
    + apply negb_true_iff in Hown. rewrite Hown. simpl.
      rewrite added_texts. split.
      * intros [[?|(q & Hq & ->)]|(q & Hq & ->)]; [by left | right; exists q ..].
        -- split; [|done]. apply elem_of_app. by left.
        -- split; [|done]. apply elem_of_app. by right.
      * intros [?|(q & Hq & ->)]; [by left; left|].
        apply elem_of_app in Hq as [Hq|Hq].
        -- left. right. by exists q.
        -- right. by exists q.
    + apply not_true_is_false, negb_false_iff in Hown. rewrite Hown.
      by destruct (royal_piece own sq.2).
Qed.

(** [getIsChecked] on a board: the royal squares of the caller, in scan
    order, that some square not held by the caller reaches. *)
Lemma getIsChecked_board (b : Chessboard) :
  getIsChecked movesFrom (VNum own) (board_value b)
  = Some (checked_by (not_own own) own movesFrom b).
Proof.
  unfold getIsChecked, board_value. cbn [as_array mbind option_bind].
  rewrite scan_rows_board. cbn [mbind option_bind]. f_equal.
  change (concat (imap (fun k => row_squares (0 + k)) b)) with (squares b).
  rewrite absorbed_chiefs. cbn [myChiefPos app].
  unfold checked_by, royal_positions.
  apply list_filter_iff. intros p.
  rewrite absorbed_moves. cbn [opponentMoves]. unfold reach. split.
  - intros [H|(q & Hq & Heq)]; [by apply not_elem_of_empty in H|].
    by apply Text.JSON_stringify_pos_inj in Heq as ->.
  - intros Hp. right. by exists p.
Qed.

End Scan.

End Check.

(** ** The correlator *)

Module Correlator.

Ltac fields :=
  cbn [super id windowDestroyed isLocal isConnectSuccess messageHandlers camp
       isGameEnd nextPromise resolveCalls awaiters pending effects
       mapData chessboard extensions
       set_isConnectSuccess set_messageHandlers set_camp set_isGameEnd
       set_nextPromise set_resolveCalls set_awaiters set_pending set_effects
       set_windowDestroyed set_super set_mapData set_chessboard set_extensions
       emit schedule] in *.

Ltac frame := solve [unfold delta; fields; rewrite ?app_nil_r; auto].

Lemma delta_refl c : delta c c [] [].
Proof. frame. Qed.

Lemma delta_trans c c' c'' k1 a1 k2 a2 :
  delta c c' k1 a1 -> delta c' c'' k2 a2 ->
  delta c c'' (k1 ++ k2) (a1 ++ a2).
Proof.
  intros (H1 & H2 & H3 & H4) (G1 & G2 & G3 & G4). unfold delta.
  rewrite G1, G2, G3, G4, H1, H2, H3, H4, !app_assoc. done.
Qed.

Lemma delta_emit e c : delta c (emit e c) [] [].
Proof. frame. Qed.

Lemma delta_schedule cb c : delta c (schedule cb c) [] [cb].
Proof. frame. Qed.

Lemma delta_close content c : delta c (Client.close content c) [] [].
Proof. unfold Client.close. repeat case_match; frame. Qed.

Lemma delta_resume k p res c : delta c (Client.resume k p res c) [] [].
Proof. unfold Client.resume. repeat case_match; frame. Qed.

Lemma delta_resolve q r c : delta c (Client.resolve q r c) [(q, r)] [].
Proof.
  unfold Client.resolve.
  assert (H : delta c (set_resolveCalls (resolveCalls c ++ [(q, r)]) c) [(q, r)] [])
    by frame.
  repeat case_match; try done.
  apply (delta_trans _ _ _ _ _ _ _ H (delta_resume _ _ _ _)).
Qed.

Lemma delta_await p k c : delta c (Client.await p k c) [] [].
Proof. unfold Client.await. case_match; [apply delta_resume | frame]. Qed.

Lemma quiet_nil : quiet [].
Proof. constructor. Qed.

Lemma delta_negotiate W camp0 mapData0 loaded c :
  exists added, quiet added
    /\ delta c (Client.negotiate W camp0 mapData0 loaded c) [] added.
Proof.
  unfold Client.negotiate.
  repeat case_match;
    first [ exists []; split; [apply quiet_nil | frame]
          | exists [MismatchDialogClosed]; split;
            [by repeat constructor | frame] ].
Qed.

Lemma delta_push W type payload parsed c :
  exists added, quiet added /\ delta c (Client.push W type payload parsed c) [] added.
Proof.
  unfold Client.push.
  repeat case_match;
    first [ exists []; split; [apply quiet_nil | first [apply delta_close | frame]]
          | eexists [_]; split; [|frame]; by repeat constructor ].
Qed.


Lemma quiet_well_formed added (n : nat) :
  quiet added ->
  Forall (fun cb => match cb with RequestTimeout _ q => q < n | _ => True end) added.
Proof. intros H. eapply Forall_impl; [exact H|]. by intros []. Qed.

Lemma Forall_delete {A} (P : A -> Prop) (l : list A) (n : nat) :
  Forall P l -> Forall P (delete n l).
Proof.
  intros H. revert n. induction H as [|x l Hx Hl IH]; intros [|n]; simpl;
    [constructor | constructor | done | by constructor].
Qed.

Lemma well_formed_delta c c' calls added :
  well_formed c -> delta c c' calls added ->
  Forall (fun call => call.1 < nextPromise c) calls ->
  Forall (fun cb => match cb with
                    | RequestTimeout _ q => q < nextPromise c
                    | _ => True
                    end) added ->
  well_formed c'.
Proof.
  intros (Hc & Hh & Hp) (E1 & E2 & E3 & E4) Hcalls Hadded.
  unfold well_formed. rewrite E1, E2, E3, E4.
  split; [by apply Forall_app | split; [done | by apply Forall_app]].
Qed.

Lemma well_formed_forget i c :
  well_formed c ->
  well_formed (set_messageHandlers (delete i (messageHandlers c)) c).
Proof.
  intros (Hc & Hh & Hp). unfold well_formed. fields.
  split; [done | split; [|done]].
  intros j q [_ Hj]%lookup_delete_Some. by eapply Hh.
Qed.

Lemma well_formed_drop n c :
  well_formed c -> well_formed (set_pending (delete n (pending c)) c).
Proof.
  intros (Hc & Hh & Hp). unfold well_formed. fields.
  split; [done | split; [done|]].
  by apply Forall_delete.
Qed.

Lemma well_formed_handler i q r c :
  well_formed c -> messageHandlers c !! i = Some q ->
  well_formed (Client.handler i q r c).
Proof.
  intros Hwf Hi. unfold Client.handler.
  eapply well_formed_delta;
    [by apply (well_formed_forget i) | apply delta_resolve | | constructor].
  constructor; [|constructor]. simpl. by apply Hwf in Hi.
Qed.


Lemma well_formed_allocate c :
  well_formed c -> well_formed (set_nextPromise (S (nextPromise c)) c).
Proof.
  intros (Hc & Hh & Hp). unfold well_formed. fields. split; [|split].
  - eapply Forall_impl; [exact Hc|]. intros; simpl in *; lia.
  - intros i q Hi. apply Hh in Hi. lia.
  - eapply Forall_impl; [exact Hp|]. intros []; simpl; lia.
Qed.

Lemma well_formed_register i q c :
  well_formed c -> q < nextPromise c ->
  well_formed (set_messageHandlers (<[i := q]> (messageHandlers c)) c).
Proof.
  intros (Hc & Hh & Hp) Hq. unfold well_formed. fields.
  split; [done | split; [|done]].
  intros j r [[_ <-]|[_ Hj]]%lookup_insert_Some; [done | by eapply Hh].
Qed.

Lemma well_formed_quiet c c' added :
  well_formed c -> quiet added -> delta c c' [] added -> well_formed c'.
Proof.
  intros Hwf Hq Hd. eapply well_formed_delta; [done | done | constructor |].
  by apply quiet_well_formed.
Qed.

Lemma well_formed_contactToServer type payload messageId sendFails c :
  well_formed c ->
  well_formed (Client.contactToServer type payload messageId sendFails c).2.
Proof.
  intros Hwf. unfold Client.contactToServer. cbn [snd].
  set (p := nextPromise c).
  pose proof (well_formed_allocate c Hwf) as H1. fold p in H1.
  assert (Hp : p < nextPromise (set_nextPromise (S p) c)) by (fields; lia).
  pose proof (well_formed_register messageId p _ H1 Hp) as H2.
  assert (Hcall : Forall (fun call : nat * Response => call.1 < S p)
                    [(p, Client.failed_to_send)]).
  { constructor; [simpl; lia | constructor]. }
  eapply well_formed_delta; [| apply delta_schedule | constructor |].
  - case_match; [case_match|].
    + eapply well_formed_delta;
        [exact H2 | apply delta_resolve | exact Hcall | constructor].
    + eapply well_formed_delta;
        [exact H2 | apply delta_emit | constructor | constructor].
    + eapply well_formed_delta;
        [exact H1 | apply delta_resolve | exact Hcall | constructor].
  - constructor; [|constructor].
    repeat case_match;
      match goal with
      | |- _ < nextPromise ?x =>
          assert (nextPromise x = S p) as ->; [|lia]
      end.
    + by destruct (delta_resolve p Client.failed_to_send
                     (set_messageHandlers
                        (<[messageId := p]> (messageHandlers (set_nextPromise (S p) c)))
                        (set_nextPromise (S p) c))) as (_ & _ & -> & _).
    + done.
    + by destruct (delta_resolve p Client.failed_to_send (set_nextPromise (S p) c))
        as (_ & _ & -> & _).
Qed.

Lemma well_formed_await p k c : well_formed c -> well_formed (Client.await p k c).
Proof.
  intros Hwf. eapply well_formed_quiet; [done | apply quiet_nil | apply delta_await].
Qed.

(** An inbound message is routed to a handler exactly when its [id] is a
    non-empty string under which a handler is stored. *)
Lemma routed_Some id0 c i q :
  Client.routed id0 c = Some (i, q)
  <-> id0 = VStr i /\ i <> "" /\ messageHandlers c !! i = Some q.
Proof.
  unfold Client.routed. split.
  - destruct id0; simpl; try done; try (by case_match).
    destruct (String.eqb s "") eqn:Hs; simpl; [done|].
    intros (q' & Hq & [= -> ->])%fmap_Some.
    apply String.eqb_neq in Hs. done.
  - intros (-> & Hi & Hq). simpl.
    apply String.eqb_neq in Hi. rewrite Hi. simpl. by rewrite Hq.
Qed.

Section WithWorld.

Variable W : World.

Lemma well_formed_contact type payload messageId sendFails c :
  well_formed c ->
  well_formed (Client.contact W type payload messageId sendFails c).2.
Proof.
  intros Hwf. unfold Client.contact.
  pose proof (well_formed_contactToServer type payload messageId sendFails c Hwf).
  destruct (Client.contactToServer type payload messageId sendFails c) as [p c'].
  repeat case_match; simplify_eq; cbn [snd] in *;
    first [done | by apply well_formed_await].
Qed.

Lemma well_formed_onMessage rawData c :
  well_formed c -> well_formed (Client.onMessage W rawData c).
Proof.
  intros Hwf. unfold Client.onMessage.
  repeat case_match; simplify_eq;
    try (eapply well_formed_quiet; [done | apply quiet_nil | apply delta_emit]).
  - apply well_formed_handler; [done|].
    match goal with
    | H : Client.routed _ _ = Some _ |- _ => by apply routed_Some in H as (_ & _ & ?)
    end.
  - match goal with
    | |- well_formed (Client.push _ ?a ?b ?d _) =>
        destruct (delta_push W a b d c) as (added & Hq & Hd)
    end.
    by eapply well_formed_quiet.
Qed.

Lemma well_formed_fire cb c :
  well_formed c ->
  match cb with RequestTimeout _ q => q < nextPromise c | _ => True end ->
  well_formed (Client.fire W cb c).
Proof.
  intros Hwf Hcb. destruct cb as [i q| | |camp1 mapData1 loaded|]; cbn [Client.fire].
  - case_match; [|done].
    eapply well_formed_delta;
      [by apply (well_formed_forget i) | apply delta_resolve | | constructor].
    constructor; [done | constructor].
  - eapply well_formed_quiet; [done | apply quiet_nil | apply delta_close].
  - case_match; [done|].
    eapply well_formed_quiet; [done | apply quiet_nil | apply delta_emit].
  - destruct (delta_negotiate W camp1 mapData1 loaded c) as (added & Hq & Hd).
    by eapply well_formed_quiet.
  - eapply well_formed_quiet; [done | apply quiet_nil | apply delta_close].
Qed.

Lemma well_formed_step ev c c' :
  well_formed c -> Client.step W ev c = Some c' -> well_formed c'.
Proof.
  intros Hwf Hstep. destruct ev; cbn [Client.step] in Hstep; simplify_eq.
  - by apply well_formed_onMessage.
  - eapply well_formed_quiet; [done | | apply delta_schedule].
    by repeat constructor.
  - assert (Hwf' : well_formed (set_isConnectSuccess false c)) by done.
    case_match; [|done].
    eapply well_formed_quiet; [exact Hwf' | apply quiet_nil | apply delta_close].
  - destruct (pending c !! n) as [cb|] eqn:Hcb; simplify_eq/=.
    apply well_formed_fire; [by apply well_formed_drop|].
    destruct Hwf as (_ & _ & Hp).
    rewrite Forall_lookup in Hp. apply (Hp _ _ Hcb).
  - by apply well_formed_contact.
  - case_match; [|done].
    eapply well_formed_quiet; [done | apply quiet_nil | apply delta_close].
Qed.

Lemma well_formed_run evs :
  forall c c', well_formed c -> Client.run W evs c = Some c' -> well_formed c'.
Proof.
  induction evs as [|ev evs IH]; intros c c' Hwf Hrun; simpl in Hrun.
  - by simplify_eq.
  - destruct (Client.step W ev c) as [c1|] eqn:Hstep; simplify_eq/=.
    eapply IH; [|done]. by eapply well_formed_step.
Qed.

Lemma well_formed_new inherited surface local :
  well_formed (Client.new inherited surface local).
Proof.
  unfold well_formed. simpl. split; [constructor | split].
  - intros i q. by rewrite lookup_empty.
  - by repeat constructor.
Qed.

Lemma reachable_well_formed c : reachable W c -> well_formed c.
Proof.
  intros (inherited & surface & local & evs & Hrun).
  eapply well_formed_run; [apply well_formed_new | done].
Qed.

End WithWorld.


(** *** The life of one request *)

Lemma calls_delta p c c' calls added :
  delta c c' calls added ->
  Promise.calls p c'
  = (Promise.calls p c ++ (snd <$> filter (fun call => call.1 = p) calls))%list.
Proof.
  intros (_ & E & _ & _). unfold Promise.calls.
  by rewrite E, filter_app, fmap_app.
Qed.

Lemma quiet_no_timer messageId p added :
  quiet added -> filter (fun cb => is_timer messageId p cb = true) added = [].
Proof.
  induction 1 as [|cb added Hcb _ IH]; [done|].
  rewrite filter_cons, IH. by destruct cb.
Qed.

Lemma quiet_no_conflict messageId p added :
  quiet added -> Forall (fun cb => conflicts messageId p cb = false) added.
Proof. intros H. eapply Forall_impl; [exact H|]. by intros []. Qed.

Lemma timers_delta messageId p c c' calls added :
  delta c c' calls added -> quiet added ->
  timers_of messageId p c' = timers_of messageId p c.
Proof.
  intros (_ & _ & _ & E) Hq. unfold timers_of.
  by rewrite E, filter_app, (quiet_no_timer _ _ _ Hq), app_nil_r.
Qed.

Lemma count_delete {A} (P : A -> Prop) `{forall x, Decision (P x)}
    (l : list A) (n : nat) (x : A) :
  l !! n = Some x ->
  length (filter P (delete n l)) + (if decide (P x) then 1 else 0)
  = length (filter P l).
Proof.
  revert n. induction l as [|y l IH]; intros [|n] Hn; simplify_eq/=.
  - rewrite filter_cons. destruct (decide (P x)); simpl; lia.
  - rewrite !filter_cons. specialize (IH n Hn).
    destruct (decide (P y)); simpl; lia.
Qed.

Lemma timers_drop messageId p c n cb :
  pending c !! n = Some cb ->
  timers_of messageId p (set_pending (delete n (pending c)) c)
  + (if is_timer messageId p cb then 1 else 0)
  = timers_of messageId p c.
Proof.
  intros Hn. unfold timers_of. fields.
  rewrite <- (count_delete _ _ _ _ Hn).
  destruct (is_timer messageId p cb);
    [rewrite decide_True by done | rewrite decide_False by done]; done.
Qed.

(** A state that agrees on the request is in the same phase. *)
Lemma phase_frame messageId p c c' ph :
  in_phase messageId p c ph ->
  messageHandlers c' !! messageId = messageHandlers c !! messageId ->
  (forall j, messageHandlers c' !! j = Some p -> messageHandlers c !! j = Some p) ->
  Promise.calls p c' = Promise.calls p c ->
  timers_of messageId p c' = timers_of messageId p c ->
  Forall (fun cb => conflicts messageId p cb = false) (pending c') ->
  nextPromise c <= nextPromise c' ->
  in_phase messageId p c' ph.
Proof.
  intros (Hph & Hiso & _ & Hlt) Hh Hj Hc Ht Hf Hn.
  unfold in_phase. rewrite Hh, Hc, Ht.
  split; [done | split; [|split; [done | lia]]].
  intros j Hp. by apply Hiso, Hj.
Qed.

Lemma phase_quiet messageId p c c' ph added :
  in_phase messageId p c ph -> delta c c' [] added -> quiet added ->
  in_phase messageId p c' ph.
Proof.
  intros Hph Hd Hq. pose proof Hd as (E1 & E2 & E3 & E4).
  apply (phase_frame _ _ c); try done.
  - by rewrite E1.
  - intros j. by rewrite E1.
  - by rewrite (calls_delta _ _ _ _ _ Hd), app_nil_r.
  - by eapply timers_delta.
  - rewrite E4. apply Forall_app. split; [apply Hph | by apply quiet_no_conflict].
  - lia.
Qed.

(** A call of [resolve] for another promise does not touch the request. *)
Lemma phase_other_resolve messageId p c ph q r :
  in_phase messageId p c ph -> q <> p ->
  in_phase messageId p (Client.resolve q r c) ph.
Proof.
  intros Hph Hq. pose proof (delta_resolve q r c) as Hd.
  pose proof Hd as (E1 & E2 & E3 & E4).
  apply (phase_frame _ _ c); try done.
  - by rewrite E1.
  - intros j. by rewrite E1.
  - rewrite (calls_delta _ _ _ _ _ Hd), filter_cons, decide_False by done.
    by rewrite app_nil_r.
  - eapply timers_delta; [exact Hd | apply quiet_nil].
  - rewrite E4, app_nil_r. apply Hph.
  - lia.
Qed.

(** Removing the handler of another token does not touch the request. *)
Lemma phase_other_forget messageId p c ph i :
  in_phase messageId p c ph -> i <> messageId ->
  in_phase messageId p (set_messageHandlers (delete i (messageHandlers c)) c) ph.
Proof.
  intros Hph Hi. apply (phase_frame _ _ c); try done; fields.
  - by rewrite lookup_delete_ne.
  - intros j [_ Hj]%lookup_delete_Some. done.
  - apply Hph.
Qed.

(** The handler of the request runs: the response resolves it. *)
Lemma phase_answer messageId p c r :
  in_phase messageId p c Outstanding ->
  in_phase messageId p (Client.handler messageId p r c) (Resolved r true).
Proof.
  intros ((Hh & Hc & Ht) & Hiso & Hf & Hlt). unfold Client.handler.
  set (c1 := set_messageHandlers (delete messageId (messageHandlers c)) c).
  pose proof (delta_resolve p r c1) as Hd.
  pose proof Hd as (E1 & E2 & E3 & E4).
  unfold in_phase. rewrite E1, E3, E4, app_nil_r, (calls_delta _ _ _ _ _ Hd).
  rewrite filter_cons, decide_True by done. subst c1. fields.
  unfold Promise.calls in *. fields. rewrite Hc.
  split; [split; [apply lookup_delete_eq | split; [done|]] | split; [|done]].
  - unfold timers_of in *. fields. by rewrite E4, app_nil_r.
  - intros j [_ Hj]%lookup_delete_Some. by apply Hiso.
Qed.


Lemma phase_other_schedule messageId p c ph cb :
  in_phase messageId p c ph ->
  is_timer messageId p cb = false -> conflicts messageId p cb = false ->
  in_phase messageId p (schedule cb c) ph.
Proof.
  intros Hph Ht Hc. apply (phase_frame _ _ c); try done; fields.
  - unfold timers_of. fields.
    rewrite filter_app, filter_cons, decide_False, filter_nil, app_nil_r; [done|].
    by rewrite Ht.
  - apply Forall_app. split; [apply Hph | by repeat constructor].
Qed.

Lemma phase_allocate messageId p c ph :
  in_phase messageId p c ph ->
  in_phase messageId p (set_nextPromise (S (nextPromise c)) c) ph.
Proof.
  intros Hph. apply (phase_frame _ _ c); try done; fields; [apply Hph | lia].
Qed.

(** A request under another token does not touch the request. *)
Lemma phase_other_request messageId p c ph type payload i sendFails :
  in_phase messageId p c ph -> i <> messageId ->
  in_phase messageId p (Client.contactToServer type payload i sendFails c).2 ph.
Proof.
  intros Hph Hi. unfold Client.contactToServer. cbn [snd].
  set (q := nextPromise c).
  assert (Hq : q <> p) by (destruct Hph as (_ & _ & _ & Hlt); subst q; lia).
  pose proof (phase_allocate _ _ _ _ Hph) as H1. fold q in H1.
  assert (H2 : in_phase messageId p
                 (set_messageHandlers
                    (<[i := q]> (messageHandlers (set_nextPromise (S q) c)))
                    (set_nextPromise (S q) c)) ph).
  { apply (phase_frame _ _ (set_nextPromise (S q) c)); try done; fields.
    - by rewrite lookup_insert_ne.
    - intros j [[_ ?]|[_ Hj]]%lookup_insert_Some; [done | done].
    - apply H1. }
  apply phase_other_schedule.
  - case_match; [case_match|].
    + by apply phase_other_resolve.
    + eapply phase_quiet; [exact H2 | apply delta_emit | apply quiet_nil].
    + by apply phase_other_resolve.
  - simpl. by rewrite bool_decide_eq_false_2.
  - simpl. by rewrite !bool_decide_eq_false_2.
Qed.

Lemma no_calls_yet c : well_formed c -> Promise.calls (nextPromise c) c = [].
Proof.
  intros (Hc & _ & _). unfold Promise.calls.
  induction Hc as [|call calls Hcall _ IH]; [done|].
  rewrite filter_cons, decide_False by lia. done.
Qed.

(** A request whose transmission succeeds under a free token becomes
    outstanding. *)
Lemma phase_issue type payload messageId c :
  well_formed c -> unused messageId c -> JS.serializable payload = true ->
  in_phase messageId (nextPromise c)
    (Client.contactToServer type payload messageId false c).2 Outstanding.
Proof.
  intros Hwf [Hfree Htimers] Hser. unfold Client.contactToServer.
  rewrite Hser. cbn [snd]. set (p := nextPromise c).
  pose proof Hwf as (Hc & Hh & Hp).
  unfold in_phase, timers_of, Promise.calls. fields.
  split; [split; [|split] | split; [|split]].
  - apply lookup_insert_eq.
  - apply (no_calls_yet c Hwf).
  - rewrite filter_app, filter_cons, decide_True, filter_nil.
    + rewrite length_app. simpl.
      assert (filter (fun cb => is_timer messageId p cb = true) (pending c) = [])
        as ->; [|done].
      induction Htimers as [|cb cbs Hcb _ IH]; [done|].
      rewrite filter_cons, decide_False; [|by rewrite Hcb].
      apply IH. by inversion Hp.
    + simpl. by rewrite !bool_decide_eq_true_2.
  - intros j [[? _]|[_ Hj]]%lookup_insert_Some; [done|].
    apply Hh in Hj. subst p. lia.
  - apply Forall_app. split.
    + apply Forall_forall. intros cb Hcb.
      rewrite Forall_forall in Htimers, Hp.
      specialize (Htimers cb Hcb). specialize (Hp cb Hcb).
      destruct cb as [i q| | | |]; try done. simpl.
      rewrite (bool_decide_eq_false_2 (q = p)) by (subst p; lia).
      specialize (Htimers q). simpl in Htimers.
      rewrite (bool_decide_eq_true_2 (q = q)) in Htimers by done.
      by rewrite andb_true_r in Htimers; rewrite Htimers.
    + repeat constructor. simpl. by rewrite !bool_decide_eq_true_2.
  - lia.
Qed.


Lemma is_timer_true messageId p cb :
  is_timer messageId p cb = true <-> cb = RequestTimeout messageId p.
Proof.
  destruct cb as [i q| | | |]; simpl; try (split; done).
  rewrite andb_true_iff, !bool_decide_eq_true. split.
  - by intros [-> ->].
  - by intros [= -> ->].
Qed.

Lemma other_timer messageId p i q :
  is_timer messageId p (RequestTimeout i q) = false ->
  conflicts messageId p (RequestTimeout i q) = false ->
  i <> messageId /\ q <> p.
Proof.
  simpl. do 2 case_bool_decide; simpl; done.
Qed.

Lemma get_all_or_none v k k' : is_Some (JS.get v k) -> is_Some (JS.get v k').
Proof. destruct v; simpl; intros [? ?]; by eauto. Qed.

Section WithWorld.

Variable W : World.

(** Running a callback that is not the timer of the request. *)
Lemma phase_other_fire messageId p c ph cb :
  in_phase messageId p c ph ->
  is_timer messageId p cb = false -> conflicts messageId p cb = false ->
  in_phase messageId p (Client.fire W cb c) ph.
Proof.
  intros Hph Ht Hc. destruct cb as [i q| | |camp1 mapData1 loaded|]; cbn [Client.fire].
  - destruct (other_timer _ _ _ _ Ht Hc) as [Hi Hq].
    case_match; [|done].
    apply phase_other_resolve; [|done]. by apply phase_other_forget.
  - eapply phase_quiet; [done | apply delta_close | apply quiet_nil].
  - case_match; [done|].
    eapply phase_quiet; [done | apply delta_emit | apply quiet_nil].
  - destruct (delta_negotiate W camp1 mapData1 loaded c) as (added & Hq & Hd).
    by eapply phase_quiet.
  - eapply phase_quiet; [done | apply delta_close | apply quiet_nil].
Qed.

Lemma phase_fire messageId p c ph n cb :
  in_phase messageId p c ph -> pending c !! n = Some cb ->
  in_phase messageId p
    (Client.fire W cb (set_pending (delete n (pending c)) c))
    (advance W messageId p c ph (Client.Fire n)).
Proof.
  intros Hph Hn. pose proof (timers_drop messageId p c n cb Hn) as Hcount.
  set (c1 := set_pending (delete n (pending c)) c) in *.
  assert (Hconf : Forall (fun cb => conflicts messageId p cb = false) (pending c1)).
  { subst c1. fields. apply Forall_delete, Hph. }
  assert (Hadv : advance W messageId p c ph (Client.Fire n)
                 = match ph with
                   | Outstanding =>
                       if is_timer messageId p cb
                       then Resolved Client.timed_out false else Outstanding
                   | Resolved r live =>
                       if is_timer messageId p cb
                       then Resolved r false else Resolved r live
                   end).
  { unfold advance, expires. by rewrite Hn. }
  rewrite Hadv. clear Hadv.
  destruct (is_timer messageId p cb) eqn:Ht.
  - apply is_timer_true in Ht as ->. cbn [Client.fire].
    destruct Hph as (Hph & Hiso & _ & Hlt). destruct ph as [|r live].
    + destruct Hph as (Hh & Hc & Hcnt).
      assert (Hh1 : messageHandlers c1 !! messageId = Some p) by done.
      rewrite bool_decide_eq_true_2 by (by rewrite Hh1).
      set (c2 := set_messageHandlers (delete messageId (messageHandlers c1)) c1).
      pose proof (delta_resolve p Client.timed_out c2) as Hd.
      pose proof Hd as (E1 & E2 & E3 & E4).
      unfold in_phase, timers_of.
      rewrite E1, E3, E4, app_nil_r, (calls_delta _ _ _ _ _ Hd).
      rewrite filter_cons, decide_True by done.
      split; [split; [|split] | split; [|done]].
      * subst c2. fields. apply lookup_delete_eq.
      * unfold Promise.calls in *. subst c2 c1. fields. by rewrite Hc.
      * unfold timers_of in *. subst c2. fields. lia.
      * subst c2 c1. fields.
        intros j [_ Hj]%lookup_delete_Some. by apply Hiso.
    + destruct Hph as (Hh & Hc & Hcnt).
      assert (Hh1 : messageHandlers c1 !! messageId = None) by done.
      rewrite bool_decide_eq_false_2
        by (rewrite Hh1; by intros [? ?]).
      unfold in_phase. split; [split; [done | split; [done|]] | done].
      unfold timers_of in *. destruct live; lia.
  - assert (Hph1 : in_phase messageId p c1 ph).
    { apply (phase_frame _ _ c); try done. lia. }
    assert (Hc : conflicts messageId p cb = false).
    { destruct Hph as (_ & _ & Hf & _). rewrite Forall_lookup in Hf.
      by apply (Hf n). }
    destruct ph; by apply phase_other_fire.
Qed.

Lemma phase_message messageId p c ph rawData :
  messageId <> "" -> in_phase messageId p c ph ->
  in_phase messageId p (Client.onMessage W rawData c)
    (advance W messageId p c ph (Client.Message rawData)).
Proof.
  intros Hne Hph. unfold Client.onMessage.
  assert (Hstay : answers W messageId rawData = false ->
                  advance W messageId p c ph (Client.Message rawData) = ph).
  { intros Ha. unfold advance. rewrite Ha. by destruct ph. }
  assert (Hdone : forall r live, ph = Resolved r live ->
                  advance W messageId p c ph (Client.Message rawData) = ph).
  { by intros r live ->. }
  destruct (JSON_parse W rawData) as [parsed|] eqn:Hparse.
  2:{ rewrite Hstay by (unfold answers; by rewrite Hparse).
      eapply phase_quiet; [done | apply delta_emit | apply quiet_nil]. }
  destruct (JS.get parsed "id") as [id0|] eqn:Hid.
  2:{ rewrite Hstay.
      - destruct (JS.get parsed "type"), (JS.get parsed "data");
          (eapply phase_quiet; [done | apply delta_emit | apply quiet_nil]).
      - unfold answers, JS.get_opt. by rewrite Hparse, Hid. }
  destruct (get_all_or_none parsed "id" "type" ltac:(by rewrite Hid))
    as [ty Hty].
  destruct (get_all_or_none parsed "id" "data" ltac:(by rewrite Hid))
    as [payload Hdata].
  rewrite Hty, Hdata.
  assert (Hans : answers W messageId rawData
                 = JS.strict_eq id0 (VStr messageId)).
  { unfold answers, JS.get_opt. by rewrite Hparse, Hid. }
  destruct (Client.routed id0 c) as [[i q]|] eqn:Hrouted.
  - apply routed_Some in Hrouted as (-> & Hi & Hq).
    destruct (decide (i = messageId)) as [->|Hother].
    + destruct ph as [|r live].
      * destruct Hph as ((Hh & ?) & ?). simplify_eq.
        unfold advance. rewrite Hans. simpl.
        rewrite bool_decide_eq_true_2 by done.
        unfold response_of, JS.get_opt. rewrite Hparse, Hty, Hdata. simpl.
        by apply phase_answer.
      * destruct Hph as ((Hh & ?) & ?). congruence.
    + rewrite Hstay
        by (rewrite Hans; simpl; by rewrite bool_decide_eq_false_2).
      assert (q <> p).
      { intros ->. destruct Hph as (_ & Hiso & _). by apply Hiso in Hq. }
      unfold Client.handler.
      apply phase_other_resolve; [|done]. by apply phase_other_forget.
  - assert (Hsame : advance W messageId p c ph (Client.Message rawData) = ph).
    { destruct ph as [|r live]; [|by eapply Hdone].
      apply Hstay. rewrite Hans.
      destruct (JS.strict_eq id0 (VStr messageId)) eqn:Heq; [|done].
      destruct id0; simpl in Heq; try done.
      apply bool_decide_eq_true in Heq as [= ->].
      destruct Hph as ((Hh & _) & _).
      assert (Client.routed (VStr messageId) c = Some (messageId, p))
        by (by apply routed_Some).
      congruence. }
    rewrite Hsame.
    destruct (delta_push W ty payload parsed c) as (added & Hq & Hd).
    by eapply phase_quiet.
Qed.

(** One turn of the event loop moves the request along [advance]. *)
Lemma phase_step messageId p c ph ev c' :
  messageId <> "" ->
  in_phase messageId p c ph ->
  reissues messageId ev = false ->
  Client.step W ev c = Some c' ->
  in_phase messageId p c' (advance W messageId p c ph ev).
Proof.
  intros Hne Hph Hre Hstep.
  assert (Hsame : forall ev', expires messageId p c ev' = false ->
            (forall r, ev' <> Client.Message r) ->
            advance W messageId p c ph ev' = ph).
  { intros ev' He Hm. unfold advance. rewrite He.
    destruct ph; [|done]. destruct ev'; try done. by destruct (Hm rawData). }
  destruct ev as [rawData| |code|n|type payload i sendFails|confirmed];
    cbn [Client.step] in Hstep.
  - simplify_eq. by apply phase_message.
  - simplify_eq. rewrite Hsame by done.
    eapply phase_quiet; [done | apply delta_schedule | by repeat constructor].
  - simplify_eq. rewrite Hsame by done.
    assert (Hph' : in_phase messageId p (set_isConnectSuccess false c) ph) by done.
    case_match; [|done].
    eapply phase_quiet; [exact Hph' | apply delta_close | apply quiet_nil].
  - destruct (pending c !! n) as [cb|] eqn:Hn; simplify_eq/=.
    by apply phase_fire.
  - simplify_eq. rewrite Hsame by done.
    unfold Client.contact. simpl in Hre.
    destruct (String.eqb type "get-info"); [by repeat case_match|].
    destruct (String.eqb type "get-state") eqn:Hgs.
    { simpl in Hre. apply bool_decide_eq_false in Hre.
      pose proof (phase_other_request _ _ _ _ type payload i sendFails Hph Hre) as H.
      destruct (Client.contactToServer type payload i sendFails c) as [q c1].
      cbn [snd] in *.
      eapply phase_quiet; [exact H | apply delta_await | apply quiet_nil]. }
    destruct (String.eqb type "get-available-moves"); [done|].
    destruct (String.eqb type "get-is-checked"); [by case_match|].
    destruct (String.eqb type "move") eqn:Hmv; [|done].
    simpl in Hre. apply bool_decide_eq_false in Hre.
    pose proof (phase_other_request _ _ _ _ type payload i sendFails Hph Hre) as H.
    destruct (Client.contactToServer type payload i sendFails c) as [q c1].
    cbn [snd] in *.
    eapply phase_quiet; [exact H | apply delta_await | apply quiet_nil].
  - simplify_eq. rewrite Hsame by done.
    case_match; [|done].
    eapply phase_quiet; [done | apply delta_close | apply quiet_nil].
Qed.

End WithWorld.

End Correlator.

(** ** Claims on positions and on the check detector *)

(** C4.  The two position comparisons of the program coincide with
    structural equality.  [isEqualPosition] (the board component) and
    equality of the [JSON.stringify] texts (the check detector) both hold
    exactly when the rows are equal and the columns are equal; hence
    membership in the available-moves list, and membership of a position's
    text in the set of texts built from a list of destinations, are
    membership in the list. *)
Theorem position_equality_is_structural :
  (forall p q : Position,
     (isEqualPosition p q = true <-> p.1 = q.1 /\ p.2 = q.2)
     /\ (JSON_stringify_pos p = JSON_stringify_pos q <-> p.1 = q.1 /\ p.2 = q.2))
  /\ (forall (availableMoves : list Position) (pos : Position),
        isInAvailableMoves availableMoves pos = true <-> pos ∈ availableMoves)
  /\ (forall (dests : list Position) (p : Position),
        JSON_stringify_pos p
          ∈ foldl (fun (s : gset string) q => {[ JSON_stringify_pos q ]} ∪ s) ∅ dests
        <-> p ∈ dests).
Proof.
  assert (Heq : forall p q : Position,
             isEqualPosition p q = true <-> p.1 = q.1 /\ p.2 = q.2).
  { intros [a b] [c d]. unfold isEqualPosition. simpl.
    rewrite andb_true_iff, !bool_decide_eq_true. done. }
  split; [|split].
  - intros p q. split; [apply Heq|]. split.
    + by intros ->%Text.JSON_stringify_pos_inj.
    + destruct p, q. simpl. by intros [-> ->].
  - intros availableMoves pos. unfold isInAvailableMoves.
    rewrite existsb_exists. split.
    + intros (p & Hin & Hp). apply Heq in Hp as [H1 H2].
      destruct p, pos. simpl in *. subst. by apply list_elem_of_In.
    + intros Hin. exists pos. split; [by apply list_elem_of_In | by apply Heq].
  - intros dests p. rewrite Check.added_texts. split.
    + intros [H|(q & Hq & Heq')]; [by apply not_elem_of_empty in H|].
      by apply Text.JSON_stringify_pos_inj in Heq' as ->.
    + intros Hp. right. by exists p.
Qed.

(** C3, as the source has it.  On every board, for every camp and every
    move generator, [getIsChecked] returns, in row-major scan order, the
    positions of the caller's royal pieces that are among the destinations
    the move generator reports over every square that does not hold one of
    the caller's pieces, empty squares included.  A position is in the
    result exactly when it is such a royal position and is so reached, each
    royal piece on its own. *)
Theorem getIsChecked_scans_foreign_squares :
  forall (movesFrom : Position -> list Position) (own : Z) (b : Chessboard),
    getIsChecked movesFrom (VNum own) (board_value b)
    = Some (checked_by (not_own own) own movesFrom b)
    /\ (forall p,
          p ∈ checked_by (not_own own) own movesFrom b
          <-> p ∈ royal_positions own b /\ p ∈ reach (not_own own) movesFrom b).
Proof.
  intros movesFrom own b. split; [apply Check.getIsChecked_board|].
  intros p. unfold checked_by. by rewrite list_elem_of_filter, (comm and).
Qed.

(** C3 as stated fails: with a move generator that reports a destination
    from an empty square, the royal piece on that destination is returned,
    although no occupied square reaches it. *)
Lemma getIsChecked_counts_empty_squares :
  getIsChecked moves_from_empty_corner (VNum 1) (board_value lone_royal_board)
  = Some [(0, 1)%Z]
  /\ checked_by (occupied_not_own 1) 1 moves_from_empty_corner lone_royal_board = [].
Proof.
  split; [|by vm_compute].
  rewrite Check.getIsChecked_board. by vm_compute.
Qed.

(** When the move generator reports nothing from empty squares, the squares
    the source collects from and the occupied foreign squares reach the
    same destinations. *)
Lemma reach_without_empty_moves
    (movesFrom : Position -> list Position) (own : Z) (b : Chessboard) :
  (forall sq, sq ∈ squares b -> sq.2 = None -> movesFrom sq.1 = []) ->
  forall p, p ∈ reach (not_own own) movesFrom b
            <-> p ∈ reach (occupied_not_own own) movesFrom b.
Proof.
  intros Hempty p. unfold reach.
  induction (squares b) as [|sq sqs IH]; [done|].
  rewrite !filter_cons. unfold not_own, occupied_not_own in *.
  assert (Hsqs : forall sq', sq' ∈ sqs -> sq'.2 = None -> movesFrom sq'.1 = []).
  { intros sq' Hin. apply Hempty. by right. }
  specialize (IH Hsqs).
  destruct sq as [pos [c|]]; simpl in *.
  - destruct (bool_decide (chess_camp c = own)); simpl; [done|].
    rewrite !elem_of_app, IH. done.
  - pose proof (Hempty (pos, None) ltac:(left) eq_refl) as Hnone.
    simpl in Hnone. rewrite Hnone. simpl. done.
Qed.

(** ** Claims on the correlator *)

Lemma follow_resolved W messageId p evs :
  forall c r live,
    exists live', follow W messageId p evs c (Resolved r live) = Resolved r live'.
Proof.
  induction evs as [|ev evs IH]; intros c r live; simpl; [by eauto|].
  destruct (Client.step W ev c) as [c'|]; [|by eauto].
  destruct (expires messageId p c ev); apply IH.
Qed.

Lemma phase_run W messageId p evs :
  messageId <> "" ->
  forall c ph c',
    in_phase messageId p c ph ->
    Forall (fun ev => reissues messageId ev = false) evs ->
    Client.run W evs c = Some c' ->
    in_phase messageId p c' (follow W messageId p evs c ph).
Proof.
  intros Hne. induction evs as [|ev evs IH]; intros c ph c' Hph Hevs Hrun;
    simpl in *.
  - by simplify_eq.
  - destruct (Client.step W ev c) as [c1|] eqn:Hstep; simplify_eq/=.
    inversion Hevs as [|? ? Hev Hrest]; subst.
    eapply IH; [|done|done].
    by eapply Correlator.phase_step.
Qed.

Lemma late_response_resolves_nothing W messageId rawData c :
  messageHandlers c !! messageId = None ->
  answers W messageId rawData = true ->
  resolveCalls (Client.onMessage W rawData c) = resolveCalls c.
Proof.
  intros Hnone Hans. unfold answers in Hans. unfold Client.onMessage.
  destruct (JSON_parse W rawData) as [parsed|]; [|done].
  unfold JS.get_opt in Hans.
  destruct (JS.get parsed "id") as [id0|] eqn:Hid; [|done]. simpl in Hans.
  destruct id0; simpl in Hans; try done.
  apply bool_decide_eq_true in Hans as [= ->].
  destruct (Correlator.get_all_or_none parsed "id" "type" ltac:(by rewrite Hid))
    as [ty ->].
  destruct (Correlator.get_all_or_none parsed "id" "data" ltac:(by rewrite Hid))
    as [payload ->].
  destruct (Client.routed (VStr messageId) c) as [[i q]|] eqn:Hr.
  - apply Correlator.routed_Some in Hr as ([= ->] & _ & Hq). congruence.
  - destruct (Correlator.delta_push W ty payload parsed c) as (added & _ & Hd).
    destruct Hd as (_ & -> & _). by rewrite app_nil_r.
Qed.

(** C1, as the source has it.  Take a request issued through
    [contactToServer] whose transmission succeeds (the payload serializes
    and the send does not raise), under a non-empty token that no registered
    handler and no pending timer of an earlier request uses, and which no
    later request uses again.  Its result is resolved exactly once, by
    exactly one of a matching inbound response or its timer.  The request
    starts outstanding: handler registered, no call of [resolve], timer
    pending.  While it is outstanding a matching response resolves it with
    the response's payload, and the expiry of its timer resolves it with the
    timeout error.  Along every run of the event loop the request follows
    [advance]: whichever of the two comes first resolves it, and once
    resolved the recorded response never changes.  The timer firing after
    the handler is gone changes nothing, and a matching response arriving
    after the handler is gone makes no call of [resolve]. *)
Theorem request_resolves_once W c0 type payload messageId :
  reachable W c0 ->
  unused messageId c0 ->
  messageId <> "" ->
  JS.serializable payload = true ->
  let issued := Client.contactToServer type payload messageId false c0 in
  let p := issued.1 in
  in_phase messageId p issued.2 Outstanding
  /\ (forall c rawData,
        in_phase messageId p c Outstanding ->
        answers W messageId rawData = true ->
        in_phase messageId p (Client.onMessage W rawData c)
          (Resolved (response_of W rawData) true))
  /\ (forall c n,
        in_phase messageId p c Outstanding ->
        pending c !! n = Some (RequestTimeout messageId p) ->
        exists c',
          Client.step W (Client.Fire n) c = Some c'
          /\ in_phase messageId p c' (Resolved Client.timed_out false))
  /\ (forall evs c,
        Forall (fun ev => reissues messageId ev = false) evs ->
        Client.run W evs issued.2 = Some c ->
        in_phase messageId p c (follow W messageId p evs issued.2 Outstanding))
  /\ (forall evs c r live,
        exists live',
          follow W messageId p evs c (Resolved r live) = Resolved r live')
  /\ (forall c,
        messageHandlers c !! messageId = None ->
        Client.fire W (RequestTimeout messageId p) c = c)
  /\ (forall c rawData,
        messageHandlers c !! messageId = None ->
        answers W messageId rawData = true ->
        resolveCalls (Client.onMessage W rawData c) = resolveCalls c).
Proof.
  intros Hreach Hunused Hne Hser issued p.
  pose proof (Correlator.reachable_well_formed W c0 Hreach) as Hwf.
  assert (Hissued : in_phase messageId p issued.2 Outstanding).
  { subst p issued.
    change (Client.contactToServer type payload messageId false c0).1
      with (nextPromise c0).
    by apply (Correlator.phase_issue type payload messageId c0). }
  split; [done|]. repeat apply conj.
  - intros c rawData Hph Hans.
    pose proof (Correlator.phase_message W messageId p c Outstanding rawData Hne Hph)
      as H.
    cbn [advance] in H. by rewrite Hans in H.
  - intros c n Hph Hn. cbn [Client.step]. rewrite Hn. cbn [mbind option_bind].
    eexists. split; [done|].
    pose proof (Correlator.phase_fire W messageId p c Outstanding n _ Hph Hn) as H.
    cbn [advance expires] in H. rewrite Hn in H.
    assert (is_timer messageId p (RequestTimeout messageId p) = true) as Ht
      by (by apply Correlator.is_timer_true).
    by rewrite Ht in H.
  - intros evs c Hevs Hrun. by eapply phase_run.
  - intros evs c r live. apply follow_resolved.
  - intros c Hnone. cbn [Client.fire].
    rewrite bool_decide_eq_false_2; [done|]. rewrite Hnone. by intros [? ?].
  - intros c rawData. apply late_response_resolves_nothing.
Qed.

(** A request on a fresh client under the token k3x, answered by the sample
    world's envelope with that token. *)
Lemma request_resolves_once_witness :
  reachable sample_world (sample_client false)
  /\ unused "k3x" (sample_client false)
  /\ "k3x" <> ""
  /\ JS.serializable VUndefined = true
  /\ in_phase "k3x" 0
       (Client.contactToServer "get-state" VUndefined "k3x" false (sample_client false)).2
       Outstanding.
Proof.
  assert (H1 : reachable sample_world (sample_client false)).
  { exists (mkGameData VUndefined (VArr []) []), 7, false, []. reflexivity. }
  assert (H2 : unused "k3x" (sample_client false)).
  { split; [reflexivity|]. repeat constructor. }
  assert (H3 : "k3x" <> "") by discriminate.
  assert (H4 : JS.serializable VUndefined = true) by reflexivity.
  split; [exact H1|]. split; [exact H2|]. split; [exact H3|]. split; [exact H4|].
  exact (proj1 (request_resolves_once sample_world (sample_client false)
                  "get-state" VUndefined "k3x" H1 H2 H3 H4)).
Defined.

(** The two orders of the race on the sample request: the response, then
    the timer; and the timer, then the response. *)
Example response_then_timer :
  exists c,
    Client.run sample_world
      [Client.Message (envelope_text "success" (Some "board") (Some "k3x"));
       Client.Fire 1]
      (Client.contactToServer "get-state" VUndefined "k3x" false (sample_client false)).2
    = Some c
    /\ resolveCalls c = [(0, mkResponse (VStr "success") (VStr "board"))]
    /\ pending c = [HandshakeTimeout].
Proof. eexists. split; [reflexivity|]. split; reflexivity. Qed.

Example timer_then_response :
  exists c,
    Client.run sample_world
      [Client.Fire 1;
       Client.Message (envelope_text "success" (Some "board") (Some "k3x"))]
      (Client.contactToServer "get-state" VUndefined "k3x" false (sample_client false)).2
    = Some c
    /\ resolveCalls c = [(0, Client.timed_out)]
    /\ last (effects c)
       = Some (LogUnknownResponse (envelope_value "success" (Some "board") (Some "k3x"))).
Proof. eexists. split; [reflexivity|]. split; reflexivity. Qed.

(** Why the token must not be reused while an earlier timer is pending: the
    first request is answered, a second request draws the same token, and
    the timer of the first then removes the handler of the second and calls
    the [resolve] of the first again; the second request is never
    resolved, not even by its own timer. *)
Example reused_token_loses_request :
  exists c,
    Client.run sample_world
      [Client.Contact "get-state" VUndefined "k3x" false;
       Client.Message (envelope_text "success" (Some "board") (Some "k3x"));
       Client.Contact "get-state" VUndefined "k3x" false;
       Client.Fire 1;
       Client.Fire 1]
      (sample_client false)
    = Some c
    /\ Promise.calls 0 c = [mkResponse (VStr "success") (VStr "board"); Client.timed_out]
    /\ Promise.calls 1 c = []
    /\ messageHandlers c !! "k3x" = None
    /\ pending c = [HandshakeTimeout].
Proof.
  eexists. split; [vm_compute; reflexivity|].
  repeat split; vm_compute; reflexivity.
Qed.

(** C1 as stated fails: when the send raises, the result of the request is
    resolved by [contactToServer] itself, with the transport error, before
    any response has arrived and before its timer has fired. *)
Lemma failed_send_resolves_at_once :
  Client.contactToServer "get-state" VUndefined "k3x" true (sample_client false)
  = (0, (Client.contactToServer "get-state" VUndefined "k3x" true (sample_client false)).2)
  /\ Promise.settled 0
       (Client.contactToServer "get-state" VUndefined "k3x" true (sample_client false)).2
     = Some Client.failed_to_send
  /\ Client.failed_to_send <> Client.timed_out.
Proof. split; [reflexivity|]. split; [reflexivity | discriminate]. Qed.

(** A send that raises leaves the handler it stored just before: the promise
    is settled with the transport error and the token stays registered. *)
Lemma send_failure_keeps_handler type payload messageId c :
  well_formed c -> JS.serializable payload = true ->
  let issued := Client.contactToServer type payload messageId true c in
  Promise.settled issued.1 issued.2 = Some Client.failed_to_send
  /\ messageHandlers issued.2 !! messageId = Some issued.1.
Proof.
  intros Hwf Hser. unfold Client.contactToServer. rewrite Hser. cbn [fst snd].
  set (c1 := set_messageHandlers _ _).
  destruct (Correlator.delta_resolve (nextPromise c) Client.failed_to_send c1)
    as (E1 & E2 & _ & _).
  split.
  - unfold Promise.settled. Correlator.fields. rewrite E2.
    pose proof (Correlator.no_calls_yet c Hwf) as Hnone.
    unfold Promise.calls in Hnone. apply fmap_nil_inv in Hnone.
    subst c1. Correlator.fields.
    by rewrite filter_app, Hnone, filter_cons, decide_True.
  - Correlator.fields. rewrite E1. subst c1. Correlator.fields.
    apply lookup_insert_eq.
Qed.

(** A payload that does not serialize registers nothing. *)
Lemma serialization_failure_registers_nothing type payload messageId sendFails c :
  JS.serializable payload = false ->
  messageHandlers (Client.contactToServer type payload messageId sendFails c).2
  = messageHandlers c.
Proof.
  intros Hser. unfold Client.contactToServer. rewrite Hser. cbn [snd].
  Correlator.fields.
  by destruct (Correlator.delta_resolve (nextPromise c) Client.failed_to_send
                 (set_nextPromise (S (nextPromise c)) c)) as (-> & _).
Qed.

(** C2, the code at the failing input.  On a fresh client whose send raises,
    [contactToServer] settles the promise with the transport error at once,
    yet the handler stays in the pending-request map under the token; a
    payload that fails to serialize registers none. *)
Theorem failed_send_leaves_handler_registered :
  let issued :=
    Client.contactToServer "get-state" VUndefined "k3x" true (sample_client false) in
  let unserializable :=
    Client.contactToServer "move" (VBigInt 1) "k3x" false (sample_client false) in
  Promise.settled issued.1 issued.2 = Some Client.failed_to_send
  /\ messageHandlers issued.2 !! "k3x" = Some issued.1
  /\ Promise.settled unserializable.1 unserializable.2 = Some Client.failed_to_send
  /\ messageHandlers unserializable.2 !! "k3x" = None.
Proof. repeat split; reflexivity. Qed.

(** ** The dispatcher *)

Module Dispatch.

Lemma strict_eq_str (v : Value) (s : string) :
  JS.strict_eq v (VStr s) = true <-> v = VStr s.
Proof.
  destruct v; simpl; try (split; done).
  rewrite bool_decide_eq_true. split; [by intros -> | by intros [= ->]].
Qed.

Lemma get_opt_get (v : Value) (k : string) (x : Value) :
  JS.get v k = Some x -> JS.get_opt v k = x.
Proof. unfold JS.get_opt. by intros ->. Qed.

(** An inbound message that is not routed to a handler enters the
    [switch]. *)
Lemma onMessage_push W rawData parsed type payload c :
  JSON_parse W rawData = Some parsed ->
  Client.routed (JS.get_opt parsed "id") c = None ->
  JS.get parsed "type" = Some type ->
  JS.get parsed "data" = Some payload ->
  Client.onMessage W rawData c = Client.push W type payload parsed c.
Proof.
  intros Hparse Hrouted Htype Hdata. unfold Client.onMessage.
  rewrite Hparse, Htype, Hdata.
  destruct (Correlator.get_all_or_none parsed "type" "id" ltac:(by rewrite Htype))
    as [id0 Hid].
  rewrite Hid. by rewrite (get_opt_get _ _ _ Hid) in Hrouted; rewrite Hrouted.
Qed.

Lemma append_nonempty (a b : string) : b <> "" -> a +:+ b <> "".
Proof. by destruct a. Qed.

Lemma join_nonempty (sep : string) (parts : list string) :
  Forall (fun s => s <> "") parts -> parts <> [] -> JS.join sep parts <> "".
Proof.
  intros Hparts Hne. destruct Hparts as [|s rest Hs _]; [done|].
  destruct rest; simpl; [done|]. by destruct s.
Qed.

Lemma existing_lines_shown (existing : list ExtensionInfo) :
  (if JS.truthy (VStr (JS.join (Client.LF +:+ "  ") (Client.existing_line <$> existing)))
   then JS.join (Client.LF +:+ "  ") (Client.existing_line <$> existing)
   else "无")
  = match existing with
    | [] => "无"
    | _ => JS.join (Client.LF +:+ "  ") (Client.existing_line <$> existing)
    end.
Proof.
  destruct existing as [|ext rest]; [done|].
  assert (H : JS.join (Client.LF +:+ "  ") (Client.existing_line <$> ext :: rest) <> "").
  { apply join_nonempty; [|done].
    apply Forall_fmap, Forall_forall. intros e _. simpl.
    unfold Client.existing_line. by apply append_nonempty. }
  apply String.eqb_neq in H. unfold JS.truthy. by rewrite H.
Qed.

(** [resolve] leaves the session state the [switch] works on. *)
Lemma resolve_session p r c :
  let c' := Client.resolve p r c in
  isConnectSuccess c' = isConnectSuccess c /\ camp c' = camp c
  /\ isGameEnd c' = isGameEnd c /\ mapData (super c') = mapData (super c)
  /\ extensions (super c') = extensions (super c).
Proof.
  unfold Client.resolve, Client.resume. by repeat case_match.
Qed.

End Dispatch.

(** ** Claims on the dispatcher *)

(** C7, as the source has it.  An inbound message that parses and carries a
    non-empty correlation id under which a handler is registered is
    delivered to that handler and never enters the type-tag switch: the
    whole of [onMessage] is the handler's run, which removes the entry and
    calls [resolve] with [{ status: type, data: data }], and the session
    state the switch works on is untouched.  A message that fails to parse
    is logged and dropped: nothing changes but the log. *)
Theorem inbound_routing W rawData c :
  (forall parsed i p,
     JSON_parse W rawData = Some parsed ->
     JS.get_opt parsed "id" = VStr i -> i <> "" ->
     messageHandlers c !! i = Some p ->
     let c' := Client.onMessage W rawData c in
     c' = Client.handler i p (response_of W rawData) c
     /\ messageHandlers c' = delete i (messageHandlers c)
     /\ resolveCalls c' = (resolveCalls c ++ [(p, response_of W rawData)])%list
     /\ pending c' = pending c
     /\ isConnectSuccess c' = isConnectSuccess c /\ camp c' = camp c
     /\ isGameEnd c' = isGameEnd c /\ mapData (super c') = mapData (super c)
     /\ extensions (super c') = extensions (super c))
  /\ (JSON_parse W rawData = None ->
      let c' := Client.onMessage W rawData c in
      c' = emit (LogInvalidResponse rawData) c
      /\ effects c' = (effects c ++ [LogInvalidResponse rawData])%list
      /\ messageHandlers c' = messageHandlers c
      /\ resolveCalls c' = resolveCalls c
      /\ pending c' = pending c /\ awaiters c' = awaiters c
      /\ super c' = super c /\ camp c' = camp c
      /\ isGameEnd c' = isGameEnd c /\ isConnectSuccess c' = isConnectSuccess c).
Proof.
  split.
  - intros parsed i p Hparse Hid Hi Hp c'.
    assert (Hc' : c' = Client.handler i p (response_of W rawData) c).
    { subst c'. unfold Client.onMessage, response_of. rewrite Hparse.
      unfold JS.get_opt in *.
      destruct (JS.get parsed "id") as [id0|] eqn:Hid0; [|done]. simpl in Hid.
      subst id0.
      destruct (Correlator.get_all_or_none parsed "id" "type" ltac:(by rewrite Hid0))
        as [ty ->].
      destruct (Correlator.get_all_or_none parsed "id" "data" ltac:(by rewrite Hid0))
        as [payload ->].
      assert (Client.routed (VStr i) c = Some (i, p)) as ->
        by (by apply Correlator.routed_Some).
      done. }
    split; [done|]. rewrite Hc'. unfold Client.handler.
    set (c1 := set_messageHandlers (delete i (messageHandlers c)) c).
    destruct (Correlator.delta_resolve p (response_of W rawData) c1)
      as (-> & -> & _ & ->).
    destruct (Dispatch.resolve_session p (response_of W rawData) c1)
      as (-> & -> & -> & -> & ->).
    by rewrite app_nil_r.
  - intros Hparse c'. subst c'. unfold Client.onMessage. rewrite Hparse.
    by repeat split.
Qed.

(** A client with the request k3x outstanding receives the sample world's
    answer to it. *)
Lemma inbound_routing_witness :
  let c := (Client.contactToServer "get-state" VUndefined "k3x" false
              (sample_client false)).2 in
  let rawData := envelope_text "success" (Some "board") (Some "k3x") in
  resolveCalls (Client.onMessage sample_world rawData c)
  = [(0, mkResponse (VStr "success") (VStr "board"))]
  /\ messageHandlers (Client.onMessage sample_world rawData c) !! "k3x" = None.
Proof.
  intros c rawData.
  destruct (inbound_routing sample_world rawData c) as [Hrouted _].
  destruct (Hrouted (envelope_value "success" (Some "board") (Some "k3x")) "k3x" 0
              eq_refl eq_refl ltac:(discriminate) eq_refl)
    as (_ & Hh & Hc & _).
  split; [exact Hc | rewrite Hh; reflexivity].
Defined.

(** C7 as stated fails on the empty token, which [Math.random()] yields when
    it returns 0 (its base-36 text is the single digit 0, and [substring(2)]
    of it is empty): the request is registered under the empty string, the
    response that carries the empty id is treated as a push (logged as an
    unknown response), and the handler is not called. *)
Lemma empty_token_is_treated_as_push :
  let c := (Client.contactToServer "get-state" VUndefined "" false
              (sample_client false)).2 in
  let rawData := envelope_text "success" (Some "board") (Some "") in
  JSON_parse sample_world rawData
  = Some (envelope_value "success" (Some "board") (Some ""))
  /\ messageHandlers c !! "" = Some 0
  /\ Client.onMessage sample_world rawData c
     = emit (LogUnknownResponse (envelope_value "success" (Some "board") (Some ""))) c
  /\ resolveCalls (Client.onMessage sample_world rawData c) = [].
Proof. repeat split; reflexivity. Qed.

(** C9, as the source has it.  A connect-failure push whose reason is
    too-many-clients schedules, with a delay of 500 ms, a close that shows
    the room-full message; any other reason closes at once by
    [this.close(reason)], which shows the reason in the error box when the
    reason is non-empty (truthy) and shows nothing otherwise, and then calls
    the shared close. *)
Theorem connect_fail_closes W rawData parsed reason c :
  JSON_parse W rawData = Some parsed ->
  Client.routed (JS.get_opt parsed "id") c = None ->
  JS.get parsed "type" = Some (VStr "connect-fail") ->
  JS.get parsed "data" = Some reason ->
  (reason = VStr "too-many-clients" ->
     Client.onMessage W rawData c = schedule (DelayedClose "游戏房间已满") c
     /\ delay (DelayedClose "游戏房间已满") = Some 500%Z
     /\ forall c', Client.fire W (DelayedClose "游戏房间已满") c'
                   = Client.close (VStr "游戏房间已满") c')
  /\ (reason <> VStr "too-many-clients" ->
      Client.onMessage W rawData c = Client.close reason c
      /\ pending (Client.onMessage W rawData c) = pending c)
  /\ (forall content c',
        effects (Client.close content c')
        = (effects c'
           ++ (if isConnectSuccess c' then [WsClose None] else [])
           ++ (if JS.truthy content then [ShowErrorBox "错误" content] else [])
           ++ [CloseCallback])%list).
Proof.
  intros Hparse Hrouted Htype Hdata.
  rewrite (Dispatch.onMessage_push W rawData parsed _ _ c Hparse Hrouted Htype Hdata).
  unfold Client.push. cbn [Client.is_type JS.strict_eq]. simpl bool_decide.
  split; [|split].
  - intros ->. simpl. done.
  - intros Hne.
    destruct (JS.strict_eq reason (VStr "too-many-clients")) eqn:Heq.
    + by apply Dispatch.strict_eq_str in Heq.
    + split; [done|]. by destruct (Correlator.delta_close reason c) as (_ & _ & _ & ->);
        rewrite app_nil_r.
  - intros content c'. unfold Client.close.
    destruct (isConnectSuccess c'), (JS.truthy content); simpl;
      by rewrite <- ?app_assoc.
Qed.

(** The sample world's connect-failure push with the reason banned. *)
Lemma connect_fail_closes_witness :
  effects (Client.onMessage sample_world
             (envelope_text "connect-fail" (Some "banned") None) (sample_client false))
  = (effects (sample_client false)
     ++ [ShowErrorBox "错误" (VStr "banned"); CloseCallback])%list.
Proof.
  destruct (connect_fail_closes sample_world
              (envelope_text "connect-fail" (Some "banned") None)
              (envelope_value "connect-fail" (Some "banned") None)
              (VStr "banned") (sample_client false)
              eq_refl eq_refl eq_refl eq_refl) as (_ & Hnow & Hclose).
  destruct (Hnow ltac:(discriminate)) as [-> _].
  rewrite Hclose. reflexivity.
Defined.

(** C9 as stated fails on an empty reason: the session is closed at once,
    but no message is displayed. *)
Lemma empty_reason_shows_no_message :
  Client.onMessage sample_world
    (envelope_text "connect-fail" (Some "") None) (sample_client false)
  = emit CloseCallback (sample_client false).
Proof. reflexivity. Qed.

(** C6.  In a local session the compatibility check is skipped.  The
    handshake-success push records the map and awaits the extension
    loader; once the loader is done the session, whatever was loaded and
    whatever the map requires, records its camp, sends the prepared
    acknowledgment, sets the title and notifies the window with
    connect-success.  The result does not consult [checkExtensions] and
    shows no dialog; the two events in a row leave the camp recorded and
    exactly these effects. *)
Theorem local_handshake_skips_check W rawData parsed payload mapData0 required c :
  isLocal c = true ->
  JSON_parse W rawData = Some parsed ->
  Client.routed (JS.get_opt parsed "id") c = None ->
  JS.get parsed "type" = Some (VStr "connect-success") ->
  JS.get parsed "data" = Some payload ->
  JS.get payload "mapData" = Some mapData0 ->
  JS.get mapData0 "extensions" = Some required ->
  let camp0 := JS.get_opt payload "camp" in
  let accepted (loaded : list ExtensionInfo) (c' : GameClient) :=
    emit (WebContentsSend (VStr "connect-success") [])
      (emit (SetTitle (JS.to_string (JS.get_opt mapData0 "name") +:+ " - 本地模式"))
         (emit (WsSend (VObj [("type", VStr "prepared")]))
            (set_camp camp0 (set_extensions loaded c')))) in
  Client.onMessage W rawData c
  = schedule (ExtensionsLoaded camp0 mapData0 (autoGetNeededExtensions W required))
      (set_mapData mapData0 (set_isConnectSuccess true c))
  /\ (forall loaded c',
        isLocal c' = true ->
        Client.fire W (ExtensionsLoaded camp0 mapData0 loaded) c' = accepted loaded c')
  /\ (exists c2,
        Client.run W [Client.Message rawData; Client.Fire (length (pending c))] c = Some c2
        /\ camp c2 = camp0
        /\ effects c2
           = (effects c
              ++ [WsSend (VObj [("type", VStr "prepared")]);
                  SetTitle (JS.to_string (JS.get_opt mapData0 "name") +:+ " - 本地模式");
                  WebContentsSend (VStr "connect-success") []])%list).
Proof.
  intros Hlocal Hparse Hrouted Htype Hdata HmapData Hrequired camp0 accepted.
  assert (Hfire : forall loaded c', isLocal c' = true ->
            Client.fire W (ExtensionsLoaded camp0 mapData0 loaded) c' = accepted loaded c').
  { intros loaded c' Hc'. cbn [Client.fire]. unfold Client.negotiate.
    Correlator.fields. rewrite Hc'.
    destruct (Correlator.get_all_or_none mapData0 "extensions" "name"
                ltac:(by rewrite Hrequired)) as [title Htitle].
    rewrite Htitle. subst accepted. cbn beta.
    rewrite (Dispatch.get_opt_get _ _ _ Htitle).
    unfold Client.mode_label. Correlator.fields. by rewrite Hc'. }
  assert (Hmsg : Client.onMessage W rawData c
                 = schedule (ExtensionsLoaded camp0 mapData0
                               (autoGetNeededExtensions W required))
                     (set_mapData mapData0 (set_isConnectSuccess true c))).
  { rewrite (Dispatch.onMessage_push W rawData parsed _ _ c Hparse Hrouted Htype Hdata).
    unfold Client.push. cbn [Client.is_type JS.strict_eq]. simpl bool_decide.
    cbn match.
    destruct (Correlator.get_all_or_none payload "mapData" "camp"
                ltac:(by rewrite HmapData)) as [camp1 Hcamp].
    subst camp0. rewrite (Dispatch.get_opt_get _ _ _ Hcamp).
    by rewrite Hcamp, HmapData, Hrequired. }
  split; [done | split; [done|]].
  eexists. split; [|split].
  - cbn [Client.run Client.step mbind option_bind]. rewrite Hmsg.
    Correlator.fields.
    rewrite lookup_app_r by done. rewrite Nat.sub_diag. cbn [lookup list_lookup].
    cbn [mbind option_bind]. rewrite Hfire by done. reflexivity.
  - reflexivity.
  - subst accepted. Correlator.fields. by rewrite <- !app_assoc.
Qed.

(** A local client receives the sample handshake although only one of the
    two required extensions is installed. *)
Lemma local_handshake_skips_check_witness :
  checkExtensions sample_world [sample_extension]
    (VObj [("a", VStr "1"); ("b", VStr "2")]) = false
  /\ Client.onMessage sample_world handshake_text (sample_client true)
     = schedule (ExtensionsLoaded (VNum 1) sample_map [sample_extension])
         (set_mapData sample_map (set_isConnectSuccess true (sample_client true))).
Proof.
  split; [reflexivity|].
  exact (proj1 (local_handshake_skips_check sample_world handshake_text
                  handshake_value
                  (VObj [("camp", VNum 1); ("mapData", sample_map)])
                  sample_map (VObj [("a", VStr "1"); ("b", VStr "2")])
                  (sample_client true)
                  eq_refl eq_refl eq_refl eq_refl eq_refl eq_refl eq_refl)).
Defined.

(** C5.  When the compatibility check fails in a session that is not
    local, the session shows one error dialog whose detail lists, after the
    heading of the required set, every required entry as key@version, one
    per line in the order of the map's entries, and after the heading of
    the existing set every loaded extension the same way in the order of
    the list, or the marker for none when nothing is loaded; the session
    does not proceed.  With two required entries and one loaded extension
    the detail holds the two required lines and the one existing line. *)
Theorem mismatch_diagnostic W camp0 mapData0 loaded props c :
  isLocal c = false ->
  JS.get (mapData (super c)) "extensions" = Some (VObj props) ->
  checkExtensions W loaded (VObj props) = false ->
  let sep := Client.LF +:+ "  " in
  let detail :=
    "所需扩展：" +:+ sep
    +:+ JS.join sep ((fun kv => kv.1 +:+ "@" +:+ JS.to_string kv.2) <$> props)
    +:+ Client.LF +:+ "已有扩展：" +:+ sep
    +:+ match loaded with
        | [] => "无"
        | _ => JS.join sep ((fun ext => key ext +:+ "@" +:+ version ext) <$> loaded)
        end in
  Client.fire W (ExtensionsLoaded camp0 mapData0 loaded) c
  = schedule MismatchDialogClosed
      (emit (ShowMessageBox "error" "错误" "已启用扩展与服务器不匹配" detail)
         (set_extensions loaded c))
  /\ (forall k1 v1 k2 v2 ext,
        props = [(k1, VStr v1); (k2, VStr v2)] -> loaded = [ext] ->
        detail
        = "所需扩展：" +:+ Client.LF
          +:+ "  " +:+ k1 +:+ "@" +:+ v1 +:+ Client.LF
          +:+ "  " +:+ k2 +:+ "@" +:+ v2 +:+ Client.LF
          +:+ "已有扩展：" +:+ Client.LF
          +:+ "  " +:+ key ext +:+ "@" +:+ version ext).
Proof.
  intros Hlocal Hrequired Hcheck sep detail. split.
  - cbn [Client.fire]. unfold Client.negotiate. Correlator.fields.
    rewrite Hlocal, Hrequired, Hcheck. cbn [Client.entries].
    do 3 f_equal. unfold Client.mismatch_detail.
    rewrite Dispatch.existing_lines_shown. subst detail sep.
    unfold Client.required_line, Client.existing_line.
    reflexivity.
  - intros k1 v1 k2 v2 ext -> ->. subst detail sep.
    cbn [fmap list_fmap JS.join JS.to_string fst snd].
    rewrite !Text.append_assoc. reflexivity.
Qed.

(** The sample map requires a@1 and b@2 and only a@1 is loaded. *)
Lemma mismatch_diagnostic_witness :
  let c := set_mapData sample_map (sample_client false) in
  isLocal c = false
  /\ JS.get (mapData (super c)) "extensions"
     = Some (VObj [("a", VStr "1"); ("b", VStr "2")])
  /\ checkExtensions sample_world [sample_extension]
       (VObj [("a", VStr "1"); ("b", VStr "2")]) = false
  /\ effects (Client.fire sample_world
                (ExtensionsLoaded (VNum 1) sample_map [sample_extension]) c)
     = (effects c
        ++ [ShowMessageBox "error" "错误" "已启用扩展与服务器不匹配"
              ("所需扩展：" +:+ Client.LF +:+ "  a@1" +:+ Client.LF +:+ "  b@2"
               +:+ Client.LF +:+ "已有扩展：" +:+ Client.LF +:+ "  a@1")])%list.
Proof.
  intros c. split; [reflexivity|]. split; [reflexivity|]. split; [reflexivity|].
  rewrite (proj1 (mismatch_diagnostic sample_world (VNum 1) sample_map
                    [sample_extension] [("a", VStr "1"); ("b", VStr "2")] c
                    eq_refl eq_refl eq_refl)).
  reflexivity.
Defined.

(** ** Claims on the coordinator *)

Module Teardown.

Import Coordinator.

Lemma once_close s : torn_down_once s -> torn_down_once (close s).
Proof.
  intros [Hstop Hhandler]. unfold close, torn_down_once.
  destruct (isClosed s) eqn:Hclosed; simpl; [by rewrite Hclosed | by rewrite Hstop].
Qed.

Lemma once_iter n s : torn_down_once s -> torn_down_once (Nat.iter n close s).
Proof. induction n; simpl; [done | intros; by apply once_close, IHn]. Qed.

Lemma once_clients s clients :
  torn_down_once s ->
  torn_down_once (mkState (isClosed s) clients (contactHandler s) (stopGame s)).
Proof. done. Qed.

Lemma once_step W ev s s' : torn_down_once s -> step W ev s = Some s' -> torn_down_once s'.
Proof.
  intros Hs Hstep. destruct ev as [k cev|sender type payload messageId sendFails|];
    cbn [step] in Hstep.
  - unfold deliver in Hstep.
    destruct (gameClients s !! k) as [c|]; simplify_eq/=.
    destruct (Client.step W cev c) as [c'|]; simplify_eq/=.
    by apply once_iter, once_clients.
  - simplify_eq. unfold invoke.
    destruct (contactHandler s) eqn:Hh; [|done].
    destruct (list_find _ _) as [[k c]|]; [|done].
    destruct (Client.contact W type payload messageId sendFails c) as [r c'].
    destruct Hs as [Hstop Hhandler]. split; simpl; [done|].
    intros Hc. by rewrite Hhandler in Hh.
  - simplify_eq. by apply once_close.
Qed.

Lemma once_run W evs :
  forall s s', torn_down_once s -> run W evs s = Some s' -> torn_down_once s'.
Proof.
  induction evs as [|ev evs IH]; intros s s' Hs Hrun; simpl in Hrun.
  - by simplify_eq.
  - destruct (step W ev s) as [s1|] eqn:Hstep; simplify_eq/=.
    eapply IH; [|done]. by eapply once_step.
Qed.

Lemma close_close s : close (close s) = close s.
Proof. unfold close. by destruct (isClosed s) eqn:H; simpl; rewrite ?H. Qed.

End Teardown.

(** C8.  In every state the coordinator built by [createClients] reaches,
    the teardown callback has been called once if the coordinator is closed
    and never otherwise.  The first call of the shared [close] destroys the
    window of every owned client, removes the handler of ['contact'] and
    calls the teardown callback; a further call changes nothing, so after
    two calls the callback has run exactly once; and after a close every
    ['contact'] invocation, from whichever window, is rejected for want of a
    handler and reaches no client. *)
Theorem close_is_idempotent W inherited surfaces local evs s :
  Coordinator.run W evs (Coordinator.createClients inherited surfaces local) = Some s ->
  Coordinator.stopGame s = (if Coordinator.isClosed s then 1 else 0)
  /\ (Coordinator.isClosed s = false ->
      Coordinator.isClosed (Coordinator.close s) = true
      /\ Forall (fun c => windowDestroyed c = true)
           (Coordinator.gameClients (Coordinator.close s))
      /\ length (Coordinator.gameClients (Coordinator.close s))
         = length (Coordinator.gameClients s)
      /\ Coordinator.contactHandler (Coordinator.close s) = false
      /\ Coordinator.stopGame (Coordinator.close s) = 1)
  /\ Coordinator.close (Coordinator.close s) = Coordinator.close s
  /\ Coordinator.stopGame (Coordinator.close (Coordinator.close s)) = 1
  /\ (forall sender type payload messageId sendFails,
        Coordinator.invoke W sender type payload messageId sendFails
          (Coordinator.close s)
        = (Coordinator.NoHandler, Coordinator.close s)).
Proof.
  intros Hrun.
  assert (Hs : torn_down_once s).
  { eapply Teardown.once_run; [|exact Hrun]. by split. }
  pose proof (Teardown.once_close s Hs) as [Hstop1 Hhandler1].
  destruct Hs as [Hstop Hhandler].
  assert (Hclosed : Coordinator.isClosed (Coordinator.close s) = true).
  { unfold Coordinator.close. by destruct (Coordinator.isClosed s) eqn:H. }
  rewrite Hclosed in Hstop1.
  split; [done|]. split; [|split; [|split]].
  - intros Hopen. unfold Coordinator.close in *. rewrite Hopen in *. simpl.
    rewrite length_fmap, Hstop. split; [done|]. split; [|done].
    apply Forall_fmap, Forall_forall. by intros c _.
  - apply Teardown.close_close.
  - by rewrite Teardown.close_close.
  - intros sender type payload messageId sendFails. unfold Coordinator.invoke.
    by rewrite (Hhandler1 Hclosed).
Qed.

(** Two local clients; the first window is asked to close and the user
    confirms, then the second is asked as well. *)
Lemma close_is_idempotent_witness :
  exists s,
    Coordinator.run sample_world
      [Coordinator.Deliver 0 (Client.WindowClose true);
       Coordinator.Deliver 1 (Client.WindowClose true)]
      (Coordinator.createClients (mkGameData VUndefined (VArr []) []) [7; 8] true)
    = Some s
    /\ Coordinator.isClosed s = true
    /\ Coordinator.stopGame s = 1.
Proof.
  eexists. split; [reflexivity|]. split; [reflexivity|].
  exact (proj1 (close_is_idempotent sample_world
                  (mkGameData VUndefined (VArr []) []) [7; 8] true
                  [Coordinator.Deliver 0 (Client.WindowClose true);
                   Coordinator.Deliver 1 (Client.WindowClose true)] _ eq_refl)).
Defined.

(** ** The suspended [contact] call *)

Module Awaiting.

Import Correlator.

Lemma settled_calls p c : Promise.calls p c = [] -> Promise.settled p c = None.
Proof.
  unfold Promise.calls, Promise.settled. intros H%fmap_nil_inv. by rewrite H.
Qed.

(** The test of lines 207-208 picks out the responses that carry a
    board. *)
Lemma resume_get_state p res c :
  let c' := Client.resume AwaitGetState p res c in
  chessboard (super c') = default (chessboard (super c)) (snapshot_of res)
  /\ effects c' = (effects c ++ [Reply p res])%list
  /\ mapData (super c') = mapData (super c)
  /\ camp c' = camp c.
Proof.
  unfold Client.resume, snapshot_of.
  destruct res as [st dt]. cbn [status data].
  destruct st as [| | | | |s| |]; simpl; try done.
  case_bool_decide as Hs.
  - subst s. simpl.
    destruct dt as [| | | | | |elems|props]; simpl;
      rewrite ?andb_false_r; try done.
    unfold JS.get_opt. simpl.
    destruct (JS.assoc "chessboard" props) as [board|]; simpl; done.
  - apply String.eqb_neq in Hs. rewrite Hs.
    by destruct dt.
Qed.

Lemma resolve_awaited p res c :
  Promise.settled p c = None ->
  awaiters c !! p = Some AwaitGetState ->
  let c' := Client.resolve p res c in
  chessboard (super c') = default (chessboard (super c)) (snapshot_of res)
  /\ effects c' = (effects c ++ [Reply p res])%list.
Proof.
  intros Hnone Hawait. unfold Client.resolve. rewrite Hnone, Hawait.
  destruct (resume_get_state p res
              (set_resolveCalls (resolveCalls c ++ [(p, res)]) c))
    as (H1 & H2 & _).
  by rewrite H1, H2.
Qed.

(** Operations that leave the awaiters alone. *)
Lemma awaiters_close content c : awaiters (Client.close content c) = awaiters c.
Proof. unfold Client.close. by repeat case_match. Qed.

Lemma awaiters_negotiate W camp0 mapData0 loaded c :
  awaiters (Client.negotiate W camp0 mapData0 loaded c) = awaiters c.
Proof. unfold Client.negotiate. by repeat case_match. Qed.

Lemma awaiters_push W type payload parsed c :
  awaiters (Client.push W type payload parsed c) = awaiters c.
Proof.
  unfold Client.push. repeat case_match; try done; apply awaiters_close.
Qed.

Lemma awaiters_resolve q r c p :
  q <> p -> awaiters (Client.resolve q r c) !! p = awaiters c !! p.
Proof.
  intros Hq. unfold Client.resolve, Client.resume.
  repeat case_match; fields; by rewrite ?lookup_delete_ne.
Qed.

Lemma awaiters_await q k c p :
  q <> p -> awaiters (Client.await q k c) !! p = awaiters c !! p.
Proof.
  intros Hq. unfold Client.await, Client.resume.
  repeat case_match; fields; by rewrite ?lookup_delete_ne, ?lookup_insert_ne.
Qed.

Lemma awaiters_contactToServer type payload i sendFails c p :
  p < nextPromise c ->
  awaiters (Client.contactToServer type payload i sendFails c).2 !! p
  = awaiters c !! p.
Proof.
  intros Hp. unfold Client.contactToServer. cbn [snd]. fields.
  repeat case_match; fields; try done; rewrite awaiters_resolve; fields; try done; lia.
Qed.

Lemma nextPromise_contactToServer type payload i sendFails c :
  nextPromise (Client.contactToServer type payload i sendFails c).2
  = S (nextPromise c)
  /\ (Client.contactToServer type payload i sendFails c).1 = nextPromise c.
Proof.
  unfold Client.contactToServer. cbn [fst snd]. fields. split; [|done].
  repeat case_match; try done;
    match goal with
    | |- nextPromise (Client.resolve ?q ?r ?x) = _ =>
        by destruct (delta_resolve q r x) as (_ & _ & -> & _)
    end.
Qed.


Section WithWorld.

Variable W : World.

(** What [onMessage] does while the request is outstanding. *)
Lemma onMessage_outstanding messageId p c rawData :
  messageId <> "" -> in_phase messageId p c Outstanding ->
  (answers W messageId rawData = true
   /\ Client.onMessage W rawData c
      = Client.handler messageId p (response_of W rawData) c)
  \/ (answers W messageId rawData = false
      /\ ((exists e, Client.onMessage W rawData c = emit e c)
          \/ (exists i q r, i <> messageId /\ q <> p
                            /\ Client.onMessage W rawData c = Client.handler i q r c)
          \/ (exists ty pl parsed,
                Client.onMessage W rawData c = Client.push W ty pl parsed c))).
Proof.
  intros Hne Hph. unfold Client.onMessage, answers, response_of.
  destruct (JSON_parse W rawData) as [parsed|]; [|right; split; [done|]; by eauto].
  unfold JS.get_opt.
  destruct (JS.get parsed "id") as [id0|] eqn:Hid.
  2:{ right. split; [done|]. left.
      destruct (JS.get parsed "type"), (JS.get parsed "data"); by eauto. }
  destruct (get_all_or_none parsed "id" "type" ltac:(by rewrite Hid)) as [ty ->].
  destruct (get_all_or_none parsed "id" "data" ltac:(by rewrite Hid)) as [pl ->].
  cbn [default].
  destruct (Client.routed id0 c) as [[i q]|] eqn:Hrouted.
  - apply routed_Some in Hrouted as (-> & Hi & Hq).
    destruct (decide (i = messageId)) as [->|Hother].
    + left. destruct Hph as ((Hh & _) & _). simplify_eq.
      split; [|done]. simpl. by rewrite bool_decide_eq_true_2.
    + right. split; [simpl; by rewrite bool_decide_eq_false_2|].
      right. left. exists i, q, (mkResponse ty pl). split; [done|]. split; [|done].
      intros ->. destruct Hph as (_ & Hiso & _). by apply Hiso in Hq.
  - right. split; [|by eauto 10].
    destruct (JS.strict_eq id0 (VStr messageId)) eqn:Heq; [|done].
    destruct id0; simpl in Heq; try done.
    apply bool_decide_eq_true in Heq as [= ->].
    destruct Hph as ((Hh & _) & _).
    assert (Client.routed (VStr messageId) c = Some (messageId, p))
      by (by apply routed_Some).
    congruence.
Qed.

(** While the request is outstanding its awaiter stays; the event that
    resolves it wakes the awaiter, which stores the board the response
    carries, if any, and hands the response back. *)
Lemma awaited_step messageId p c ev c' :
  messageId <> "" ->
  in_phase messageId p c Outstanding ->
  awaiters c !! p = Some AwaitGetState ->
  reissues messageId ev = false ->
  Client.step W ev c = Some c' ->
  match advance W messageId p c Outstanding ev with
  | Outstanding => awaiters c' !! p = Some AwaitGetState
  | Resolved r _ =>
      chessboard (super c') = default (chessboard (super c)) (snapshot_of r)
      /\ effects c' = (effects c ++ [Reply p r])%list
  end.
Proof.
  intros Hne Hph Hawait Hre Hstep.
  pose proof Hph as ((Hh & Hcalls & Hcount) & Hiso & Hconf & Hlt).
  assert (Hwake : forall r c1,
            awaiters c1 = awaiters c -> resolveCalls c1 = resolveCalls c ->
            chessboard (super c1) = chessboard (super c) ->
            effects c1 = effects c ->
            chessboard (super (Client.resolve p r c1))
            = default (chessboard (super c)) (snapshot_of r)
            /\ effects (Client.resolve p r c1) = (effects c ++ [Reply p r])%list).
  { intros r c1 E1 E2 E3 E4. rewrite <- E3, <- E4.
    apply resolve_awaited; [|by rewrite E1].
    apply settled_calls. unfold Promise.calls in *. by rewrite E2. }
  destruct ev as [rawData| |code|n|type payload i sendFails|confirmed];
    cbn [Client.step] in Hstep; cbn [advance expires].
  - simplify_eq.
    destruct (onMessage_outstanding messageId p c rawData Hne Hph)
      as [[-> ->]|[-> Hcases]].
    + unfold Client.handler. by apply Hwake.
    + destruct Hcases as [[e ->]|[(i & q & r & Hi & Hq & ->)|(ty & pl & parsed & ->)]].
      * done.
      * unfold Client.handler. by rewrite awaiters_resolve.
      * by rewrite awaiters_push.
  - by simplify_eq.
  - simplify_eq. case_match; [|done]. by rewrite awaiters_close.
  - destruct (pending c !! n) as [cb|] eqn:Hn; simplify_eq/=.
    destruct (is_timer messageId p cb) eqn:Ht.
    + apply is_timer_true in Ht as ->. cbn [Client.fire]. fields.
      rewrite bool_decide_eq_true_2 by (by rewrite Hh).
      by apply Hwake.
    + assert (Hc : conflicts messageId p cb = false).
      { rewrite Forall_lookup in Hconf. by apply (Hconf n). }
      destruct cb as [i q| | |camp1 mapData1 loaded|]; cbn [Client.fire].
      * destruct (other_timer _ _ _ _ Ht Hc) as [Hi Hq].
        case_match; [|done]. by rewrite awaiters_resolve.
      * by rewrite awaiters_close.
      * by case_match.
      * by rewrite awaiters_negotiate.
      * by rewrite awaiters_close.
  - simplify_eq. unfold Client.contact. simpl in Hre.
    destruct (String.eqb type "get-info"); [by repeat case_match|].
    assert (Hother : i <> messageId ->
              awaiters (Client.await
                          (Client.contactToServer type payload i sendFails c).1
                          AwaitGetState
                          (Client.contactToServer type payload i sendFails c).2) !! p
              = Some AwaitGetState
              /\ awaiters (Client.await
                             (Client.contactToServer type payload i sendFails c).1
                             AwaitMove
                             (Client.contactToServer type payload i sendFails c).2) !! p
                 = Some AwaitGetState).
    { intros _.
      destruct (nextPromise_contactToServer type payload i sendFails c) as [_ ->].
      rewrite !awaiters_await by lia.
      by rewrite awaiters_contactToServer. }
    destruct (String.eqb type "get-state") eqn:Hgs.
    { simpl in Hre. apply bool_decide_eq_false in Hre.
      destruct (Hother Hre) as [H _].
      by destruct (Client.contactToServer type payload i sendFails c). }
    destruct (String.eqb type "get-available-moves"); [done|].
    destruct (String.eqb type "get-is-checked"); [by case_match|].
    destruct (String.eqb type "move") eqn:Hmv; [|done].
    simpl in Hre. apply bool_decide_eq_false in Hre.
    destruct (Hother Hre) as [_ H].
    by destruct (Client.contactToServer type payload i sendFails c).
  - simplify_eq. case_match; [|done]. by rewrite awaiters_close.
Qed.

End WithWorld.


(** *** Awaited promises have been created *)

Lemma sub_resolve q r c p k :
  awaiters (Client.resolve q r c) !! p = Some k -> awaiters c !! p = Some k.
Proof.
  unfold Client.resolve, Client.resume.
  repeat case_match; fields; try done; by intros [_ ?]%lookup_delete_Some.
Qed.

Lemma sub_await q k' c p k :
  awaiters (Client.await q k' c) !! p = Some k ->
  p = q \/ awaiters c !! p = Some k.
Proof.
  unfold Client.await, Client.resume.
  repeat case_match; fields;
    try (intros [_ ?]%lookup_delete_Some; by right);
    intros [[-> _]|[_ ?]]%lookup_insert_Some; by eauto.
Qed.

Lemma sub_contactToServer type payload i sendFails c p k :
  awaiters (Client.contactToServer type payload i sendFails c).2 !! p = Some k ->
  awaiters c !! p = Some k.
Proof.
  unfold Client.contactToServer. cbn [snd]. fields.
  repeat case_match; fields; try done; by intros ?%sub_resolve.
Qed.

Section Bounded.

Variable W : World.

Lemma bounded_step ev c c' :
  awaiters_bounded c -> Client.step W ev c = Some c' -> awaiters_bounded c'.
Proof.
  intros Hb Hstep.
  assert (Hkeep : forall c1 : GameClient,
            nextPromise c1 = nextPromise c ->
            (forall q k, awaiters c1 !! q = Some k -> awaiters c !! q = Some k) ->
            awaiters_bounded c1).
  { intros c1 Hn Hsub q k Hq. rewrite Hn. by eapply Hb, Hsub. }
  destruct ev as [rawData| |code|n|type payload i sendFails|confirmed];
    cbn [Client.step] in Hstep.
  - simplify_eq. unfold Client.onMessage.
    repeat case_match; simplify_eq; try (by apply Hkeep).
    + unfold Client.handler.
      match goal with
      | |- awaiters_bounded (Client.resolve ?q ?r ?x) =>
          apply Hkeep;
            [by destruct (delta_resolve q r x) as (_ & _ & -> & _)
            | intros q' k; by intros ?%sub_resolve]
      end.
    + match goal with
      | |- awaiters_bounded (Client.push _ ?a ?b ?d _) =>
          destruct (delta_push W a b d c) as (added & _ & (_ & _ & Hn & _));
          apply Hkeep; [done | intros q k; by rewrite awaiters_push]
      end.
  - simplify_eq. by apply Hkeep.
  - simplify_eq. case_match; [|by apply Hkeep].
    apply Hkeep; [|intros q k; by rewrite awaiters_close].
    by destruct (delta_close (VStr (if isLocal (set_isConnectSuccess false c)
                                    then "" else "对方已断开连接"))
                   (set_isConnectSuccess false c)) as (_ & _ & -> & _).
  - destruct (pending c !! n) as [cb|] eqn:Hn; simplify_eq/=.
    set (c1 := set_pending (delete n (pending c)) c).
    destruct cb as [i q| | |camp1 mapData1 loaded|]; cbn [Client.fire].
    + case_match; [|by apply Hkeep].
      apply Hkeep.
      * by destruct (delta_resolve q Client.timed_out
                       (set_messageHandlers (delete i (messageHandlers c1)) c1))
          as (_ & _ & -> & _).
      * intros q' k. by intros ?%sub_resolve.
    + apply Hkeep; [|intros q k; by rewrite awaiters_close].
      by destruct (delta_close (VStr content) c1) as (_ & _ & -> & _).
    + case_match; by apply Hkeep.
    + destruct (delta_negotiate W camp1 mapData1 loaded c1)
        as (added & _ & (_ & _ & Hnp & _)).
      apply Hkeep; [done | intros q k; by rewrite awaiters_negotiate].
    + apply Hkeep; [|intros q k; by rewrite awaiters_close].
      by destruct (delta_close VUndefined c1) as (_ & _ & -> & _).
  - simplify_eq. unfold Client.contact.
    assert (Hreq : forall k',
              awaiters_bounded
                (Client.await (Client.contactToServer type payload i sendFails c).1 k'
                   (Client.contactToServer type payload i sendFails c).2)).
    { intros k' q k Hq.
      destruct (nextPromise_contactToServer type payload i sendFails c) as [Hn Hp].
      destruct (delta_await (Client.contactToServer type payload i sendFails c).1 k'
                  (Client.contactToServer type payload i sendFails c).2)
        as (_ & _ & -> & _).
      rewrite Hn. apply sub_await in Hq as [->|Hq]; [rewrite Hp; lia|].
      apply sub_contactToServer in Hq. apply Hb in Hq. lia. }
    pose proof (Hreq AwaitGetState). pose proof (Hreq AwaitMove).
    destruct (Client.contactToServer type payload i sendFails c).
    by repeat case_match.
  - simplify_eq. case_match; [|by apply Hkeep].
    apply Hkeep; [|intros q k; by rewrite awaiters_close].
    by destruct (delta_close VUndefined c) as (_ & _ & -> & _).
Qed.

Lemma bounded_run evs :
  forall c c', awaiters_bounded c -> Client.run W evs c = Some c' ->
               awaiters_bounded c'.
Proof.
  induction evs as [|ev evs IH]; intros c c' Hb Hrun; simpl in Hrun.
  - by simplify_eq.
  - destruct (Client.step W ev c) as [c1|] eqn:Hstep; simplify_eq/=.
    eapply IH; [|done]. by eapply bounded_step.
Qed.

Lemma reachable_bounded c : reachable W c -> awaiters_bounded c.
Proof.
  intros (inherited & surface & local & evs & Hrun).
  eapply bounded_run; [|done]. intros q k. simpl. by rewrite lookup_empty.
Qed.

End Bounded.

End Awaiting.

(** ** Claim on the state request *)

Lemma awaited_run W messageId p evs :
  messageId <> "" ->
  forall c c',
    in_phase messageId p c Outstanding ->
    awaiters c !! p = Some AwaitGetState ->
    Forall (fun ev => reissues messageId ev = false) evs ->
    Client.run W evs c = Some c' ->
    follow W messageId p evs c Outstanding = Outstanding ->
    in_phase messageId p c' Outstanding /\ awaiters c' !! p = Some AwaitGetState.
Proof.
  intros Hne. induction evs as [|ev evs IH]; intros c c' Hph Hawait Hevs Hrun Hfollow;
    cbn [Client.run follow] in *.
  - by simplify_eq.
  - destruct (Client.step W ev c) as [c1|] eqn:Hstep; [|done].
    cbn [mbind option_bind] in Hrun.
    inversion Hevs as [|? ? Hev Hrest]; subst.
    pose proof (Correlator.phase_step W messageId p c Outstanding ev c1
                  Hne Hph Hev Hstep) as Hph1.
    pose proof (Awaiting.awaited_step W messageId p c ev c1
                  Hne Hph Hawait Hev Hstep) as Hawait1.
    destruct (advance W messageId p c Outstanding ev) as [|r live] eqn:Hadv.
    + try rewrite Hadv in Hfollow.
      eapply IH; [exact Hph1 | exact Hawait1 | exact Hrest | exact Hrun | exact Hfollow].
    + try rewrite Hadv in Hfollow.
      destruct (follow_resolved W messageId p evs c1 r live) as [live' Hres].
      congruence.
Qed.

Lemma contact_get_state W payload messageId sendFails c :
  Client.contact W "get-state" payload messageId sendFails c
  = (Client.Later (Client.contactToServer "get-state" payload messageId sendFails c).1,
     Client.await (Client.contactToServer "get-state" payload messageId sendFails c).1
       AwaitGetState
       (Client.contactToServer "get-state" payload messageId sendFails c).2).
Proof.
  unfold Client.contact. cbn [String.eqb Ascii.eqb Bool.eqb].
  by destruct (Client.contactToServer "get-state" payload messageId sendFails c).
Qed.

(** A [get-state] call whose transmission fails replies the transport
    error at once. *)
Lemma get_state_not_sent W payload messageId sendFails c :
  well_formed c -> awaiters_bounded c ->
  JS.serializable payload = false \/ sendFails = true ->
  let called := Client.contact W "get-state" payload messageId sendFails c in
  chessboard (super called.2) = chessboard (super c)
  /\ effects called.2 = (effects c ++ [Reply (nextPromise c) Client.failed_to_send])%list.
Proof.
  intros Hwf Hb Hfail called. subst called. rewrite contact_get_state. cbn [snd].
  set (p := nextPromise c).
  assert (Hnone : forall c1 : GameClient,
            awaiters c1 = awaiters c -> awaiters c1 !! p = None).
  { intros c1 ->. destruct (awaiters c !! p) as [k|] eqn:Hk; [|done].
    apply Hb in Hk. subst p. lia. }
  assert (Hfresh : filter (fun call : nat * Response => call.1 = p) (resolveCalls c) = []).
  { pose proof (Correlator.no_calls_yet c Hwf) as H. unfold Promise.calls in H.
    by apply fmap_nil_inv in H. }
  assert (Hissued : exists c1 : GameClient,
            Client.contactToServer "get-state" payload messageId sendFails c
            = (p, schedule (RequestTimeout messageId p)
                    (set_resolveCalls (resolveCalls c ++ [(p, Client.failed_to_send)]) c1))
            /\ resolveCalls c1 = resolveCalls c /\ awaiters c1 = awaiters c
            /\ effects c1 = effects c /\ chessboard (super c1) = chessboard (super c)).
  { unfold Client.contactToServer. fold p.
    destruct (JS.serializable payload) eqn:Hser.
    - destruct Hfail as [?| ->]; [done|].
      eexists (set_messageHandlers _ (set_nextPromise (S p) c)).
      split; [|done]. unfold Client.resolve. Correlator.fields.
      by rewrite (Hnone c) by done; destruct (Promise.settled _ _).
    - exists (set_nextPromise (S p) c). split; [|done].
      unfold Client.resolve. Correlator.fields.
      by rewrite (Hnone c) by done; destruct (Promise.settled _ _). }
  destruct Hissued as (c1 & -> & Hcalls & Haw & Heff & Hboard). cbn [fst snd].
  unfold Client.await.
  assert (Promise.settled p
            (schedule (RequestTimeout messageId p)
               (set_resolveCalls (resolveCalls c ++ [(p, Client.failed_to_send)]) c1))
          = Some Client.failed_to_send) as ->.
  { unfold Promise.settled. Correlator.fields.
    by rewrite filter_app, Hfresh, filter_cons, decide_True. }
  destruct (Awaiting.resume_get_state p Client.failed_to_send
              (schedule (RequestTimeout messageId p)
                 (set_resolveCalls (resolveCalls c ++ [(p, Client.failed_to_send)]) c1)))
    as (-> & -> & _).
  Correlator.fields. by rewrite Heff, Hboard.
Qed.

(** A [get-state] call whose transmission succeeds awaits the response. *)
Lemma get_state_sent W payload messageId c :
  well_formed c -> JS.serializable payload = true ->
  let called := Client.contact W "get-state" payload messageId false c in
  called.2 = set_awaiters (<[nextPromise c := AwaitGetState]>
                             (awaiters (Client.contactToServer "get-state" payload
                                          messageId false c).2))
               (Client.contactToServer "get-state" payload messageId false c).2
  /\ chessboard (super called.2) = chessboard (super c)
  /\ effects called.2
     = (effects c ++ [WsSend (VObj [("type", VStr "get-state"); ("data", payload);
                                    ("id", VStr messageId)])])%list.
Proof.
  intros Hwf Hser called. subst called. rewrite contact_get_state. cbn [snd].
  destruct (Awaiting.nextPromise_contactToServer "get-state" payload messageId false c)
    as [_ ->].
  unfold Client.await.
  assert (Promise.settled (nextPromise c)
            (Client.contactToServer "get-state" payload messageId false c).2 = None) as ->.
  { unfold Client.contactToServer. rewrite Hser. cbn [snd].
    apply Awaiting.settled_calls. unfold Promise.calls. Correlator.fields.
    apply (Correlator.no_calls_yet c Hwf). }
  split; [done|].
  unfold Client.contactToServer. rewrite Hser. cbn [snd]. by Correlator.fields.
Qed.

(** C10.  Every [get-state] call hands back the promise of the response
    and leaves the stored board alone while it waits.  When the
    transmission fails the call replies the transport error at once and the
    board stays.  When it succeeds the call awaits the request; as long as
    the request is outstanding the awaiter stays, and the event that
    resolves it, a matching response or the timer, stores the board the
    response carries exactly when its status is success and its data is an
    object with a chessboard member, keeps the stored board otherwise, and
    replies the response unchanged. *)
Theorem get_state_stores_snapshot W payload messageId c :
  reachable W c ->
  let p := nextPromise c in
  let called sendFails := Client.contact W "get-state" payload messageId sendFails c in
  (forall sendFails,
     (called sendFails).1 = Client.Later p
     /\ chessboard (super (called sendFails).2) = chessboard (super c))
  /\ (forall sendFails,
        JS.serializable payload = false \/ sendFails = true ->
        effects (called sendFails).2
        = (effects c ++ [Reply p Client.failed_to_send])%list)
  /\ (JS.serializable payload = true -> unused messageId c -> messageId <> "" ->
      in_phase messageId p (called false).2 Outstanding
      /\ awaiters (called false).2 !! p = Some AwaitGetState
      /\ forall evs c2 ev c3,
           Forall (fun ev => reissues messageId ev = false) (evs ++ [ev]) ->
           Client.run W evs (called false).2 = Some c2 ->
           follow W messageId p evs (called false).2 Outstanding = Outstanding ->
           Client.step W ev c2 = Some c3 ->
           match advance W messageId p c2 Outstanding ev with
           | Outstanding => awaiters c3 !! p = Some AwaitGetState
           | Resolved r _ =>
               chessboard (super c3)
               = default (chessboard (super c2)) (snapshot_of r)
               /\ effects c3 = (effects c2 ++ [Reply p r])%list
           end)
  /\ (forall q res c',
        chessboard (super (Client.resume AwaitGetState q res c'))
        = default (chessboard (super c')) (snapshot_of res)
        /\ effects (Client.resume AwaitGetState q res c')
           = (effects c' ++ [Reply q res])%list).
Proof.
  intros Hreach p called.
  pose proof (Correlator.reachable_well_formed W c Hreach) as Hwf.
  pose proof (Awaiting.reachable_bounded W c Hreach) as Hb.
  split; [|split; [|split]].
  - intros sendFails. subst called. cbn beta. split.
    + rewrite contact_get_state. cbn [fst].
      by destruct (Awaiting.nextPromise_contactToServer "get-state" payload
                     messageId sendFails c) as [_ ->].
    + destruct (JS.serializable payload) eqn:Hser; [destruct sendFails|].
      * by apply get_state_not_sent; [| |right].
      * by apply get_state_sent.
      * by apply get_state_not_sent; [| |left].
  - intros sendFails Hfail. by apply get_state_not_sent.
  - intros Hser Hunused Hne. subst called. cbn beta.
    destruct (get_state_sent W payload messageId c Hwf Hser) as (Hcalled & _ & _).
    pose proof (Correlator.phase_issue "get-state" payload messageId c Hwf Hunused Hser)
      as Hissued.
    assert (Hph : in_phase messageId p
                    (Client.contact W "get-state" payload messageId false c).2
                    Outstanding).
    { rewrite Hcalled. by apply (Correlator.phase_frame _ _ _ _ _ Hissued);
        try done; try apply Hissued. }
    assert (Hawait : awaiters (Client.contact W "get-state" payload messageId false c).2
                     !! p = Some AwaitGetState).
    { rewrite Hcalled. Correlator.fields. apply lookup_insert_eq. }
    split; [done | split; [done|]].
    intros evs c2 ev c3 Hevs Hrun Hfollow Hstep.
    apply Forall_app in Hevs as [Hevs Hev]. inversion Hev; subst.
    destruct (awaited_run W messageId p evs Hne _ c2 Hph Hawait Hevs Hrun Hfollow)
      as [Hph2 Hawait2].
    by apply (Awaiting.awaited_step W messageId p c2 ev c3).
  - intros q res c'.
    by destruct (Awaiting.resume_get_state q res c') as (-> & -> & _).
Qed.

(** A [get-state] call on a fresh client under the token k3x, answered by
    the sample world's envelope. *)
Lemma get_state_stores_snapshot_witness :
  reachable sample_world (sample_client false)
  /\ (Client.contact sample_world "get-state" VUndefined "k3x" false
        (sample_client false)).1 = Client.Later 0.
Proof.
  assert (H : reachable sample_world (sample_client false)).
  { exists (mkGameData VUndefined (VArr []) []), 7, false, []. reflexivity. }
  split; [exact H|].
  exact (proj1 (proj1 (get_state_stores_snapshot sample_world VUndefined "k3x"
                         (sample_client false) H) false)).
Defined.

(** ** The board component *)

Module Component.

Import ChessboardComponent.

Lemma isInAvailableMoves_elem (moves : list Position) (pos : Position) :
  isInAvailableMoves moves pos = true <-> pos ∈ moves.
Proof.
  unfold isInAvailableMoves, isEqualPosition. rewrite existsb_exists. split.
  - intros ([a b] & Hin & Hp). destruct pos as [x y]. simpl in Hp.
    apply andb_prop in Hp as [H1%bool_decide_eq_true H2%bool_decide_eq_true].
    simplify_eq. by apply list_elem_of_In.
  - intros Hin. exists pos. split; [by apply list_elem_of_In|].
    simpl. by rewrite !bool_decide_eq_true_2.
Qed.

Lemma mapM_reverse {A B} (f : A -> option B) (l : list A) :
  mapM f (reverse l) = reverse <$> mapM f l.
Proof.
  destruct (mapM f l) as [k|] eqn:Hk; simpl.
  - apply mapM_Some. apply mapM_Some in Hk. by apply Forall2_reverse.
  - apply mapM_None. apply mapM_None in Hk.
    apply Exists_exists in Hk as (x & Hx & Hfx).
    apply Exists_exists. exists x. split; [by apply elem_of_reverse | done].
Qed.

Lemma mapM_fmap_inner {A B C} (f : A -> option B) (g : B -> C) (l : list A) :
  mapM (fun x => g <$> f x) l = fmap g <$> mapM f l.
Proof.
  induction l as [|x l IH]; [done|].
  cbn [mapM]. rewrite IH.
  destruct (f x) as [y|]; [|done]. simpl.
  by destruct (mapM f l).
Qed.

(** Counting down from [n - 1] is the reversed count. *)
Lemma mapM_countdown {B} (g : Z -> option B) (n : nat) :
  mapM (fun i : nat => g (Z.of_nat n - Z.of_nat i - 1)%Z) (seq 0 n)
  = reverse <$> mapM (fun i : nat => g (Z.of_nat i)) (seq 0 n).
Proof.
  rewrite <- mapM_reverse.
  apply Forall2_mapM_ext.
  apply Forall2_same_length_lookup_2; [by rewrite length_reverse|].
  intros i x y Hx Hy.
  apply lookup_seq in Hx as [-> Hi].
  rewrite reverse_lookup in Hy by (by rewrite length_seq).
  rewrite length_seq in Hy. apply lookup_seq in Hy as [-> _].
  f_equal. lia.
Qed.

Lemma append_cancel_l (s a b : string) : s +:+ a = s +:+ b -> a = b.
Proof.
  induction s as [|ch s IH]; [done|].
  change (String ch (s +:+ a) = String ch (s +:+ b) -> a = b).
  intros [= H]. by apply IH.
Qed.

(** The rows and cells of a drawing. *)
Lemma render_cells (chessboard : Chessboard) (reverse draggable : bool)
    (st : ChessboardComponent.UiState) :
  (ChessboardComponent.render chessboard reverse draggable st = None
   <-> chessboard = [])
  /\ forall rows,
       ChessboardComponent.render chessboard reverse draggable st = Some rows ->
       let height := length chessboard in
       let width := length (default [] (head chessboard)) in
       length rows = height
       /\ forall i row, rows !! i = Some row ->
            length row = width
            /\ forall j cell, row !! j = Some cell ->
                 let pos : Position :=
                   if reverse
                   then (Z.of_nat height - Z.of_nat i - 1,
                         Z.of_nat width - Z.of_nat j - 1)%Z
                   else (Z.of_nat i, Z.of_nat j) in
                 ChessboardComponent.getChessboardCell chessboard draggable st pos
                 = Some cell
                 /\ ChessboardComponent.position cell = pos
                 /\ ChessboardComponent.content cell
                    = chess_name <$> piece_at chessboard pos.
Proof.
  unfold ChessboardComponent.render.
  destruct chessboard as [|row0 rest] eqn:Hboard; [by split|].
  rewrite <- Hboard. assert (Hhead : chessboard !! 0 = Some row0) by (by subst).
  rewrite Hhead. cbn [mbind option_bind].
  assert (Hh : head chessboard = Some row0) by (by subst).
  rewrite Hh. change (default [] (Some row0)) with row0.
  set (height := length chessboard). set (width := length row0).
  set (rvsi := fun i : nat =>
         if reverse then (Z.of_nat height - Z.of_nat i - 1)%Z else Z.of_nat i).
  set (rvsj := fun j : nat =>
         if reverse then (Z.of_nat width - Z.of_nat j - 1)%Z else Z.of_nat j).
  assert (Hcell : forall i j, i < height ->
            is_Some (ChessboardComponent.getChessboardCell chessboard draggable st
                       (rvsi i, rvsj j))).
  { intros i j Hi. unfold ChessboardComponent.getChessboardCell. cbn [fst snd].
    assert (Hrow : is_Some (ChessboardComponent.index chessboard (rvsi i))).
    { unfold ChessboardComponent.index, rvsi.
      destruct reverse.
      - rewrite (proj2 (Z.leb_le _ _)) by lia. apply lookup_lt_is_Some. lia.
      - rewrite (proj2 (Z.leb_le _ _)) by lia. apply lookup_lt_is_Some. lia. }
    destruct Hrow as [row ->]. by eexists. }
  split.
  - split; [|by subst].
    intros Hnone. exfalso. apply mapM_None in Hnone.
    apply Exists_exists in Hnone as (i & Hi & Hnone).
    apply elem_of_seq in Hi. apply mapM_None in Hnone.
    apply Exists_exists in Hnone as (j & Hj & Hnone).
    destruct (Hcell i j ltac:(lia)) as [cell Hsome].
    change (ChessboardComponent.getChessboardCell chessboard draggable st
              (rvsi i, rvsj j) = None) in Hnone.
    congruence.
  - intros rows Hrows. apply mapM_Some in Hrows.
    split.
    { apply Forall2_length in Hrows. by rewrite length_seq in Hrows. }
    intros i row Hrow.
    destruct (Forall2_lookup_r _ _ _ _ _ Hrows Hrow) as (i' & Hi' & Hcells).
    apply lookup_seq in Hi' as [-> Hi]. cbn [plus] in Hcells.
    apply mapM_Some in Hcells.
    split.
    { apply Forall2_length in Hcells. by rewrite length_seq in Hcells. }
    intros j cell Hj.
    destruct (Forall2_lookup_r _ _ _ _ _ Hcells Hj) as (j' & Hj' & Hget).
    apply lookup_seq in Hj' as [-> Hjw]. cbn [plus] in Hget.
    cbv zeta. fold height width. unfold rvsi, rvsj in Hget.
    destruct reverse; (split; [exact Hget|]);
      unfold ChessboardComponent.getChessboardCell, piece_at in *;
      cbn [fst snd] in *;
      match goal with
      | H : context [ChessboardComponent.index chessboard ?r] |- _ =>
          destruct (ChessboardComponent.index chessboard r)
      end; by simplify_eq/=.
Qed.


End Component.

(** X1.  The board component calls [move] only for a highlighted square:
    a click calls it exactly when a square is selected, the clicked square
    is in the list of available moves of the render and the prop is given,
    with the selected square as origin and the clicked one as target; a
    drop does the same with the dragged square as origin; hovering and
    the start of a drag never call it. *)
Theorem move_only_to_highlighted_square
    (getAvailableMoves : Position -> list Position)
    (canMove : option (Position -> bool)) (move : bool)
    (st : ChessboardComponent.UiState) (pos from to : Position) :
  (ChessboardComponent.Move from to
     ∈ ChessboardComponent.chooseCell getAvailableMoves canMove move st pos
   <-> move = true /\ ChessboardComponent.selectedPosition st = Some from
       /\ to = pos /\ pos ∈ ChessboardComponent.availableMoves st)
  /\ (ChessboardComponent.Move from to ∈ ChessboardComponent.onDrop move st pos
      <-> move = true /\ ChessboardComponent.draggingPiece st = Some from
          /\ to = pos /\ pos ∈ ChessboardComponent.availableMoves st)
  /\ (ChessboardComponent.Move from to
        ∉ ChessboardComponent.enterCell getAvailableMoves st pos)
  /\ (ChessboardComponent.Move from to ∉ ChessboardComponent.leaveCell st)
  /\ (ChessboardComponent.Move from to
        ∉ ChessboardComponent.onDragStart getAvailableMoves canMove st pos).
Proof.
  unfold ChessboardComponent.chooseCell, ChessboardComponent.onDrop,
    ChessboardComponent.enterCell, ChessboardComponent.leaveCell,
    ChessboardComponent.onDragStart, ChessboardComponent.call_move.
  destruct st as [sel drag moves]. cbn [ChessboardComponent.selectedPosition
    ChessboardComponent.draggingPiece ChessboardComponent.availableMoves].
  pose proof (Component.isInAvailableMoves_elem moves pos) as Hin.
  assert (Hcases : (isInAvailableMoves moves pos = true /\ pos ∈ moves)
                   \/ (isInAvailableMoves moves pos = false /\ pos ∉ moves)).
  { destruct (isInAvailableMoves moves pos); [left | right]; split; try done.
    - by apply Hin.
    - intros H%Hin. done. }
  clear Hin.
  destruct Hcases as [[-> Hpos]|[-> Hpos]];
    destruct move, sel as [s|], drag as [d|],
      (ChessboardComponent.can_move canMove pos);
    simpl; split_and!; try split;
    rewrite ?elem_of_cons, ?elem_of_nil;
    first [ by intros (? & ? & ? & ?); simplify_eq; auto
          | intros H; decompose [and or] H; by simplify_eq ].
Qed.

(** X2.  What the handlers of the board component leave behind.  With a
    square selected, a click always ends the selection and clears the
    highlighted moves, whether it moved or not, and hovering or starting a
    drag changes nothing.  With none selected, a click selects the clicked
    square and highlights its moves when [canMove] allows and does nothing
    otherwise, entering a cell highlights its moves, leaving it clears
    them, and a drag start records the dragged square with its moves when
    [canMove] allows.  A drop on a highlighted square while a square is
    recorded as dragged clears all three cells; any other drop changes
    nothing, so the dragged square stays recorded. *)
Theorem handlers_outcome
    (getAvailableMoves : Position -> list Position)
    (canMove : option (Position -> bool)) (move : bool)
    (st : ChessboardComponent.UiState) (pos : Position) :
  let selected := ChessboardComponent.selectedPosition st in
  let dragged := ChessboardComponent.draggingPiece st in
  let moves := ChessboardComponent.availableMoves st in
  let allowed := ChessboardComponent.can_move canMove pos in
  ChessboardComponent.commit
    (ChessboardComponent.chooseCell getAvailableMoves canMove move st pos) st
  = match selected with
    | Some _ => ChessboardComponent.mkUiState None dragged []
    | None =>
        if allowed
        then ChessboardComponent.mkUiState (Some pos) dragged (getAvailableMoves pos)
        else st
    end
  /\ ChessboardComponent.commit (ChessboardComponent.onDrop move st pos) st
     = match dragged with
       | Some _ =>
           if bool_decide (pos ∈ moves)
           then ChessboardComponent.mkUiState None None []
           else st
       | None => st
       end
  /\ ChessboardComponent.commit
       (ChessboardComponent.enterCell getAvailableMoves st pos) st
     = match selected with
       | Some _ => st
       | None => ChessboardComponent.mkUiState None dragged (getAvailableMoves pos)
       end
  /\ ChessboardComponent.commit (ChessboardComponent.leaveCell st) st
     = match selected with
       | Some _ => st
       | None => ChessboardComponent.mkUiState None dragged []
       end
  /\ ChessboardComponent.commit
       (ChessboardComponent.onDragStart getAvailableMoves canMove st pos) st
     = match selected with
       | Some _ => st
       | None =>
           if allowed
           then ChessboardComponent.mkUiState None (Some pos) (getAvailableMoves pos)
           else st
       end.
Proof.
  unfold ChessboardComponent.chooseCell, ChessboardComponent.onDrop,
    ChessboardComponent.enterCell, ChessboardComponent.leaveCell,
    ChessboardComponent.onDragStart, ChessboardComponent.call_move.
  destruct st as [sel drag moves]. cbn [ChessboardComponent.selectedPosition
    ChessboardComponent.draggingPiece ChessboardComponent.availableMoves].
  pose proof (Component.isInAvailableMoves_elem moves pos) as Hin.
  split_and!.
  - destruct sel; [by repeat case_match|]. by case_match.
  - destruct drag; [|done].
    destruct (isInAvailableMoves moves pos).
    + rewrite bool_decide_eq_true_2 by (by apply Hin). by destruct move.
    + rewrite bool_decide_eq_false_2; [done|]. intros H%Hin. done.
  - by destruct sel.
  - by destruct sel.
  - destruct sel; [done|].
    by destruct (ChessboardComponent.can_move canMove pos).
Qed.

(** X3.  What the board component draws.  A board without rows cannot be
    drawn: reading the width of its first row raises.  Every other board
    is drawn as one row of cells per board row, each as wide as the first
    board row; the cell in row [i], column [j] of the screen stands for the
    square [(i, j)], or, when [reverse] is set, for the square
    [(height - 1 - i, width - 1 - j)]; it shows the name of the piece the
    board holds there and nothing when the square is empty or the board row
    is shorter than the first. *)
Theorem render_grid (chessboard : Chessboard) (reverse draggable : bool)
    (st : ChessboardComponent.UiState) :
  (ChessboardComponent.render chessboard reverse draggable st = None
   <-> chessboard = [])
  /\ forall rows,
       ChessboardComponent.render chessboard reverse draggable st = Some rows ->
       let height := length chessboard in
       let width := length (default [] (head chessboard)) in
       length rows = height
       /\ forall i row, rows !! i = Some row ->
            length row = width
            /\ forall j cell, row !! j = Some cell ->
                 let pos : Position :=
                   if reverse
                   then (Z.of_nat height - Z.of_nat i - 1,
                         Z.of_nat width - Z.of_nat j - 1)%Z
                   else (Z.of_nat i, Z.of_nat j) in
                 ChessboardComponent.getChessboardCell chessboard draggable st pos
                 = Some cell
                 /\ ChessboardComponent.position cell = pos
                 /\ ChessboardComponent.content cell
                    = chess_name <$> piece_at chessboard pos.
Proof. apply Component.render_cells. Qed.

(** X4.  Drawing with [reverse] set is drawing without it turned by half a
    turn: the rows in reverse order, each with its cells in reverse order.
    In particular both draw the same cells, and both raise on the same
    boards. *)
Theorem render_reverse_is_half_turn (chessboard : Chessboard) (draggable : bool)
    (st : ChessboardComponent.UiState) :
  ChessboardComponent.render chessboard true draggable st
  = (fun rows => reverse (reverse <$> rows))
      <$> ChessboardComponent.render chessboard false draggable st.
Proof.
  unfold ChessboardComponent.render.
  destruct (chessboard !! 0) as [row0|]; [|done]. cbn [mbind option_bind].
  set (height := length chessboard). set (width := length row0).
  set (cell := ChessboardComponent.getChessboardCell chessboard draggable st).
  rewrite (Component.mapM_countdown
             (fun r => mapM (fun j : nat =>
                               cell (r, (Z.of_nat width - Z.of_nat j - 1)%Z))
                         (seq 0 width)) height).
  rewrite (mapM_ext
             (fun i : nat =>
                mapM (fun j : nat =>
                        cell (Z.of_nat i, (Z.of_nat width - Z.of_nat j - 1)%Z))
                  (seq 0 width))
             (fun i : nat =>
                reverse <$> mapM (fun j : nat => cell (Z.of_nat i, Z.of_nat j))
                              (seq 0 width))).
  2:{ intros i.
      apply (Component.mapM_countdown (fun c => cell (Z.of_nat i, c)) width). }
  rewrite Component.mapM_fmap_inner.
  by destruct (mapM _ (seq 0 height)).
Qed.

(** X5.  The cells of a drawn row have distinct keys.  The key of a cell
    is made of the row and the column of its square, and the cells of one
    row of the screen stand for squares of one board row in distinct
    columns, so no two of them share a key, reversed or not. *)
Theorem cell_keys_are_unique_in_a_row (chessboard : Chessboard)
    (reverse draggable : bool) (st : ChessboardComponent.UiState) rows :
  ChessboardComponent.render chessboard reverse draggable st = Some rows ->
  Forall (fun row => NoDup (ChessboardComponent.key <$> row)) rows.
Proof.
  intros Hrows.
  destruct (Component.render_cells chessboard reverse draggable st) as [_ Hgrid].
  destruct (Hgrid rows Hrows) as [_ Hrow]. clear Hgrid.
  apply Forall_lookup. intros i row Hi.
  destruct (Hrow i row Hi) as [Hlen Hcell].
  apply NoDup_alt. intros j1 j2 k H1 H2.
  rewrite list_lookup_fmap in H1, H2.
  destruct (row !! j1) as [cell1|] eqn:E1; [|done].
  destruct (row !! j2) as [cell2|] eqn:E2; [|done].
  assert (Hkey : ChessboardComponent.key cell1 = ChessboardComponent.key cell2)
    by (simpl in H1, H2; congruence).
  clear H1 H2.
  destruct (Hcell j1 cell1 E1) as (G1 & _).
  destruct (Hcell j2 cell2 E2) as (G2 & _).
  assert (j1 < length row) by (by eapply lookup_lt_Some).
  assert (j2 < length row) by (by eapply lookup_lt_Some).
  unfold ChessboardComponent.getChessboardCell in G1, G2.
  destruct reverse; cbn [fst snd] in *;
    match type of G1 with
    | context [ChessboardComponent.index chessboard ?r] =>
        destruct (ChessboardComponent.index chessboard r); [|done]
    end;
    cbn [mbind option_bind] in G1, G2;
    injection G1 as <-; injection G2 as <-;
    cbn [ChessboardComponent.key] in Hkey;
    apply (Component.append_cancel_l "cell-") in Hkey;
    apply Component.append_cancel_l in Hkey;
    apply (Component.append_cancel_l "-") in Hkey;
    apply (inj pretty) in Hkey; lia.
Qed.

Lemma cell_keys_are_unique_in_a_row_witness :
  exists rows : list (list ChessboardComponent.Cell),
    ChessboardComponent.render lone_royal_board true false
      ChessboardComponent.initial = Some rows
    /\ (fun row : list ChessboardComponent.Cell => ChessboardComponent.key <$> row)
         <$> rows
       = [["cell-0-1"; "cell-0-0"]]
    /\ Forall (fun row => NoDup (ChessboardComponent.key <$> row)) rows.
Proof.
  eexists. split; [vm_compute; reflexivity|]. split; [vm_compute; reflexivity|].
  apply (cell_keys_are_unique_in_a_row lone_royal_board true false
           ChessboardComponent.initial).
  vm_compute. reflexivity.
Defined.

(** ** The session over its whole life *)

Module Session.

Import Correlator.

Lemma elem_of_delete_other {A} (l : list A) (n : nat) (x y : A) :
  x ∈ l -> l !! n = Some y -> x <> y -> x ∈ delete n l.
Proof.
  intros [m Hm]%list_elem_of_lookup Hn Hxy.
  apply list_elem_of_lookup.
  destruct (decide (m < n)) as [Hlt|Hge].
  - exists m. by rewrite list_lookup_delete_lt by done.
  - assert (m <> n) by (intros ->; congruence).
    exists (pred m). rewrite list_lookup_delete_ge by lia.
    by replace (S (pred m)) with m by lia.
Qed.

Lemma timed_delta c c' calls added : timed c -> delta c c' calls added -> timed c'.
Proof.
  intros Ht (E1 & _ & _ & E4) i p. rewrite E1, E4. intros Hi.
  apply elem_of_app. left. by apply Ht.
Qed.

(** Running the [n]-th pending callback out of the list keeps the
    invariant for the handlers that are not the callback's own. *)
Lemma timed_without n cb c handlers :
  timed c -> pending c !! n = Some cb ->
  (forall j p, handlers !! j = Some p ->
               messageHandlers c !! j = Some p /\ cb <> RequestTimeout j p) ->
  timed (set_messageHandlers handlers (set_pending (delete n (pending c)) c)).
Proof.
  intros Ht Hn Hsub j p. fields. intros Hj.
  destruct (Hsub j p Hj) as [Hc Hne].
  eapply elem_of_delete_other; [by apply Ht | done | done].
Qed.

Lemma timed_contactToServer type payload i sendFails c :
  timed c -> timed (Client.contactToServer type payload i sendFails c).2.
Proof.
  intros Ht. unfold Client.contactToServer. cbn [snd].
  set (p := nextPromise c).
  assert (Hreg : forall c1 handlers,
            messageHandlers c1 = handlers -> pending c1 = pending c ->
            (forall j q, handlers !! j = Some q ->
                         (j = i /\ q = p) \/ messageHandlers c !! j = Some q) ->
            timed (schedule (RequestTimeout i p) c1)).
  { intros c1 handlers E1 E2 Hsub j q. fields. rewrite E1, E2. intros Hj.
    apply elem_of_app.
    destruct (Hsub j q Hj) as [[-> ->]|Hold];
      [right; by apply list_elem_of_singleton | left; by apply Ht]. }
  repeat case_match.
  - match goal with
    | |- timed (schedule _ (Client.resolve ?q ?r ?x)) =>
        destruct (delta_resolve q r x) as (E1 & _ & _ & E4)
    end.
    eapply Hreg; [exact E1 | by rewrite E4, app_nil_r |].
    fields. intros j q [[<- <-]|[_ Hj]]%lookup_insert_Some; by eauto.
  - eapply Hreg; [done | done |]. fields.
    intros j q [[<- <-]|[_ Hj]]%lookup_insert_Some; by eauto.
  - match goal with
    | |- timed (schedule _ (Client.resolve ?q ?r ?x)) =>
        destruct (delta_resolve q r x) as (E1 & _ & _ & E4)
    end.
    eapply Hreg; [exact E1 | by rewrite E4, app_nil_r |].
    fields. by eauto.
Qed.

Section WithWorld.

Variable W : World.

Lemma timed_step ev c c' : timed c -> Client.step W ev c = Some c' -> timed c'.
Proof.
  intros Ht Hstep.
  destruct ev as [rawData| |code|n|type payload i sendFails|confirmed];
    cbn [Client.step] in Hstep.
  - simplify_eq. unfold Client.onMessage.
    repeat case_match; simplify_eq;
      try (eapply timed_delta; [done | apply delta_emit]).
    + unfold Client.handler.
      eapply timed_delta; [|apply delta_resolve].
      intros j q. fields. intros [_ Hj]%lookup_delete_Some. by apply Ht.
    + match goal with
      | |- timed (Client.push _ ?a ?b ?d _) =>
          destruct (delta_push W a b d c) as (added & _ & Hd)
      end.
      by eapply timed_delta.
  - simplify_eq. eapply timed_delta; [done | apply delta_schedule].
  - simplify_eq. assert (Ht' : timed (set_isConnectSuccess false c)) by done.
    case_match; [|done]. eapply timed_delta; [exact Ht' | apply delta_close].
  - destruct (pending c !! n) as [cb|] eqn:Hn; simplify_eq/=.
    assert (Hkeep : timed (set_pending (delete n (pending c)) c)
                    \/ exists i q, cb = RequestTimeout i q
                                   /\ is_Some (messageHandlers c !! i)).
    { destruct cb as [i q| | |camp1 mapData1 loaded|];
        try (left; intros j p; fields; intros Hj;
             eapply elem_of_delete_other; [by apply Ht | done | done]).
      destruct (messageHandlers c !! i) as [q'|] eqn:Hi; [right; by eauto|].
      left. intros j p. fields. intros Hj.
      eapply elem_of_delete_other; [by apply Ht | done |].
      intros [= -> ->]. congruence. }
    destruct cb as [i q| | |camp1 mapData1 loaded|]; cbn [Client.fire].
    + fields. case_bool_decide as Hi.
      * eapply timed_delta; [|apply delta_resolve].
        apply (timed_without n (RequestTimeout i q) c); [done | done |].
        intros j p [Hji Hj]%lookup_delete_Some. split; [done|].
        intros [= -> ->]. done.
      * destruct Hkeep as [Hk|(? & ? & [= <- <-] & ?)]; done.
    + destruct Hkeep as [Hk|(? & ? & ? & ?)]; [|done].
      eapply timed_delta; [exact Hk | apply delta_close].
    + destruct Hkeep as [Hk|(? & ? & ? & ?)]; [|done].
      case_match; [done|]. eapply timed_delta; [exact Hk | apply delta_emit].
    + destruct Hkeep as [Hk|(? & ? & ? & ?)]; [|done].
      destruct (delta_negotiate W camp1 mapData1 loaded
                  (set_pending (delete n (pending c)) c)) as (added & _ & Hd).
      by eapply timed_delta.
    + destruct Hkeep as [Hk|(? & ? & ? & ?)]; [|done].
      eapply timed_delta; [exact Hk | apply delta_close].
  - simplify_eq. unfold Client.contact.
    pose proof (timed_contactToServer type payload i sendFails c Ht) as Hreq.
    destruct (Client.contactToServer type payload i sendFails c) as [p c1].
    cbn [snd] in Hreq.
    repeat case_match; simplify_eq; cbn [snd]; try done;
      (eapply timed_delta; [exact Hreq | apply delta_await]).
  - simplify_eq. case_match; [|done].
    eapply timed_delta; [done | apply delta_close].
Qed.

Lemma timed_run evs :
  forall c c', timed c -> Client.run W evs c = Some c' -> timed c'.
Proof.
  induction evs as [|ev evs IH]; intros c c' Ht Hrun; simpl in Hrun.
  - by simplify_eq.
  - destruct (Client.step W ev c) as [c1|] eqn:Hstep; simplify_eq/=.
    eapply IH; [|done]. by eapply timed_step.
Qed.

End WithWorld.

End Session.

(** X6.  No handler outlives its timer.  In every state the client
    reaches, each entry of the pending-request map still has the timer of
    its own request pending; so once no request timer is pending the map is
    empty, whatever was sent, failed to send or answered before. *)
Theorem handlers_have_timers W c :
  reachable W c ->
  (forall i p, messageHandlers c !! i = Some p -> RequestTimeout i p ∈ pending c)
  /\ (quiet (pending c) -> messageHandlers c = ∅).
Proof.
  intros (inherited & surface & local & evs & Hrun).
  assert (Ht : timed c).
  { eapply Session.timed_run; [|exact Hrun].
    intros i p. simpl. by rewrite lookup_empty. }
  split; [exact Ht|].
  intros Hq. apply map_empty. intros i.
  destruct (messageHandlers c !! i) as [p|] eqn:Hi; [|done].
  apply Ht in Hi. unfold quiet in Hq. rewrite Forall_forall in Hq.
  by apply Hq in Hi.
Qed.

(** A request whose send failed: its handler is still registered, and so is
    its timer. *)
Lemma handlers_have_timers_witness :
  messageHandlers
    (Client.contact sample_world "get-state" VUndefined "k3x" true
       (sample_client false)).2 !! "k3x" = Some 0
  /\ RequestTimeout "k3x" 0
       ∈ pending (Client.contact sample_world "get-state" VUndefined "k3x" true
                    (sample_client false)).2.
Proof.
  assert (Hreach : reachable sample_world
            (Client.contact sample_world "get-state" VUndefined "k3x" true
               (sample_client false)).2).
  { exists (mkGameData VUndefined (VArr []) []), 7, false,
      [Client.Contact "get-state" VUndefined "k3x" true].
    vm_compute. reflexivity. }
  assert (Hh : messageHandlers
            (Client.contact sample_world "get-state" VUndefined "k3x" true
               (sample_client false)).2 !! "k3x" = Some 0)
    by (vm_compute; reflexivity).
  split; [exact Hh|].
  exact (proj1 (handlers_have_timers sample_world _ Hreach) "k3x" 0 Hh).
Defined.

Module Replies.

Import Correlator.

Ltac stilled := solve [unfold still, replies; fields; rewrite ?omap_app, ?app_nil_r; auto].

Lemma still_refl c : still c c.
Proof. stilled. Qed.

Lemma still_trans c c' c'' : still c c' -> still c' c'' -> still c c''.
Proof.
  intros (H1 & H2 & H3 & H4) (G1 & G2 & G3 & G4). unfold still.
  by rewrite G1, G2, G3, G4.
Qed.

Lemma still_close content c : still c (Client.close content c).
Proof. unfold Client.close. repeat case_match; stilled. Qed.

Lemma still_negotiate W camp0 mapData0 loaded c :
  still c (Client.negotiate W camp0 mapData0 loaded c).
Proof. unfold Client.negotiate. repeat case_match; stilled. Qed.

Lemma still_push W type payload parsed c :
  still c (Client.push W type payload parsed c).
Proof.
  unfold Client.push. repeat case_match; first [apply still_close | stilled].
Qed.

Lemma answered_still c c' : answered c -> still c c' -> answered c'.
Proof.
  intros [Hnd Hr] (E1 & E2 & E3 & E4). unfold answered, Promise.settled.
  rewrite E1, E2, E3, E4. done.
Qed.

Lemma settled_keep p r c c' calls :
  resolveCalls c' = (resolveCalls c ++ calls)%list ->
  Promise.settled p c = Some r -> Promise.settled p c' = Some r.
Proof.
  unfold Promise.settled. intros ->. rewrite filter_app.
  by destruct (filter (fun call => call.1 = p) (resolveCalls c)).
Qed.

Lemma settled_first p r c c' :
  resolveCalls c' = (resolveCalls c ++ [(p, r)])%list ->
  Promise.settled p c = None -> Promise.settled p c' = Some r.
Proof.
  unfold Promise.settled. intros ->. rewrite filter_app.
  destruct (filter (fun call => call.1 = p) (resolveCalls c)); [|done].
  intros _. rewrite filter_cons. by rewrite decide_True.
Qed.

(** Waking a call that has not been answered yet. *)
Lemma answered_resume k p res c :
  answered c -> p ∉ (replies c).*1 -> p < nextPromise c ->
  Promise.settled p c = Some res ->
  answered (Client.resume k p res c).
Proof.
  intros [Hnd Hr] Hfresh Hlt Hset.
  assert (Hshape : replies (Client.resume k p res c) = (replies c ++ [(p, res)])%list
                   /\ awaiters (Client.resume k p res c) = delete p (awaiters c)
                   /\ nextPromise (Client.resume k p res c) = nextPromise c
                   /\ resolveCalls (Client.resume k p res c) = resolveCalls c).
  { unfold Client.resume, replies.
    repeat case_match; fields; by rewrite omap_app. }
  destruct Hshape as (E1 & E2 & E3 & E4).
  unfold answered, Promise.settled. rewrite E1, E2, E3, E4. split.
  - rewrite fmap_app. apply NoDup_app. split; [done|]. split.
    + intros q Hq [->|[]%elem_of_nil]%elem_of_cons. done.
    + apply NoDup_singleton.
  - intros q r [Hq|[= -> ->]%list_elem_of_singleton]%elem_of_app.
    + destruct (Hr q r Hq) as (Ha & Hn & Hs).
      split; [|done]. apply lookup_delete_None. by right.
    + split; [apply lookup_delete_None; by left | done].
Qed.

Lemma replied_not_awaited c p k :
  answered c -> awaiters c !! p = Some k -> p ∉ (replies c).*1.
Proof.
  intros [_ Hr] Hp [[q r] [-> Hin]]%list_elem_of_fmap.
  destruct (Hr _ _ Hin) as (Hnone & _). simpl in *. congruence.
Qed.

(** More calls of [resolve] and more promises do not disturb the
    answers given. *)
Lemma answered_calls c c' calls :
  answered c ->
  replies c' = replies c -> awaiters c' = awaiters c ->
  nextPromise c <= nextPromise c' ->
  resolveCalls c' = (resolveCalls c ++ calls)%list ->
  answered c'.
Proof.
  intros [Hnd Hr] E1 E2 E3 E4. unfold answered. rewrite E1, E2.
  split; [done|]. intros p r Hin. destruct (Hr p r Hin) as (H1 & H2 & H3).
  split; [done|]. split; [lia|]. by eapply settled_keep.
Qed.

Lemma answered_resolve q r c :
  answered c -> awaiters_bounded c -> answered (Client.resolve q r c).
Proof.
  intros Ha Hb. unfold Client.resolve.
  set (c1 := set_resolveCalls (resolveCalls c ++ [(q, r)]) c).
  assert (Ha1 : answered c1) by (by eapply (answered_calls c c1 [(q, r)])).
  destruct (Promise.settled q c) eqn:Hs; [done|].
  destruct (awaiters c !! q) as [k|] eqn:Hq; [|done].
  apply answered_resume; [done | | |].
  - by apply (replied_not_awaited c q k).
  - apply Hb in Hq. done.
  - by apply (settled_first q r c c1).
Qed.

Lemma resolve_unawaited q r c :
  awaiters c !! q = None ->
  Client.resolve q r c = set_resolveCalls (resolveCalls c ++ [(q, r)]) c.
Proof. intros Hq. unfold Client.resolve. rewrite Hq. by case_match. Qed.

Lemma answered_await p k c :
  answered c -> p ∉ (replies c).*1 -> p < nextPromise c ->
  answered (Client.await p k c).
Proof.
  intros Ha Hfresh Hlt. unfold Client.await.
  destruct (Promise.settled p c) as [res|] eqn:Hs; [by apply answered_resume|].
  destruct Ha as [Hnd Hr]. split; [done|].
  intros q r Hin. destruct (Hr q r Hin) as (H1 & H2 & H3).
  split; [|done]. fields. rewrite lookup_insert_ne; [done|].
  intros ->. apply Hfresh. apply list_elem_of_fmap. by exists (q, r).
Qed.

(** What [contactToServer] does to the answers: nothing, as the promise it
    creates is awaited by no call yet. *)
Lemma request_shape type payload i sendFails c :
  awaiters c !! nextPromise c = None ->
  let issued := Client.contactToServer type payload i sendFails c in
  issued.1 = nextPromise c
  /\ replies issued.2 = replies c /\ awaiters issued.2 = awaiters c
  /\ nextPromise issued.2 = S (nextPromise c)
  /\ exists calls, resolveCalls issued.2 = (resolveCalls c ++ calls)%list.
Proof.
  intros Hnot. unfold Client.contactToServer. cbn [fst snd]. split; [done|].
  repeat case_match; rewrite ?resolve_unawaited by (fields; done);
    unfold replies; fields; rewrite ?omap_app, ?app_nil_r;
    split_and!; try done; by eauto using app_nil_r.
Qed.

(** A request and the call that awaits it. *)
Lemma answered_request type payload i sendFails k c :
  answered c -> awaiters_bounded c ->
  answered (Client.await (Client.contactToServer type payload i sendFails c).1 k
              (Client.contactToServer type payload i sendFails c).2).
Proof.
  intros Ha Hb.
  assert (Hnot : awaiters c !! nextPromise c = None).
  { destruct (awaiters c !! nextPromise c) as [k'|] eqn:Hp; [|done].
    apply Hb in Hp. lia. }
  destruct (request_shape type payload i sendFails c Hnot)
    as (-> & E1 & E2 & E3 & calls & E4).
  apply answered_await.
  - eapply (answered_calls c); [done | done | done | lia | done].
  - rewrite E1. intros [[q r] [Heq Hin]]%list_elem_of_fmap.
    destruct Ha as [_ Hr]. destruct (Hr _ _ Hin) as (_ & Hlt & _).
    simpl in Heq. lia.
  - lia.
Qed.

Lemma bounded_resolve q r c :
  awaiters_bounded c -> awaiters_bounded (Client.resolve q r c).
Proof.
  intros Hb p k Hp%Awaiting.sub_resolve.
  destruct (delta_resolve q r c) as (_ & _ & -> & _). by eapply Hb.
Qed.

Section WithWorld.

Variable W : World.

Lemma answered_step ev c c' :
  answered c -> awaiters_bounded c -> Client.step W ev c = Some c' -> answered c'.
Proof.
  intros Ha Hb Hstep.
  destruct ev as [rawData| |code|n|type payload i sendFails|confirmed];
    cbn [Client.step] in Hstep.
  - simplify_eq. unfold Client.onMessage.
    repeat case_match; simplify_eq;
      try (eapply answered_still; [done | stilled]).
    + unfold Client.handler. by apply answered_resolve.
    + eapply answered_still; [done | apply still_push].
  - simplify_eq. eapply answered_still; [done | stilled].
  - simplify_eq. case_match; [|eapply answered_still; [done | stilled]].
    eapply answered_still; [done|].
    eapply still_trans; [|apply still_close]. stilled.
  - destruct (pending c !! n) as [cb|] eqn:Hn; simplify_eq/=.
    set (c1 := set_pending (delete n (pending c)) c).
    assert (Ha1 : answered c1) by (eapply answered_still; [done | stilled]).
    destruct cb as [i q| | |camp1 mapData1 loaded|]; cbn [Client.fire].
    + case_match; [|done]. by apply answered_resolve.
    + eapply answered_still; [exact Ha1 | apply still_close].
    + case_match; [done|]. eapply answered_still; [exact Ha1 | stilled].
    + eapply answered_still; [exact Ha1 | apply still_negotiate].
    + eapply answered_still; [exact Ha1 | apply still_close].
  - simplify_eq. unfold Client.contact.
    pose proof (answered_request type payload i sendFails AwaitGetState c Ha Hb).
    pose proof (answered_request type payload i sendFails AwaitMove c Ha Hb).
    destruct (Client.contactToServer type payload i sendFails c) as [p c1].
    by repeat case_match.
  - simplify_eq. case_match; [|done].
    eapply answered_still; [done | apply still_close].
Qed.

Lemma answered_run evs :
  forall c c', answered c -> awaiters_bounded c ->
               Client.run W evs c = Some c' -> answered c'.
Proof.
  induction evs as [|ev evs IH]; intros c c' Ha Hb Hrun; simpl in Hrun.
  - by simplify_eq.
  - destruct (Client.step W ev c) as [c1|] eqn:Hstep; simplify_eq/=.
    eapply IH; [| |done].
    + by eapply answered_step.
    + by eapply Awaiting.bounded_step.
Qed.

End WithWorld.

End Replies.

(** X7.  A suspended [contact] call is answered at most once.  In every
    state the client reaches no promise has been answered twice, and every
    answer given is the response the promise of the call is settled with,
    that is the argument of the first call of its [resolve], handed to a
    call that is no longer suspended; a second call of [resolve] for the
    same promise never reaches the window. *)
Theorem contact_answered_at_most_once W c :
  reachable W c ->
  NoDup (replies c).*1
  /\ forall p r, (p, r) ∈ replies c ->
       Promise.settled p c = Some r /\ awaiters c !! p = None.
Proof.
  intros (inherited & surface & local & evs & Hrun).
  assert (Ha : answered c).
  { eapply Replies.answered_run; [| |exact Hrun].
    - split; [constructor|]. intros p r []%elem_of_nil.
    - intros q k. simpl. by rewrite lookup_empty. }
  destruct Ha as [Hnd Hr]. split; [done|].
  intros p r Hin. by destruct (Hr p r Hin) as (? & ? & ?).
Qed.

(** A request whose send failed and whose timer then fired: [resolve] was
    called twice, the call was answered once, with the first response. *)
Lemma contact_answered_at_most_once_witness :
  exists c,
    Client.run sample_world
      [Client.Contact "get-state" VUndefined "k3x" true; Client.Fire 1]
      (sample_client false) = Some c
    /\ Promise.calls 0 c = [Client.failed_to_send; Client.timed_out]
    /\ replies c = [(0, Client.failed_to_send)]
    /\ NoDup (replies c).*1.
Proof.
  eexists. split; [vm_compute; reflexivity|].
  split; [vm_compute; reflexivity|]. split; [vm_compute; reflexivity|].
  refine (proj1 (contact_answered_at_most_once sample_world _ _)).
  exists (mkGameData VUndefined (VArr []) []), 7, false,
    [Client.Contact "get-state" VUndefined "k3x" true; Client.Fire 1].
  vm_compute. reflexivity.
Defined.

Module Growth.

Import Correlator.

Lemma grows_refl c : grows c c.
Proof.
  unfold grows. split_and!; try done. exists []. by rewrite app_nil_r.
Qed.

Lemma grows_trans c c' c'' : grows c c' -> grows c' c'' -> grows c c''.
Proof.
  intros (H1 & H2 & H3 & H4 & a1 & H5 & H6) (G1 & G2 & G3 & G4 & a2 & G5 & G6).
  unfold grows. rewrite G1, G2, G3, G5, H1, H2, H3, H5.
  split_and!; try done; [by auto|].
  exists (a1 ++ a2)%list. rewrite app_assoc. split; [done | by apply Forall_app].
Qed.

(** Operations made of field updates and of effects that keep to
    [outbound]. *)
Ltac grown :=
  solve [ unfold grows; fields; split_and!; try done;
          rewrite <- ?app_assoc;
          eexists; split;
          [ first [reflexivity | symmetry; apply app_nil_r]
          | repeat constructor; done ] ].

Lemma grows_close content c : grows c (Client.close content c).
Proof. unfold Client.close. repeat case_match; grown. Qed.

Lemma grows_resume k p res c : grows c (Client.resume k p res c).
Proof. unfold Client.resume. repeat case_match; grown. Qed.

Lemma grows_resolve q r c : grows c (Client.resolve q r c).
Proof.
  unfold Client.resolve. repeat case_match; try grown.
  eapply grows_trans; [|apply grows_resume]. grown.
Qed.

Lemma grows_await p k c : grows c (Client.await p k c).
Proof. unfold Client.await. case_match; [apply grows_resume | grown]. Qed.

Lemma grows_contactToServer type payload i sendFails c :
  type = "get-state" \/ type = "move" ->
  grows c (Client.contactToServer type payload i sendFails c).2.
Proof.
  intros Htype. unfold Client.contactToServer. cbn [snd].
  assert (Hfail : forall c1, grows c c1 ->
            grows c (schedule (RequestTimeout i (nextPromise c))
                       (Client.resolve (nextPromise c) Client.failed_to_send c1))).
  { intros c1 H1. eapply grows_trans; [|grown].
    eapply grows_trans; [exact H1 | apply grows_resolve]. }
  repeat case_match; try (apply Hfail; grown).
  unfold grows; fields; split_and!; try done.
  eexists (_ :: []). split; [done|]. constructor; [|done].
  simpl. destruct Htype as [-> | ->]; simpl; done.
Qed.

Section WithWorld.

Variable W : World.

Lemma grows_negotiate camp0 mapData0 loaded c :
  grows c (Client.negotiate W camp0 mapData0 loaded c).
Proof. unfold Client.negotiate. repeat case_match; grown. Qed.

Lemma grows_push type payload parsed c :
  grows c (Client.push W type payload parsed c).
Proof.
  unfold Client.push. repeat case_match; try grown.
  apply grows_close.
Qed.

Lemma grows_step ev c c' : Client.step W ev c = Some c' -> grows c c'.
Proof.
  intros Hstep.
  destruct ev as [rawData| |code|n|type payload i sendFails|confirmed];
    cbn [Client.step] in Hstep.
  - simplify_eq. unfold Client.onMessage.
    repeat case_match; simplify_eq; try grown.
    + unfold Client.handler. eapply grows_trans; [|apply grows_resolve]. grown.
    + apply grows_push.
  - simplify_eq. grown.
  - simplify_eq. case_match; [|grown].
    eapply grows_trans; [|apply grows_close]. grown.
  - destruct (pending c !! n) as [cb|] eqn:Hn; simplify_eq/=.
    eapply (grows_trans _ (set_pending (delete n (pending c)) c)); [grown|].
    destruct cb as [i q| | |camp1 mapData1 loaded|]; cbn [Client.fire].
    + case_match; [|apply grows_refl].
      eapply grows_trans; [|apply grows_resolve]. grown.
    + apply grows_close.
    + case_match; grown.
    + apply grows_negotiate.
    + apply grows_close.
  - simplify_eq. unfold Client.contact.
    destruct (String.eqb type "get-info") eqn:H1;
      [repeat case_match; apply grows_refl|].
    destruct (String.eqb type "get-state") eqn:H2.
    { apply String.eqb_eq in H2.
      pose proof (grows_contactToServer type payload i sendFails c (or_introl H2)).
      destruct (Client.contactToServer type payload i sendFails c) as [p c1].
      cbn [snd] in *. eapply grows_trans; [done | apply grows_await]. }
    destruct (String.eqb type "get-available-moves"); [apply grows_refl|].
    destruct (String.eqb type "get-is-checked");
      [case_match; apply grows_refl|].
    destruct (String.eqb type "move") eqn:H3; [|apply grows_refl].
    apply String.eqb_eq in H3.
    pose proof (grows_contactToServer type payload i sendFails c (or_intror H3)).
    destruct (Client.contactToServer type payload i sendFails c) as [p c1].
    cbn [snd] in *. eapply grows_trans; [done | apply grows_await].
  - simplify_eq. case_match; [apply grows_close | apply grows_refl].
Qed.

Lemma grows_run evs :
  forall c c', Client.run W evs c = Some c' -> grows c c'.
Proof.
  induction evs as [|ev evs IH]; intros c c' Hrun; simpl in Hrun.
  - simplify_eq. apply grows_refl.
  - destruct (Client.step W ev c) as [c1|] eqn:Hstep; simplify_eq/=.
    eapply grows_trans; [by eapply grows_step | by apply IH].
Qed.

End WithWorld.

End Growth.

(** X8.  What the client puts on the socket.  In every state the client
    reaches, every message it has sent is the acknowledgement
    [{ type: 'prepared' }] of a handshake or a request
    [{ type, data, id }] of type [get-state] or [move] with data that
    serializes, and every close of the socket it has asked for is
    [ws.close()] or [ws.close(4000)]: no other request type of [contact]
    and no inbound message makes the client write to the socket. *)
Theorem client_writes_requests_and_acknowledgements W c :
  reachable W c -> Forall (fun e => outbound e = true) (effects c).
Proof.
  intros (inherited & surface & local & evs & Hrun).
  destruct (Growth.grows_run W evs _ _ Hrun) as (_ & _ & _ & _ & added & -> & Hadd).
  apply Forall_app. split; [|done]. by repeat constructor.
Qed.

Lemma client_writes_requests_and_acknowledgements_witness :
  exists c,
    Client.run sample_world
      [Client.Message handshake_text; Client.Fire 1;
       Client.Contact "move" (VArr [VNum 0; VNum 1]) "k3x" false;
       Client.Contact "get-info" VUndefined "k4y" false]
      (sample_client true) = Some c
    /\ effects c
       = [SetTitle "USTC棋 - 本地模式"; WsSend (VObj [("type", VStr "prepared")]);
          SetTitle "classic - 本地模式";
          WebContentsSend (VStr "connect-success") [];
          WsSend (VObj [("type", VStr "move"); ("data", VArr [VNum 0; VNum 1]);
                        ("id", VStr "k3x")])]
    /\ Forall (fun e => outbound e = true) (effects c).
Proof.
  eexists. split; [vm_compute; reflexivity|].
  split; [vm_compute; reflexivity|].
  apply (client_writes_requests_and_acknowledgements sample_world).
  exists (mkGameData VUndefined (VArr []) []), 7, true,
    [Client.Message handshake_text; Client.Fire 1;
     Client.Contact "move" (VArr [VNum 0; VNum 1]) "k3x" false;
     Client.Contact "get-info" VUndefined "k4y" false].
  vm_compute. reflexivity.
Defined.

Module Writers.

Import Correlator.

Lemma calm_refl c : calm c c.
Proof. by unfold calm. Qed.

Lemma calm_trans c c' c'' : calm c c' -> calm c' c'' -> calm c c''.
Proof.
  intros (H1 & H2 & H3 & H4 & H5 & H6) (G1 & G2 & G3 & G4 & G5 & G6). unfold calm.
  rewrite G1, G2, G3, G4. split_and!; try done; by auto.
Qed.

(** Operations made of updates of other fields, and of callbacks that are
    no handshake continuation. *)
Ltac calmed :=
  solve [ unfold calm; fields; split_and!; try done;
          let x := fresh "cb" in
          let H := fresh "Hcb" in
          intros x H;
          rewrite ?elem_of_app, ?list_elem_of_singleton;
          first [ done
                | intros [?| ->]; [done | by simpl in H]
                | by intros ?%list_elem_of_delete_inv ] ].

Lemma calm_close content c : calm c (Client.close content c).
Proof. unfold Client.close. repeat case_match; calmed. Qed.

Lemma calm_resume k p res c : calm c (Client.resume k p res c).
Proof. unfold Client.resume. repeat case_match; calmed. Qed.

Lemma calm_resolve q r c : calm c (Client.resolve q r c).
Proof.
  unfold Client.resolve. repeat case_match; try calmed.
  eapply calm_trans; [|apply calm_resume]. calmed.
Qed.

Lemma calm_await p k c : calm c (Client.await p k c).
Proof. unfold Client.await. case_match; [apply calm_resume | calmed]. Qed.

Lemma calm_contactToServer type payload i sendFails c :
  calm c (Client.contactToServer type payload i sendFails c).2.
Proof.
  unfold Client.contactToServer. cbn [snd].
  assert (Hfail : forall c1, calm c c1 ->
            calm c (schedule (RequestTimeout i (nextPromise c))
                      (Client.resolve (nextPromise c) Client.failed_to_send c1))).
  { intros c1 H1. eapply calm_trans; [|calmed].
    eapply calm_trans; [exact H1 | apply calm_resolve]. }
  repeat case_match; try (apply Hfail; calmed). calmed.
Qed.

Section WithWorld.

Variable W : World.

(** What a turn of the event loop does to the session data: nothing, unless
    it is a push that enters the [switch] or the continuation of a
    handshake. *)
Lemma step_writes ev c c' :
  Client.step W ev c = Some c' ->
  calm c c'
  \/ (exists rawData parsed type payload,
        ev = Client.Message rawData /\ JSON_parse W rawData = Some parsed
        /\ JS.get parsed "type" = Some type /\ JS.get parsed "data" = Some payload
        /\ Client.routed (JS.get_opt parsed "id") c = None
        /\ c' = Client.push W type payload parsed c)
  \/ (exists n camp0 mapData0 loaded,
        ev = Client.Fire n
        /\ pending c !! n = Some (ExtensionsLoaded camp0 mapData0 loaded)
        /\ c' = Client.negotiate W camp0 mapData0 loaded
                  (set_pending (delete n (pending c)) c)).
Proof.
  intros Hstep.
  destruct ev as [rawData| |code|n|type payload i sendFails|confirmed];
    cbn [Client.step] in Hstep.
  - simplify_eq. unfold Client.onMessage.
    destruct (JSON_parse W rawData) as [parsed|] eqn:Hparse; [|left; calmed].
    destruct (JS.get parsed "id") as [id0|] eqn:Hid; [|left; calmed].
    destruct (JS.get parsed "type") as [type|] eqn:Htype; [|left; calmed].
    destruct (JS.get parsed "data") as [payload|] eqn:Hdata; [|left; calmed].
    destruct (Client.routed id0 c) as [[i p]|] eqn:Hrouted.
    + left. unfold Client.handler. eapply calm_trans; [|apply calm_resolve]. calmed.
    + right. left. exists rawData, parsed, type, payload.
      unfold JS.get_opt. rewrite Hid. done.
  - simplify_eq. left. calmed.
  - simplify_eq. left. case_match; [|calmed].
    eapply calm_trans; [|apply calm_close]. calmed.
  - destruct (pending c !! n) as [cb|] eqn:Hn; simplify_eq/=.
    assert (Hdrop : calm c (set_pending (delete n (pending c)) c)) by calmed.
    destruct cb as [i q| | |camp1 mapData1 loaded|]; cbn [Client.fire].
    + left. case_match; [|done].
      eapply calm_trans; [|apply calm_resolve].
      eapply calm_trans; [exact Hdrop | calmed].
    + left. eapply calm_trans; [exact Hdrop | apply calm_close].
    + left. case_match; [done|]. eapply calm_trans; [exact Hdrop | calmed].
    + right. right. by exists n, camp1, mapData1, loaded.
    + left. eapply calm_trans; [exact Hdrop | apply calm_close].
  - simplify_eq. left. unfold Client.contact.
    pose proof (calm_contactToServer type payload i sendFails c) as Hreq.
    destruct (Client.contactToServer type payload i sendFails c) as [p c1].
    cbn [snd] in Hreq.
    repeat case_match; simplify_eq; cbn [snd]; try apply calm_refl;
      (eapply calm_trans; [exact Hreq | apply calm_await]).
  - simplify_eq. left. case_match; [apply calm_close | apply calm_refl].
Qed.

(** The [switch] by type: only a handshake success adds a handshake
    continuation, only a game end sets the end-of-game mark, and no push
    writes the camp. *)
Lemma push_writes type payload parsed c :
  let c' := Client.push W type payload parsed c in
  camp c' = camp c
  /\ (isGameEnd c' = isGameEnd c \/ type = VStr "game-end")
  /\ (((isConnectSuccess c' = true -> isConnectSuccess c = true)
       /\ forall cb, is_loaded cb = true -> cb ∈ pending c' -> cb ∈ pending c)
      \/ type = VStr "connect-success").
Proof.
  unfold Client.push, Client.is_type.
  destruct (JS.strict_eq type (VStr "connect-success")) eqn:H1.
  { apply Dispatch.strict_eq_str in H1 as ->.
    repeat case_match; fields; split_and!; by auto. }
  destruct (JS.strict_eq type (VStr "connect-fail")) eqn:H2.
  { case_match.
    - fields. split_and!; try by auto. left. split; [done|]. intros cb Hcb.
      rewrite elem_of_app, list_elem_of_singleton. intros [?| ->]; [done | by simpl in Hcb].
    - destruct (calm_close payload c) as (E1 & E2 & _ & _ & E5 & E6).
      split_and!; by auto. }
  destruct (JS.strict_eq type (VStr "game-start") || JS.strict_eq type (VStr "change-turn")).
  { fields. split_and!; by auto. }
  destruct (JS.strict_eq type (VStr "game-end")) eqn:H4.
  { apply Dispatch.strict_eq_str in H4 as ->. fields. split_and!; by auto. }
  fields. split_and!; by auto.
Qed.

Lemma negotiate_writes camp0 mapData0 loaded c :
  let c' := Client.negotiate W camp0 mapData0 loaded c in
  isGameEnd c' = isGameEnd c /\ mapData (super c') = mapData (super c)
  /\ isConnectSuccess c' = isConnectSuccess c.
Proof. unfold Client.negotiate. repeat case_match; by fields. Qed.

End WithWorld.

End Writers.

(** X9.  The end of the game is final and unlocks the window.  A
    [game-end] push that enters the [switch] is passed on to the window
    with its data and marks the game as ended; whatever the client runs
    afterwards, the mark stays, and a close request of the window then
    closes the session without waiting for the answer of the confirmation
    prompt. *)
Theorem game_end_unlocks_close W rawData parsed payload evs c c' :
  JSON_parse W rawData = Some parsed ->
  Client.routed (JS.get_opt parsed "id") c = None ->
  JS.get parsed "type" = Some (VStr "game-end") ->
  JS.get parsed "data" = Some payload ->
  Client.run W (Client.Message rawData :: evs) c = Some c' ->
  Client.onMessage W rawData c
  = emit (WebContentsSend (VStr "game-end") [payload]) (set_isGameEnd true c)
  /\ isGameEnd c' = true
  /\ forall confirmed,
       Client.step W (Client.WindowClose confirmed) c'
       = Some (Client.close VUndefined c').
Proof.
  intros Hparse Hrouted Htype Hdata Hrun.
  assert (Hpush : Client.onMessage W rawData c
                  = emit (WebContentsSend (VStr "game-end") [payload])
                      (set_isGameEnd true c)).
  { by rewrite (Dispatch.onMessage_push W rawData parsed _ _ c
                  Hparse Hrouted Htype Hdata). }
  split; [exact Hpush|].
  cbn [Client.run Client.step mbind option_bind] in Hrun. rewrite Hpush in Hrun.
  destruct (Growth.grows_run W evs _ _ Hrun) as (_ & _ & _ & Hend & _).
  assert (Hc' : isGameEnd c' = true) by (by apply Hend).
  split; [exact Hc'|]. intros confirmed. cbn [Client.step]. by rewrite Hc'.
Qed.

Lemma game_end_unlocks_close_witness :
  exists c',
    Client.run play_world
      [Client.Message (envelope_text "game-end" (Some "1") None);
       Client.Message (envelope_text "game-start" None None)]
      (sample_client true) = Some c'
    /\ isGameEnd c' = true
    /\ Client.step play_world (Client.WindowClose false) c'
       = Some (Client.close VUndefined c').
Proof.
  eexists. split; [vm_compute; reflexivity|].
  refine ((fun H => conj (proj1 (proj2 H)) (proj2 (proj2 H) false))
            (game_end_unlocks_close play_world
               (envelope_text "game-end" (Some "1") None)
               (envelope_value "game-end" (Some "1") None) (VStr "1")
               [Client.Message (envelope_text "game-start" None None)]
               (sample_client true) _ _ _ _ _ _));
    vm_compute; reflexivity.
Defined.

(** X10.  Only a game-end push lifts the confirmation prompt.  As long as
    no inbound message carried the type [game-end], the game is not marked
    as ended, and a close request of the window that the user does not
    confirm changes nothing. *)
Theorem close_prompt_stays_until_game_end W inherited surface local evs c :
  Client.run W evs (Client.new inherited surface local) = Some c ->
  (forall rawData, Client.Message rawData ∈ evs -> ~ is_push W "game-end" rawData) ->
  isGameEnd c = false
  /\ Client.step W (Client.WindowClose false) c = Some c.
Proof.
  intros Hrun Hnone.
  assert (Hinv : forall evs c0 c1,
            isGameEnd c0 = false -> Client.run W evs c0 = Some c1 ->
            (forall rawData, Client.Message rawData ∈ evs ->
                             ~ is_push W "game-end" rawData) ->
            isGameEnd c1 = false).
  { clear. induction evs as [|ev evs IH]; intros c0 c1 H0 Hrun Hnone;
      simpl in Hrun; [by simplify_eq|].
    destruct (Client.step W ev c0) as [c2|] eqn:Hstep; simplify_eq/=.
    apply (IH c2); [|done|].
    - destruct (Writers.step_writes W ev c0 c2 Hstep)
        as [(_ & -> & _)|[(rawData & parsed & type & payload & -> & Hparse & Htype
                           & Hdata & Hrouted & ->)
                         |(n & camp0 & mapData0 & loaded & -> & Hn & ->)]];
        [done| |].
      + destruct (Writers.push_writes W type payload parsed c0) as (_ & [->| ->] & _);
          [done|].
        exfalso. apply (Hnone rawData); [by left|].
        exists parsed. split; [done|]. unfold JS.get_opt. by rewrite Htype.
      + by destruct (Writers.negotiate_writes W camp0 mapData0 loaded
                       (set_pending (delete n (pending c0)) c0)) as (-> & _).
    - intros rawData Hin. apply Hnone. by right. }
  assert (Hc : isGameEnd c = false)
    by (apply (Hinv evs (Client.new inherited surface local) c); done).
  split; [exact Hc|]. cbn [Client.step]. by rewrite Hc.
Qed.

Lemma close_prompt_stays_until_game_end_witness :
  exists c,
    Client.run play_world
      [Client.Message handshake_text; Client.Fire 1;
       Client.Message (envelope_text "game-start" None None)]
      (sample_client true) = Some c
    /\ Client.step play_world (Client.WindowClose false) c = Some c.
Proof.
  eexists. split; [vm_compute; reflexivity|].
  refine (proj2 (close_prompt_stays_until_game_end play_world
                   (mkGameData VUndefined (VArr []) []) 7 true
                   [Client.Message handshake_text; Client.Fire 1;
                    Client.Message (envelope_text "game-start" None None)]
                   _ _ _)); [vm_compute; reflexivity|].
  intros rawData Hin (parsed & Hparse & Htype).
  repeat (apply elem_of_cons in Hin as [Hin|Hin]; [simplify_eq; by vm_compute in Hparse; simplify_eq|]).
  by apply elem_of_nil in Hin.
Defined.

(** X11.  [get-info] needs a handshake.  As long as no inbound message
    carried the type [connect-success], the camp is the 0 the constructor
    set, and [get-info] answers the error [Fail to get info.], without
    changing the client or writing to the socket. *)
Theorem get_info_fails_before_handshake W inherited surface local evs c :
  Client.run W evs (Client.new inherited surface local) = Some c ->
  (forall rawData, Client.Message rawData ∈ evs ->
                   ~ is_push W "connect-success" rawData) ->
  camp c = VNum 0
  /\ forall payload messageId sendFails,
       Client.contact W "get-info" payload messageId sendFails c
       = (Client.Now (mkResponse (VStr "error") (VStr "Fail to get info.")), c).
Proof.
  intros Hrun Hnone.
  assert (Hinv : forall evs c0 c1,
            camp c0 = VNum 0 ->
            (forall cb, is_loaded cb = true -> cb ∉ pending c0) ->
            Client.run W evs c0 = Some c1 ->
            (forall rawData, Client.Message rawData ∈ evs ->
                             ~ is_push W "connect-success" rawData) ->
            camp c1 = VNum 0).
  { clear. induction evs as [|ev evs IH]; intros c0 c1 H0 Hp Hrun Hnone;
      simpl in Hrun; [by simplify_eq|].
    destruct (Client.step W ev c0) as [c2|] eqn:Hstep; simplify_eq/=.
    assert (Hrest : forall rawData, Client.Message rawData ∈ evs ->
                                    ~ is_push W "connect-success" rawData).
    { intros rawData Hin. apply Hnone. by right. }
    destruct (Writers.step_writes W ev c0 c2 Hstep)
      as [(E1 & _ & _ & _ & _ & E5)
         |[(rawData & parsed & type & payload & -> & Hparse & Htype
            & Hdata & Hrouted & ->)
          |(n & camp0 & mapData0 & loaded & -> & Hn & ->)]].
    - apply (IH c2); [congruence | | done | done].
      intros cb Hcb Hin. by apply (Hp cb Hcb), E5.
    - destruct (Writers.push_writes W type payload parsed c0)
        as (E1 & _ & [[_ E5]| ->]).
      + apply (IH (Client.push W type payload parsed c0)); [congruence | | done | done].
        intros cb Hcb Hin. by apply (Hp cb Hcb), E5.
      + exfalso. apply (Hnone rawData); [by left|].
        exists parsed. split; [done|]. unfold JS.get_opt. by rewrite Htype.
    - exfalso. apply (Hp (ExtensionsLoaded camp0 mapData0 loaded)); [done|].
      by eapply list_elem_of_lookup_2. }
  assert (Hc : camp c = VNum 0).
  { apply (Hinv evs (Client.new inherited surface local) c); try done.
    intros cb Hcb [->|[]%elem_of_nil]%elem_of_cons. done. }
  split; [exact Hc|]. intros payload messageId sendFails.
  unfold Client.contact. cbn [String.eqb Ascii.eqb Bool.eqb]. by rewrite Hc.
Qed.

Lemma get_info_fails_before_handshake_witness :
  exists c,
    Client.run sample_world
      [Client.Message (envelope_text "game-start" None None); Client.Fire 0]
      (sample_client false) = Some c
    /\ Client.contact sample_world "get-info" VUndefined "k3x" false c
       = (Client.Now (mkResponse (VStr "error") (VStr "Fail to get info.")), c).
Proof.
  eexists. split; [vm_compute; reflexivity|].
  refine (proj2 (get_info_fails_before_handshake sample_world
                   (mkGameData VUndefined (VArr []) []) 7 false
                   [Client.Message (envelope_text "game-start" None None);
                    Client.Fire 0] _ _ _) VUndefined "k3x" false);
    [vm_compute; reflexivity|].
  intros rawData Hin (parsed & Hparse & Htype).
  repeat (apply elem_of_cons in Hin as [Hin|Hin];
          [simplify_eq; by vm_compute in Hparse; simplify_eq|]).
  by apply elem_of_nil in Hin.
Defined.

(** X12.  [get-info] after a handshake.  When a [connect-success] push
    enters the [switch] and, once the extension loader is done, the
    session is local or the compatibility check passes, the client holds
    the camp and the map of the push, and [get-info] answers them back:
    success with exactly that camp and map when both are truthy, and the
    error otherwise, as for the camp 0. *)
Theorem get_info_after_handshake
    W rawData parsed payload camp0 mapData0 required c :
  JSON_parse W rawData = Some parsed ->
  Client.routed (JS.get_opt parsed "id") c = None ->
  JS.get parsed "type" = Some (VStr "connect-success") ->
  JS.get parsed "data" = Some payload ->
  JS.get payload "camp" = Some camp0 ->
  JS.get payload "mapData" = Some mapData0 ->
  JS.get mapData0 "extensions" = Some required ->
  isLocal c = true
  \/ checkExtensions W (autoGetNeededExtensions W required) required = true ->
  exists c',
    Client.run W [Client.Message rawData; Client.Fire (length (pending c))] c = Some c'
    /\ camp c' = camp0 /\ mapData (super c') = mapData0
    /\ extensions (super c') = autoGetNeededExtensions W required
    /\ forall payload' messageId sendFails,
         Client.contact W "get-info" payload' messageId sendFails c'
         = (Client.Now
              (if JS.truthy camp0 && JS.truthy mapData0
               then mkResponse (VStr "success")
                      (VObj [("camp", camp0); ("mapData", mapData0)])
               else mkResponse (VStr "error") (VStr "Fail to get info.")),
            c').
Proof.
  intros Hparse Hrouted Htype Hdata Hcamp Hmap Hreq Hok.
  cbn [Client.run Client.step mbind option_bind].
  rewrite (Dispatch.onMessage_push W rawData parsed _ _ c Hparse Hrouted Htype Hdata).
  unfold Client.push. cbn [Client.is_type JS.strict_eq]. simpl bool_decide.
  cbn match. rewrite Hcamp, Hmap, Hreq. Correlator.fields.
  rewrite lookup_app_r by done. rewrite Nat.sub_diag. cbn [lookup list_lookup].
  cbn [mbind option_bind Client.fire].
  eexists. split; [reflexivity|].
  destruct (Correlator.get_all_or_none mapData0 "extensions" "name"
              ltac:(by rewrite Hreq)) as [title Htitle].
  assert (Hshape : forall c1 : GameClient,
            (isLocal c1 = true
             \/ (JS.get (mapData (super c1)) "extensions" = Some required
                 /\ checkExtensions W (autoGetNeededExtensions W required) required
                    = true)) ->
            let c' := Client.negotiate W camp0 mapData0
                        (autoGetNeededExtensions W required) c1 in
            camp c' = camp0 /\ mapData (super c') = mapData (super c1)
            /\ extensions (super c') = autoGetNeededExtensions W required).
  { intros c1 Hc1. unfold Client.negotiate. Correlator.fields. rewrite Htitle.
    destruct (isLocal c1) eqn:Hl; [done|].
    destruct Hc1 as [?|[-> ->]]; done. }
  match goal with
  | |- camp (Client.negotiate _ _ _ _ ?x) = _ /\ _ =>
      destruct (Hshape x) as (E1 & E2 & E3)
  end.
  { Correlator.fields. destruct Hok as [?|?]; [by left | by right]. }
  rewrite E1, E2, E3. Correlator.fields. split_and!; try done.
  intros payload' messageId sendFails.
  unfold Client.contact. cbn [String.eqb Ascii.eqb Bool.eqb].
  rewrite E1, E2. Correlator.fields. by case_match.
Qed.

Lemma get_info_after_handshake_witness :
  exists c',
    Client.run sample_world [Client.Message handshake_text; Client.Fire 1]
      (sample_client true) = Some c'
    /\ Client.contact sample_world "get-info" VUndefined "k3x" false c'
       = (Client.Now (mkResponse (VStr "success")
                        (VObj [("camp", VNum 1); ("mapData", sample_map)])), c').
Proof.
  destruct (get_info_after_handshake sample_world handshake_text handshake_value
              (VObj [("camp", VNum 1); ("mapData", sample_map)]) (VNum 1) sample_map
              (VObj [("a", VStr "1"); ("b", VStr "2")]) (sample_client true)
              eq_refl eq_refl eq_refl eq_refl eq_refl eq_refl eq_refl
              (or_introl eq_refl))
    as (c' & Hrun & _ & _ & _ & Hinfo).
  exists c'. split; [exact Hrun|]. exact (Hinfo VUndefined "k3x" false).
Defined.

Module StoredBoard.

Import Correlator.

(** Waking a suspended call writes the board only for a [get-state] call
    and a response that carries one. *)
Lemma resume_board k p res c :
  let c' := Client.resume k p res c in
  effects c' = (effects c ++ [Reply p res])%list
  /\ (chessboard (super c') = chessboard (super c)
      \/ (k = AwaitGetState /\ snapshot_of res = Some (chessboard (super c')))).
Proof.
  destruct k.
  - destruct (Awaiting.resume_get_state p res c) as (E1 & E2 & _).
    cbv zeta. rewrite E1, E2. split; [done|].
    destruct (snapshot_of res); [by right | by left].
  - unfold Client.resume. fields. by auto.
Qed.

Lemma resolve_board q r c :
  let c' := Client.resolve q r c in
  chessboard (super c') = chessboard (super c)
  \/ (awaiters c !! q = Some AwaitGetState /\ Promise.settled q c = None
      /\ snapshot_of r = Some (chessboard (super c'))
      /\ effects c' = (effects c ++ [Reply q r])%list).
Proof.
  unfold Client.resolve.
  destruct (Promise.settled q c) eqn:Hs; [by left|].
  destruct (awaiters c !! q) as [k|] eqn:Hq; [|by left].
  destruct (resume_board k q r (set_resolveCalls (resolveCalls c ++ [(q, r)]) c))
    as (E1 & [E2|[-> E2]]); [by left|].
  right. by rewrite E1.
Qed.

Lemma failed_to_send_carries_no_board : snapshot_of Client.failed_to_send = None.
Proof. reflexivity. Qed.

Lemma timed_out_carries_no_board : snapshot_of Client.timed_out = None.
Proof. reflexivity. Qed.

(** A call of [resolve] with a response that carries no board. *)
Lemma resolve_plain q r c :
  snapshot_of r = None ->
  chessboard (super (Client.resolve q r c)) = chessboard (super c).
Proof.
  intros Hr. destruct (resolve_board q r c) as [E|(_ & _ & E & _)]; [done|].
  congruence.
Qed.

Lemma contactToServer_board type payload i sendFails c :
  chessboard (super (Client.contactToServer type payload i sendFails c).2)
  = chessboard (super c).
Proof.
  unfold Client.contactToServer. cbn [snd].
  repeat case_match; fields; rewrite ?resolve_plain by done; by fields.
Qed.

(** The request a [contact] call issues is settled, right after the call
    of [contactToServer], with the transport error or not at all. *)
Lemma contactToServer_settled type payload i sendFails c :
  well_formed c ->
  let issued := Client.contactToServer type payload i sendFails c in
  Promise.settled issued.1 issued.2 = None
  \/ Promise.settled issued.1 issued.2 = Some Client.failed_to_send.
Proof.
  intros Hwf.
  pose proof (no_calls_yet c Hwf) as Hnone. unfold Promise.calls in Hnone.
  apply fmap_nil_inv in Hnone.
  unfold Client.contactToServer. cbn [fst snd].
  assert (Hfail : forall c1,
            resolveCalls c1 = resolveCalls c ->
            Promise.settled (nextPromise c)
              (schedule (RequestTimeout i (nextPromise c))
                 (Client.resolve (nextPromise c) Client.failed_to_send c1))
            = Some Client.failed_to_send).
  { intros c1 E.
    destruct (delta_resolve (nextPromise c) Client.failed_to_send c1)
      as (_ & E2 & _ & _).
    unfold Promise.settled. fields. rewrite E2, E, filter_app, Hnone.
    simpl. rewrite filter_cons, decide_True by done. done. }
  repeat case_match; try (right; by apply Hfail).
  left. unfold Promise.settled. fields. by rewrite Hnone.
Qed.

Section WithWorld.

Variable W : World.

Lemma push_board type payload parsed c :
  chessboard (super (Client.push W type payload parsed c)) = chessboard (super c).
Proof.
  unfold Client.push, Client.close. repeat case_match; by fields.
Qed.

Lemma negotiate_board camp0 mapData0 loaded c :
  chessboard (super (Client.negotiate W camp0 mapData0 loaded c))
  = chessboard (super c).
Proof. unfold Client.negotiate. repeat case_match; by fields. Qed.

Lemma close_board content c :
  chessboard (super (Client.close content c)) = chessboard (super c).
Proof. unfold Client.close. repeat case_match; by fields. Qed.

Lemma step_board ev c c' :
  well_formed c -> Client.step W ev c = Some c' ->
  chessboard (super c') = chessboard (super c)
  \/ exists p r,
       awaiters c !! p = Some AwaitGetState /\ Promise.settled p c = None
       /\ snapshot_of r = Some (chessboard (super c'))
       /\ effects c' = (effects c ++ [Reply p r])%list.
Proof.
  intros Hwf Hstep.
  destruct ev as [rawData| |code|n|type payload i sendFails|confirmed];
    cbn [Client.step] in Hstep.
  - simplify_eq. unfold Client.onMessage.
    repeat case_match; simplify_eq; try (left; by fields).
    + unfold Client.handler.
      match goal with
      | |- context [Client.resolve ?q ?r ?x] =>
          destruct (resolve_board q r x) as [E|(E1 & E2 & E3 & E4)];
            [left; by rewrite E | right; by exists q, r]
      end.
    + left. apply push_board.
  - simplify_eq. by left.
  - simplify_eq. left. case_match; [|done]. by rewrite close_board.
  - destruct (pending c !! n) as [cb|] eqn:Hn; simplify_eq/=. left.
    destruct cb as [i q| | |camp1 mapData1 loaded|]; cbn [Client.fire].
    + case_match; [|done].
      rewrite resolve_plain by apply timed_out_carries_no_board. done.
    + by rewrite close_board.
    + by case_match.
    + by rewrite negotiate_board.
    + by rewrite close_board.
  - simplify_eq. left. unfold Client.contact.
    pose proof (contactToServer_board type payload i sendFails c) as Hb.
    pose proof (contactToServer_settled type payload i sendFails c Hwf) as Hs.
    destruct (Client.contactToServer type payload i sendFails c) as [p c1].
    cbn [fst snd] in *.
    assert (Hawait : forall k,
              chessboard (super (Client.await p k c1)) = chessboard (super c)).
    { intros k. unfold Client.await.
      destruct Hs as [-> | ->]; [by fields|].
      destruct (resume_board k p Client.failed_to_send c1) as (_ & [E|[_ E]]);
        [by rewrite E | done]. }
    repeat case_match; simplify_eq; cbn [snd]; done.
  - simplify_eq. left. case_match; [|done]. by rewrite close_board.
Qed.

End WithWorld.

End StoredBoard.

(** X13.  Only the answer to a [get-state] call writes the stored board.
    In every state the client reaches, a turn of the event loop either
    leaves the stored board as it is, or it settles the promise a
    suspended [get-state] call awaits with a response that carries a
    board, stores exactly that board and hands the response to the call.
    The answer to a [move] call, a push, a timer or a failed send never
    changes the stored board. *)
Theorem board_written_only_by_state_answer W c ev c' :
  reachable W c -> Client.step W ev c = Some c' ->
  chessboard (super c') = chessboard (super c)
  \/ exists p r,
       awaiters c !! p = Some AwaitGetState /\ Promise.settled p c = None
       /\ snapshot_of r = Some (chessboard (super c'))
       /\ effects c' = (effects c ++ [Reply p r])%list.
Proof.
  intros Hreach Hstep.
  eapply StoredBoard.step_board; [|exact Hstep]. by eapply Correlator.reachable_well_formed.
Qed.

(** A [get-state] call, then the state answer: the board of the answer is
    stored. *)
Lemma board_written_only_by_state_answer_witness :
  exists c c',
    Client.run play_world [Client.Contact "get-state" VUndefined "k3x" false]
      (sample_client false) = Some c
    /\ Client.step play_world (Client.Message state_text) c = Some c'
    /\ chessboard (super c) = VArr []
    /\ chessboard (super c') = VArr [VArr [VNull]]
    /\ (chessboard (super c') = chessboard (super c)
        \/ exists p r,
             awaiters c !! p = Some AwaitGetState /\ Promise.settled p c = None
             /\ snapshot_of r = Some (chessboard (super c'))
             /\ effects c' = (effects c ++ [Reply p r])%list).
Proof.
  eexists. eexists.
  split; [vm_compute; reflexivity|].
  split; [vm_compute; reflexivity|].
  split; [vm_compute; reflexivity|].
  split; [vm_compute; reflexivity|].
  refine (board_written_only_by_state_answer play_world _ (Client.Message state_text) _ _ _).
  - exists (mkGameData VUndefined (VArr []) []), 7, false,
      [Client.Contact "get-state" VUndefined "k3x" false].
    vm_compute. reflexivity.
  - vm_compute. reflexivity.
Defined.

(** ** The coordinator and its clients *)

Module Owner.

Import Coordinator.

Lemma close_calls_close content c c1 :
  effects c1 = effects c -> close_calls c (Client.close content c1) = 1.
Proof.
  intros E. unfold close_calls, Client.close.
  repeat case_match; Correlator.fields; rewrite E, <- ?app_assoc, drop_app_length;
    reflexivity.
Qed.

Lemma close_calls_none c c1 :
  effects c1 = effects c -> close_calls c c1 = 0.
Proof.
  intros E. unfold close_calls. rewrite E, drop_all. reflexivity.
Qed.

Lemma iter_close n s : n <> 0 -> Nat.iter n close s = close s.
Proof.
  destruct n as [|n]; [done|]. intros _. induction n as [|n IH]; [done|].
  change (Nat.iter (S (S n)) close s) with (close (Nat.iter (S n) close s)).
  by rewrite IH, Teardown.close_close.
Qed.

(** The windows stay with their clients. *)
Lemma ids_insert (clients : list GameClient) k c c' :
  clients !! k = Some c -> id c' = id c ->
  id <$> <[k := c']> clients = id <$> clients.
Proof.
  intros Hk Hid. rewrite list_fmap_insert, Hid.
  apply list_insert_id. by rewrite list_lookup_fmap, Hk.
Qed.

Lemma ids_close s : id <$> gameClients (close s) = id <$> gameClients s.
Proof.
  unfold close. case_match; [done|]. simpl.
  rewrite <- list_fmap_compose. by apply list_fmap_ext.
Qed.

Lemma ids_iter n s : id <$> gameClients (Nat.iter n close s) = id <$> gameClients s.
Proof. induction n as [|n IH]; [done|]. simpl. by rewrite ids_close. Qed.

Lemma ids_step W ev s s' :
  step W ev s = Some s' -> id <$> gameClients s' = id <$> gameClients s.
Proof.
  intros Hstep. destruct ev as [k cev|sender type payload messageId sendFails|];
    cbn [step] in Hstep.
  - unfold deliver in Hstep.
    destruct (gameClients s !! k) as [c|] eqn:Hk; simplify_eq/=.
    destruct (Client.step W cev c) as [c'|] eqn:Hc; simplify_eq/=.
    rewrite ids_iter. simpl. eapply ids_insert; [done|].
    by destruct (Growth.grows_step W cev c c' Hc) as (-> & _).
  - simplify_eq. unfold invoke.
    destruct (contactHandler s); [|done].
    destruct (list_find _ _) as [[k c]|] eqn:Hfind; [|done].
    apply list_find_Some in Hfind as (Hk & _ & _).
    pose proof (Growth.grows_step W
                  (Client.Contact type payload messageId sendFails) c _ eq_refl)
      as (Hid & _).
    destruct (Client.contact W type payload messageId sendFails c) as [r c'].
    simpl in *. by eapply ids_insert.
  - simplify_eq. apply ids_close.
Qed.

Lemma ids_run W evs :
  forall s s', run W evs s = Some s' -> id <$> gameClients s' = id <$> gameClients s.
Proof.
  induction evs as [|ev evs IH]; intros s s' Hrun; simpl in Hrun.
  - by simplify_eq.
  - destruct (step W ev s) as [s1|] eqn:Hstep; simplify_eq/=.
    rewrite (IH _ _ Hrun). by eapply ids_step.
Qed.

End Owner.

(** X14.  One client closing closes the session.  When an event makes a
    client of an open coordinator call [this.close], whatever the event
    and however often, the coordinator is closed once: the teardown
    callback runs once, the handler of ['contact'] is removed, and the
    window of every client, not only of the one that closed, is
    destroyed. *)
Theorem client_close_tears_down_session W k ev s c c' :
  Coordinator.isClosed s = false ->
  Coordinator.gameClients s !! k = Some c ->
  Client.step W ev c = Some c' ->
  Coordinator.close_calls c c' <> 0 ->
  exists s',
    Coordinator.deliver W k ev s = Some s'
    /\ Coordinator.isClosed s' = true
    /\ Coordinator.contactHandler s' = false
    /\ Coordinator.stopGame s' = S (Coordinator.stopGame s)
    /\ Coordinator.gameClients s'
       = set_windowDestroyed true <$> <[k := c']> (Coordinator.gameClients s)
    /\ Forall (fun c => windowDestroyed c = true) (Coordinator.gameClients s').
Proof.
  intros Hopen Hk Hstep Hcalls. unfold Coordinator.deliver.
  rewrite Hk. cbn [mbind option_bind]. rewrite Hstep. cbn [mbind option_bind].
  eexists. split; [reflexivity|].
  rewrite Owner.iter_close by done. unfold Coordinator.close. simpl.
  rewrite Hopen. simpl. split_and!; try done.
  apply Forall_fmap, Forall_forall. by intros x _.
Qed.

(** Two clients of a local game; the user closes the window of the first
    and confirms. *)
Lemma client_close_tears_down_session_witness :
  exists s',
    Coordinator.deliver sample_world 0 (Client.WindowClose true)
      (Coordinator.createClients (mkGameData VUndefined (VArr []) []) [7; 8] true)
    = Some s'
    /\ windowDestroyed <$> Coordinator.gameClients s' = [true; true]
    /\ Coordinator.stopGame s' = 1.
Proof.
  destruct (client_close_tears_down_session sample_world 0 (Client.WindowClose true)
              (Coordinator.createClients (mkGameData VUndefined (VArr []) []) [7; 8] true)
              (sample_client true) (Client.close VUndefined (sample_client true))
              eq_refl eq_refl eq_refl ltac:(vm_compute; discriminate))
    as (s' & Hs' & _ & _ & Hstop & Hclients & _).
  exists s'. split; [exact Hs'|]. split; [|exact Hstop].
  rewrite Hclients. reflexivity.
Defined.

(** X15.  The end of the connection.  When the socket of a client of an
    open coordinator closes with code 4004, the peer has left: the client
    closes the session, after an error box that names the reason in a
    networked game and without any message in a local game, and without
    calling [ws.close()], as it has just marked itself disconnected.  With
    any other code the client only marks itself disconnected: nothing is
    shown and the session stays open. *)
Theorem socket_close_ends_session_on_4004 W k code s c :
  Coordinator.isClosed s = false ->
  Coordinator.gameClients s !! k = Some c ->
  let gone := set_isConnectSuccess false c in
  let left :=
    emit CloseCallback
      (if isLocal c then gone
       else emit (ShowErrorBox "错误" (VStr "对方已断开连接")) gone) in
  Coordinator.deliver W k (Client.SocketClose code) s
  = Some (if bool_decide (code = 4004%Z)
          then Coordinator.close
                 (Coordinator.mkState false (<[k := left]> (Coordinator.gameClients s))
                    (Coordinator.contactHandler s) (Coordinator.stopGame s))
          else Coordinator.mkState false (<[k := gone]> (Coordinator.gameClients s))
                 (Coordinator.contactHandler s) (Coordinator.stopGame s)).
Proof.
  intros Hopen Hk gone left. unfold Coordinator.deliver.
  rewrite Hk. cbn [mbind option_bind Client.step]. rewrite Hopen. fold gone.
  case_bool_decide as Hcode.
  - assert (Hleft : Client.close (VStr (if isLocal gone then "" else "对方已断开连接")) gone
                    = left).
    { unfold Client.close, left, gone. Correlator.fields. by destruct (isLocal c). }
    rewrite Hleft.
    assert (Hcalls : Coordinator.close_calls c left = 1).
    { rewrite <- Hleft. by apply Owner.close_calls_close. }
    by rewrite Hcalls.
  - by rewrite Owner.close_calls_none.
Qed.

Lemma socket_close_ends_session_on_4004_witness :
  exists s',
    Coordinator.deliver sample_world 1 (Client.SocketClose 4004)
      (Coordinator.createClients (mkGameData VUndefined (VArr []) []) [7; 8] false)
    = Some s'
    /\ Coordinator.isClosed s' = true
    /\ (effects <$> Coordinator.gameClients s' !! 1)
       = Some [SetTitle "USTC棋 - 联机模式";
               ShowErrorBox "错误" (VStr "对方已断开连接"); CloseCallback].
Proof.
  eexists. split.
  - exact (socket_close_ends_session_on_4004 sample_world 1 4004
             (Coordinator.createClients (mkGameData VUndefined (VArr []) []) [7; 8] false)
             (Client.new (mkGameData VUndefined (VArr []) []) 8 false) eq_refl eq_refl).
  - split; reflexivity.
Defined.

(** X16.  A [contact] invocation reaches the client of the window it
    comes from, and no other.  In every state the coordinator reaches,
    each client still has the window it was built with; as long as the
    handler of ['contact'] is registered, an invocation from the window of
    the [k]-th client is answered by the [contact] method of that client,
    which is the only client that changes, and an invocation from any
    other sender is rejected and changes nothing. *)
Theorem contact_reaches_own_client W inherited surfaces local evs s :
  NoDup surfaces ->
  Coordinator.run W evs (Coordinator.createClients inherited surfaces local) = Some s ->
  Coordinator.contactHandler s = true ->
  id <$> Coordinator.gameClients s = surfaces
  /\ forall sender type payload messageId sendFails,
       (forall k, surfaces !! k = Some sender ->
          exists c,
            Coordinator.gameClients s !! k = Some c
            /\ Coordinator.invoke W sender type payload messageId sendFails s
               = (Coordinator.Answered
                    (Client.contact W type payload messageId sendFails c).1,
                  Coordinator.mkState (Coordinator.isClosed s)
                    (<[k := (Client.contact W type payload messageId sendFails c).2]>
                       (Coordinator.gameClients s))
                    true (Coordinator.stopGame s)))
       /\ (sender ∉ surfaces ->
           Coordinator.invoke W sender type payload messageId sendFails s
           = (Coordinator.NotAGameWindow, s)).
Proof.
  intros Hnd Hrun Hh.
  assert (Hids : id <$> Coordinator.gameClients s = surfaces).
  { rewrite (Owner.ids_run W evs _ _ Hrun). simpl.
    rewrite <- list_fmap_compose. by rewrite list_fmap_id. }
  split; [exact Hids|].
  intros sender type payload messageId sendFails. unfold Coordinator.invoke.
  rewrite Hh. split.
  - intros k Hk.
    assert (Hc : exists c, Coordinator.gameClients s !! k = Some c /\ id c = sender).
    { rewrite <- Hids, list_lookup_fmap in Hk.
      destruct (Coordinator.gameClients s !! k) as [c|]; simplify_eq/=. by eauto. }
    destruct Hc as (c & Hc & Hid). exists c. split; [done|].
    assert (Hfind : list_find (fun c0 => id c0 = sender) (Coordinator.gameClients s)
                    = Some (k, c)).
    { apply list_find_Some. split; [done|]. split; [done|].
      intros j y Hj Hlt Hy.
      assert (surfaces !! j = Some sender)
        by (by rewrite <- Hids, list_lookup_fmap, Hj; simpl; rewrite Hy).
      assert (surfaces !! k = Some sender)
        by (by rewrite <- Hids, list_lookup_fmap, Hc; simpl; rewrite Hid).
      assert (j = k) by (by eapply NoDup_lookup). lia. }
    rewrite Hfind.
    by destruct (Client.contact W type payload messageId sendFails c).
  - intros Hout.
    assert (Hfind : list_find (fun c0 => id c0 = sender) (Coordinator.gameClients s)
                    = None).
    { apply list_find_None, Forall_forall. intros c Hc Hid.
      apply Hout. rewrite <- Hids, <- Hid. by apply list_elem_of_fmap_2. }
    by rewrite Hfind.
Qed.

(** Two clients with the windows 7 and 8: a [get-info] from window 8 is
    answered by the second client. *)
Lemma contact_reaches_own_client_witness :
  Coordinator.invoke sample_world 8 "get-info" VUndefined "k3x" false
    (Coordinator.createClients (mkGameData VUndefined (VArr []) []) [7; 8] true)
  = (Coordinator.Answered
       (Client.Now (mkResponse (VStr "error") (VStr "Fail to get info."))),
     Coordinator.createClients (mkGameData VUndefined (VArr []) []) [7; 8] true).
Proof.
  destruct (proj1 (proj2 (contact_reaches_own_client sample_world
                            (mkGameData VUndefined (VArr []) []) [7; 8] true [] _
                            ltac:(apply NoDup_cons; split;
                                     [by intros ?%list_elem_of_singleton
                                     | apply NoDup_singleton])
                            eq_refl eq_refl)
                     8 "get-info" VUndefined "k3x" false) 1 eq_refl)
    as (c & Hc & ->).
  by simplify_eq/=.
Defined.

(** X17.  The handshake is acknowledged exactly when it is accepted.  Once
    the extension loader is done the client keeps the loaded extensions;
    it records the camp of the push and sends the acknowledgement
    [{ type: 'prepared' }] exactly when the session is local or the
    compatibility check passes on the loaded extensions, and otherwise it
    keeps its camp and writes nothing to the socket. *)
Theorem handshake_acknowledged_iff_accepted W camp0 mapData0 loaded required c :
  JS.get (mapData (super c)) "extensions" = Some required ->
  let c' := Client.fire W (ExtensionsLoaded camp0 mapData0 loaded) c in
  let accepted := isLocal c || checkExtensions W loaded required in
  let added := drop (length (effects c)) (effects c') in
  extensions (super c') = loaded
  /\ camp c' = (if accepted then camp0 else camp c)
  /\ (WsSend (VObj [("type", VStr "prepared")]) ∈ added <-> accepted = true)
  /\ (accepted = false -> forall message, WsSend message ∉ added).
Proof.
  intros Hreq. cbn [Client.fire]. unfold Client.negotiate. Correlator.fields.
  rewrite Hreq.
  assert (Hno : forall (e : Effect) (l : list Effect),
            Forall (fun e' => e' <> e) l -> e ∉ l).
  { intros e l Hl He. rewrite Forall_forall in Hl. by apply (Hl e). }
  destruct (isLocal c); cbn [orb];
    [|destruct (checkExtensions W loaded required)];
    repeat case_match; Correlator.fields;
    rewrite <- ?app_assoc, ?drop_app_length, ?drop_all;
    (split; [done|]); (split; [done|]);
    (split;
     [ first [ by split; [|intros _; apply elem_of_cons; left]
             | split; [|done]; intros Hin; exfalso; revert Hin;
               apply Hno; by repeat constructor ]
     | first [ done
             | intros _ message; apply Hno; by repeat constructor ] ]).
Qed.

Lemma handshake_acknowledged_iff_accepted_witness :
  camp (Client.fire sample_world
          (ExtensionsLoaded (VNum 1) sample_map [sample_extension])
          (set_mapData sample_map (sample_client false)))
  = VNum 0.
Proof.
  exact (proj1 (proj2 (handshake_acknowledged_iff_accepted sample_world (VNum 1)
                         sample_map [sample_extension]
                         (VObj [("a", VStr "1"); ("b", VStr "2")])
                         (set_mapData sample_map (sample_client false)) eq_refl))).
Defined.

(** ** The local requests of [contact] *)

Module Local.

Section Undefined.

Variable movesFrom : Position -> list Position.

(** With an undefined camp the scan raises at an empty square and walks
    over every piece. *)
Lemma visit_undefined (i j : nat) (cell : option Chess) (acc : Scan) :
  is_Some (visit movesFrom VUndefined i j (cell_value cell) acc) <-> is_Some cell.
Proof.
  unfold visit. destruct cell as [ch|]; simpl; split; try done;
    first [by eexists | by intros [? ?]].
Qed.

Lemma scan_row_undefined (i : nat) (row : list (option Chess)) :
  forall j acc,
    is_Some (scan_row movesFrom VUndefined i j (cell_value <$> row) acc)
    <-> Forall is_Some row.
Proof.
  induction row as [|cell row IH]; intros j acc; simpl.
  - split; [by constructor | by eexists].
  - rewrite Forall_cons.
    destruct (visit movesFrom VUndefined i j (cell_value cell) acc) as [acc'|] eqn:Hv;
      simpl.
    + rewrite IH. split; [|by intros [_ ?]].
      intros Hrow. split; [|done]. apply (visit_undefined i j cell acc).
      by rewrite Hv.
    + split; [by intros [? ?]|]. intros [Hcell _].
      apply (visit_undefined i j cell acc) in Hcell. rewrite Hv in Hcell.
      by destruct Hcell.
Qed.

Lemma scan_rows_undefined (b : Chessboard) :
  forall i acc,
    is_Some (scan_rows movesFrom VUndefined i
               ((fun row => VArr (cell_value <$> row)) <$> b) acc)
    <-> Forall (Forall is_Some) b.
Proof.
  induction b as [|row b IH]; intros i acc; simpl.
  - split; [by constructor | by eexists].
  - rewrite Forall_cons.
    destruct (scan_row movesFrom VUndefined i 0 (cell_value <$> row) acc)
      as [acc'|] eqn:Hr; simpl.
    + rewrite IH. split; [|by intros [_ ?]].
      intros Hb. split; [|done]. apply (scan_row_undefined i row 0 acc).
      by rewrite Hr.
    + split; [by intros [? ?]|]. intros [Hrow _].
      apply (scan_row_undefined i row 0 acc) in Hrow. rewrite Hr in Hrow.
      by destruct Hrow.
Qed.

Lemma getIsChecked_undefined (b : Chessboard) :
  getIsChecked movesFrom VUndefined (board_value b) = None
  <-> exists row, row ∈ b /\ None ∈ row.
Proof.
  unfold getIsChecked, board_value. cbn [as_array mbind option_bind].
  pose proof (scan_rows_undefined b 0 (mkScan [] ∅)) as Hscan.
  change (map (fun row => VArr (map cell_value row)) b)
    with ((fun row => VArr (cell_value <$> row)) <$> b).
  destruct (scan_rows movesFrom VUndefined 0 _ (mkScan [] ∅)) as [acc|]; simpl.
  - split; [done|]. intros (row & Hrow & Hnone). exfalso.
    assert (Hall : Forall (Forall is_Some) b) by (apply Hscan; by eexists).
    rewrite Forall_forall in Hall. apply Hall in Hrow.
    rewrite Forall_forall in Hrow. apply Hrow in Hnone. by destruct Hnone.
  - split; [|done]. intros _.
    assert (Hnot : ~ Forall (Forall is_Some) b).
    { intros Hall. apply Hscan in Hall. by destruct Hall. }
    apply not_Forall_Exists in Hnot; [|apply _].
    apply Exists_exists in Hnot as (row & Hrow & Hnot).
    apply not_Forall_Exists in Hnot; [|apply _].
    apply Exists_exists in Hnot as (cell & Hcell & Hnone).
    exists row. split; [done|]. destruct cell; [|done].
    exfalso. apply Hnone. by eexists.
Qed.

End Undefined.

End Local.

(** X18.  The requests [contact] answers by itself.  Every request type
    but [get-state] and [move] leaves the client as it is: it registers no
    handler, starts no timer and writes nothing to the socket.  An unknown
    type is answered with the error [Unknown type.]; [get-available-moves]
    with the moves of the rules for the position given; and
    [get-is-checked], on a board of pieces and a numeric camp, with the
    positions of the own royal pieces that some square not held by an own
    piece reaches. *)
Theorem contact_answers_locally W type payload messageId sendFails c :
  type <> "get-state" -> type <> "move" ->
  let called := Client.contact W type payload messageId sendFails c in
  called.2 = c
  /\ (type <> "get-info" -> type <> "get-available-moves" ->
      type <> "get-is-checked" ->
      called.1 = Client.Now (mkResponse (VStr "error") (VStr "Unknown type.")))
  /\ (type = "get-available-moves" ->
      called.1 = Client.Now (mkResponse (VStr "success")
                   (VArr (pos_value <$> getAvailableMoves W (super c) payload))))
  /\ (type = "get-is-checked" ->
      forall own b,
        camp c = VNum own -> chessboard (super c) = board_value b ->
        called.1
        = Client.Now (mkResponse (VStr "success")
            (VArr (pos_value
                   <$> checked_by (not_own own) own
                         (fun pos => getAvailableMoves W (super c) (pos_value pos))
                         b)))).
Proof.
  intros Hgs Hmv. unfold Client.contact.
  apply String.eqb_neq in Hgs. apply String.eqb_neq in Hmv. rewrite Hgs, Hmv.
  destruct (String.eqb type "get-info") eqn:H1.
  { apply String.eqb_eq in H1 as ->. by case_match. }
  destruct (String.eqb type "get-available-moves") eqn:H2.
  { apply String.eqb_eq in H2 as ->. done. }
  destruct (String.eqb type "get-is-checked") eqn:H3.
  { apply String.eqb_eq in H3 as ->.
    split; [by case_match|]. split; [done|]. split; [done|].
    intros _ own b Hcamp Hboard. unfold Client.getIsChecked_of.
    by rewrite Hcamp, Hboard, Check.getIsChecked_board. }
  apply String.eqb_neq in H2. apply String.eqb_neq in H3. done.
Qed.

Lemma contact_answers_locally_witness :
  Client.contact sample_world "resign" VUndefined "k3x" false (sample_client false)
  = (Client.Now (mkResponse (VStr "error") (VStr "Unknown type.")),
     sample_client false).
Proof.
  pose proof (contact_answers_locally sample_world "resign" VUndefined "k3x" false
                (sample_client false) ltac:(done) ltac:(done)) as (H1 & H2 & _).
  rewrite (surjective_pairing (Client.contact _ _ _ _ _ _)).
  by rewrite H1, H2.
Defined.

(** X19.  A handshake without a camp breaks the check detector.  When the
    camp of the client is undefined, as after a [connect-success] push
    whose data has no [camp] member, an empty square compares equal to the
    camp and the detector reads [isChief] of [null]: [get-is-checked]
    raises exactly on the boards that have an empty square, and the client
    is left as it is. *)
Theorem undefined_camp_breaks_check W payload messageId sendFails c b :
  camp c = VUndefined -> chessboard (super c) = board_value b ->
  (Client.contact W "get-is-checked" payload messageId sendFails c = (Client.Raised, c)
   <-> exists row, row ∈ b /\ None ∈ row).
Proof.
  intros Hcamp Hboard. unfold Client.contact, Client.getIsChecked_of.
  cbn [String.eqb Ascii.eqb Bool.eqb]. rewrite Hcamp, Hboard.
  rewrite <- (Local.getIsChecked_undefined
                (fun pos => getAvailableMoves W (super c) (pos_value pos)) b).
  destruct (getIsChecked _ VUndefined (board_value b)); split; by intros.
Qed.

Lemma undefined_camp_breaks_check_witness :
  Client.contact sample_world "get-is-checked" VUndefined "k3x" false
    (set_chessboard (board_value lone_royal_board)
       (set_camp VUndefined (sample_client true)))
  = (Client.Raised,
     set_chessboard (board_value lone_royal_board)
       (set_camp VUndefined (sample_client true))).
Proof.
  apply (undefined_camp_breaks_check sample_world VUndefined "k3x" false
           (set_chessboard (board_value lone_royal_board)
              (set_camp VUndefined (sample_client true)))
           lone_royal_board eq_refl eq_refl).
  exists [None; Some (mkChess "K" 1 true)].
  split; apply elem_of_cons; by left.
Defined.

(** X20.  The handshake deadline.  As long as no inbound message carried
    the type [connect-success], the client is not connected: the timer
    the constructor started, when it fires, closes the socket with code
    4000 and does nothing else, and a close of the session does not call
    [ws.close()]. *)
Theorem handshake_deadline_closes_socket W inherited surface local evs c :
  Client.run W evs (Client.new inherited surface local) = Some c ->
  (forall rawData, Client.Message rawData ∈ evs ->
                   ~ is_push W "connect-success" rawData) ->
  isConnectSuccess c = false
  /\ delay HandshakeTimeout = Some 10000%Z
  /\ (forall n, pending c !! n = Some HandshakeTimeout ->
        Client.step W (Client.Fire n) c
        = Some (emit (WsClose (Some 4000%Z)) (set_pending (delete n (pending c)) c)))
  /\ forall content code, WsClose code ∉ drop (length (effects c))
                                             (effects (Client.close content c)).
Proof.
  intros Hrun Hnone.
  assert (Hinv : forall evs c0 c1,
            isConnectSuccess c0 = false ->
            Client.run W evs c0 = Some c1 ->
            (forall rawData, Client.Message rawData ∈ evs ->
                             ~ is_push W "connect-success" rawData) ->
            isConnectSuccess c1 = false).
  { clear. induction evs as [|ev evs IH]; intros c0 c1 H0 Hrun Hnone;
      simpl in Hrun; [by simplify_eq|].
    destruct (Client.step W ev c0) as [c2|] eqn:Hstep; simplify_eq/=.
    apply (IH c2); [|done|].
    - destruct (Writers.step_writes W ev c0 c2 Hstep)
        as [(_ & _ & _ & _ & E & _)
           |[(rawData & parsed & type & payload & -> & Hparse & Htype
              & Hdata & Hrouted & ->)
            |(n & camp0 & mapData0 & loaded & -> & Hn & ->)]].
      + destruct (isConnectSuccess c2); [|done]. specialize (E eq_refl). congruence.
      + destruct (Writers.push_writes W type payload parsed c0)
          as (_ & _ & [[E _]| ->]).
        * destruct (isConnectSuccess (Client.push W type payload parsed c0));
            [|done]. specialize (E eq_refl). congruence.
        * exfalso. apply (Hnone rawData); [by left|].
          exists parsed. split; [done|]. unfold JS.get_opt. by rewrite Htype.
      + by destruct (Writers.negotiate_writes W camp0 mapData0 loaded
                       (set_pending (delete n (pending c0)) c0)) as (_ & _ & ->).
    - intros rawData Hin. apply Hnone. by right. }
  assert (Hc : isConnectSuccess c = false)
    by (apply (Hinv evs (Client.new inherited surface local) c); done).
  split; [exact Hc|]. split; [done|]. split.
  - intros n Hn. cbn [Client.step]. rewrite Hn. cbn [mbind option_bind Client.fire].
    Correlator.fields. by rewrite Hc.
  - intros content code. unfold Client.close. rewrite Hc.
    case_match; Correlator.fields; rewrite <- ?app_assoc, drop_app_length;
      intros Hin; repeat (apply elem_of_cons in Hin as [Hin|Hin]; [done|]);
      by apply elem_of_nil in Hin.
Qed.

Lemma handshake_deadline_closes_socket_witness :
  Client.step sample_world (Client.Fire 0)
    (Client.contact sample_world "get-state" VUndefined "k3x" false
       (sample_client false)).2
  = Some (emit (WsClose (Some 4000%Z))
            (set_pending [RequestTimeout "k3x" 0]
               (Client.contact sample_world "get-state" VUndefined "k3x" false
                  (sample_client false)).2)).
Proof.
  assert (Hrun : Client.run sample_world
                   [Client.Contact "get-state" VUndefined "k3x" false]
                   (Client.new (mkGameData VUndefined (VArr []) []) 7 false)
                 = Some (Client.contact sample_world "get-state" VUndefined "k3x"
                           false (sample_client false)).2)
    by (vm_compute; reflexivity).
  assert (Hnone : forall rawData,
            Client.Message rawData ∈ [Client.Contact "get-state" VUndefined "k3x" false] ->
            ~ is_push sample_world "connect-success" rawData)
    by (intros rawData [[=]|[]%elem_of_nil]%elem_of_cons).
  refine (proj1 (proj2 (proj2
            (handshake_deadline_closes_socket sample_world _ _ _ _ _ Hrun Hnone)))
            0 _).
  vm_compute. reflexivity.
Defined.

(** X21.  A socket error closes the session half a second later.  The
    error handler of the constructor only starts a timer of 500 ms and
    changes nothing else; when that timer fires on an open coordinator the
    client shows the error box [无法连接到服务器], after calling
    [ws.close()] if it was connected, and the whole session is torn
    down. *)
Theorem socket_error_closes_after_delay W k s c :
  Coordinator.isClosed s = false ->
  Coordinator.gameClients s !! k = Some c ->
  let waiting := schedule (DelayedClose "无法连接到服务器") c in
  let closed :=
    Client.close (VStr "无法连接到服务器")
      (set_pending (pending c) waiting) in
  delay (DelayedClose "无法连接到服务器") = Some 500%Z
  /\ Coordinator.deliver W k Client.SocketError s
     = Some (Coordinator.mkState false (<[k := waiting]> (Coordinator.gameClients s))
               (Coordinator.contactHandler s) (Coordinator.stopGame s))
  /\ effects closed
     = (effects c ++ (if isConnectSuccess c then [WsClose None] else [])
        ++ [ShowErrorBox "错误" (VStr "无法连接到服务器"); CloseCallback])%list
  /\ Coordinator.run W
       [Coordinator.Deliver k Client.SocketError;
        Coordinator.Deliver k (Client.Fire (length (pending c)))] s
     = Some (Coordinator.mkState true
               (set_windowDestroyed true <$> <[k := closed]> (Coordinator.gameClients s))
               false (S (Coordinator.stopGame s))).
Proof.
  intros Hopen Hk waiting closed.
  assert (Hlt : k < length (Coordinator.gameClients s))
    by (by eapply lookup_lt_Some).
  assert (Hfirst : Coordinator.deliver W k Client.SocketError s
                   = Some (Coordinator.mkState false
                             (<[k := waiting]> (Coordinator.gameClients s))
                             (Coordinator.contactHandler s) (Coordinator.stopGame s))).
  { unfold Coordinator.deliver. rewrite Hk. cbn [mbind option_bind Client.step].
    rewrite Owner.close_calls_none by done. by rewrite Hopen. }
  assert (Heffects : effects closed
            = (effects c ++ (if isConnectSuccess c then [WsClose None] else [])
               ++ [ShowErrorBox "错误" (VStr "无法连接到服务器"); CloseCallback])%list).
  { unfold closed, waiting, Client.close. Correlator.fields.
    change (JS.truthy (VStr "无法连接到服务器")) with true.
    destruct (isConnectSuccess c); Correlator.fields; by rewrite <- ?app_assoc. }
  split; [done|]. split; [exact Hfirst|]. split; [exact Heffects|].
  cbn [Coordinator.run Coordinator.step]. rewrite Hfirst. cbn [mbind option_bind].
  unfold Coordinator.deliver. cbn [Coordinator.gameClients].
  rewrite list_lookup_insert_eq by done. cbn [mbind option_bind Client.step].
  assert (Hn : pending waiting !! length (pending c)
               = Some (DelayedClose "无法连接到服务器")).
  { unfold waiting. Correlator.fields.
    by rewrite lookup_app_r, Nat.sub_diag by done. }
  rewrite Hn. cbn [mbind option_bind Client.fire].
  assert (Hdel : delete (length (pending c)) (pending waiting) = pending c).
  { unfold waiting. Correlator.fields.
    rewrite delete_middle. by rewrite app_nil_r. }
  rewrite Hdel. fold closed.
  assert (Hcalls : Coordinator.close_calls waiting closed = 1).
  { unfold closed. by apply Owner.close_calls_close. }
  rewrite Hcalls. cbn [Nat.iter]. unfold Coordinator.close. simpl.
  by rewrite list_insert_insert_eq.
Qed.

Lemma socket_error_closes_after_delay_witness :
  exists s',
    Coordinator.run sample_world
      [Coordinator.Deliver 0 Client.SocketError;
       Coordinator.Deliver 0 (Client.Fire 1)]
      (Coordinator.createClients (mkGameData VUndefined (VArr []) []) [7] false)
    = Some s'
    /\ Coordinator.isClosed s' = true
    /\ (effects <$> Coordinator.gameClients s')
       = [[SetTitle "USTC棋 - 联机模式";
           ShowErrorBox "错误" (VStr "无法连接到服务器"); CloseCallback]].
Proof.
  eexists. split.
  - exact (proj2 (proj2 (proj2
             (socket_error_closes_after_delay sample_world 0
                (Coordinator.createClients (mkGameData VUndefined (VArr []) []) [7] false)
                (sample_client false) eq_refl eq_refl)))).
  - split; reflexivity.
Defined.

(** X22.  The pushes that carry no session data.  A [game-start] or
    [change-turn] push that enters the [switch] is passed on to the window
    by its type alone, without its data; a push of any type the [switch]
    does not know, a type that is no string included, is only logged.
    Both leave every field of the client as it was. *)
Theorem status_pushes_are_forwarded W rawData parsed type payload c :
  JSON_parse W rawData = Some parsed ->
  Client.routed (JS.get_opt parsed "id") c = None ->
  JS.get parsed "type" = Some type ->
  JS.get parsed "data" = Some payload ->
  (type = VStr "game-start" \/ type = VStr "change-turn" ->
   Client.onMessage W rawData c = emit (WebContentsSend type []) c)
  /\ (type <> VStr "connect-success" -> type <> VStr "connect-fail" ->
      type <> VStr "game-start" -> type <> VStr "change-turn" ->
      type <> VStr "game-end" ->
      Client.onMessage W rawData c = emit (LogUnknownResponse parsed) c).
Proof.
  intros Hparse Hrouted Htype Hdata.
  rewrite (Dispatch.onMessage_push W rawData parsed _ _ c Hparse Hrouted Htype Hdata).
  unfold Client.push, Client.is_type. split.
  - by intros [-> | ->].
  - intros H1 H2 H3 H4 H5.
    assert (Hne : forall s, type <> VStr s -> JS.strict_eq type (VStr s) = false).
    { intros s Hs. destruct (JS.strict_eq type (VStr s)) eqn:E; [|done].
      by apply Dispatch.strict_eq_str in E. }
    by rewrite !Hne.
Qed.

Lemma status_pushes_are_forwarded_witness :
  Client.onMessage sample_world (envelope_text "game-start" None None)
    (sample_client true)
  = emit (WebContentsSend (VStr "game-start") []) (sample_client true).
Proof.
  exact (proj1 (status_pushes_are_forwarded sample_world
                  (envelope_text "game-start" None None)
                  (envelope_value "game-start" None None)
                  (VStr "game-start") VUndefined (sample_client true)
                  eq_refl eq_refl eq_refl eq_refl) (or_introl eq_refl)).
Defined.

(** X23.  A rejected handshake ends the session.  In a networked session,
    when the compatibility check fails on the extensions the loader
    delivered, the client, which marked itself connected when the push
    arrived, shows the mismatch dialog and, once the dialog is dismissed,
    calls [ws.close()] and closes the session without any further message;
    it never records the camp and never acknowledges the handshake. *)
Theorem rejected_handshake_closes_session
    W rawData parsed payload camp0 mapData0 required es c :
  JSON_parse W rawData = Some parsed ->
  Client.routed (JS.get_opt parsed "id") c = None ->
  JS.get parsed "type" = Some (VStr "connect-success") ->
  JS.get parsed "data" = Some payload ->
  JS.get payload "camp" = Some camp0 ->
  JS.get payload "mapData" = Some mapData0 ->
  JS.get mapData0 "extensions" = Some required ->
  Client.entries required = Some es ->
  isLocal c = false ->
  checkExtensions W (autoGetNeededExtensions W required) required = false ->
  exists c',
    Client.run W
      [Client.Message rawData; Client.Fire (length (pending c));
       Client.Fire (length (pending c))] c = Some c'
    /\ effects c'
       = (effects c
          ++ [ShowMessageBox "error" "错误" "已启用扩展与服务器不匹配"
                (Client.mismatch_detail es (autoGetNeededExtensions W required));
              WsClose None; CloseCallback])%list
    /\ camp c' = camp c /\ pending c' = pending c
    /\ isConnectSuccess c' = true.
Proof.
  intros Hparse Hrouted Htype Hdata Hcamp Hmap Hreq Hes Hlocal Hcheck.
  cbn [Client.run Client.step mbind option_bind].
  rewrite (Dispatch.onMessage_push W rawData parsed _ _ c Hparse Hrouted Htype Hdata).
  unfold Client.push. cbn [Client.is_type JS.strict_eq]. simpl bool_decide.
  cbn match. rewrite Hcamp, Hmap, Hreq. Correlator.fields.
  rewrite lookup_app_r by done. rewrite Nat.sub_diag. cbn [lookup list_lookup].
  cbn [mbind option_bind Client.fire].
  rewrite delete_middle, app_nil_r.
  unfold Client.negotiate. Correlator.fields.
  rewrite Hlocal, Hreq, Hcheck, Hes. Correlator.fields.
  rewrite lookup_app_r by done. rewrite Nat.sub_diag. cbn [lookup list_lookup].
  cbn [mbind option_bind Client.fire].
  rewrite delete_middle, app_nil_r.
  unfold Client.close. Correlator.fields. cbn [JS.truthy].
  eexists. split; [reflexivity|]. Correlator.fields.
  by rewrite <- !app_assoc.
Qed.

Lemma rejected_handshake_closes_session_witness :
  exists c',
    Client.run sample_world
      [Client.Message handshake_text; Client.Fire 1; Client.Fire 1]
      (sample_client false) = Some c'
    /\ camp c' = VNum 0
    /\ last (effects c') = Some CloseCallback.
Proof.
  destruct (rejected_handshake_closes_session sample_world handshake_text
              handshake_value (VObj [("camp", VNum 1); ("mapData", sample_map)])
              (VNum 1) sample_map (VObj [("a", VStr "1"); ("b", VStr "2")])
              [("a", VStr "1"); ("b", VStr "2")] (sample_client false)
              eq_refl eq_refl eq_refl eq_refl eq_refl eq_refl eq_refl eq_refl
              eq_refl eq_refl)
    as (c' & Hrun & Heff & Hcamp & _).
  exists c'. split; [exact Hrun|]. split; [exact Hcamp|].
  rewrite Heff. reflexivity.
Defined.

(** X24.  Pushes that miss their data.  An inbound text that parses to
    [null] is not logged as invalid: reading its [id] raises, and nothing
    changes.  A [connect-success] push whose data is [null] or missing
    marks the client connected and then raises when the data is taken
    apart: no map and no camp are recorded, nothing is sent, and the
    handshake timer, finding the client connected, no longer closes the
    socket. *)
Theorem pushes_without_data_raise W rawData parsed c :
  JSON_parse W rawData = Some parsed ->
  (parsed = VNull -> Client.onMessage W rawData c = emit Uncaught c)
  /\ (forall payload,
        Client.routed (JS.get_opt parsed "id") c = None ->
        JS.get parsed "type" = Some (VStr "connect-success") ->
        JS.get parsed "data" = Some payload ->
        payload = VNull \/ payload = VUndefined ->
        Client.onMessage W rawData c = emit Uncaught (set_isConnectSuccess true c)
        /\ Client.fire W HandshakeTimeout (Client.onMessage W rawData c)
           = Client.onMessage W rawData c).
Proof.
  intros Hparse. split.
  - intros ->. unfold Client.onMessage. by rewrite Hparse.
  - intros payload Hrouted Htype Hdata Hpayload.
    rewrite (Dispatch.onMessage_push W rawData parsed _ _ c Hparse Hrouted Htype Hdata).
    unfold Client.push. cbn [Client.is_type JS.strict_eq]. simpl bool_decide.
    cbn match. by destruct Hpayload as [-> | ->].
Qed.

Lemma pushes_without_data_raise_witness :
  Client.onMessage
    (mkWorld (fun _ => Some VNull) (fun _ => []) (fun _ _ => true) (fun _ _ => []))
    "null" (sample_client true)
  = emit Uncaught (sample_client true).
Proof.
  exact (proj1 (pushes_without_data_raise
                  (mkWorld (fun _ => Some VNull) (fun _ => []) (fun _ _ => true)
                     (fun _ _ => []))
                  "null" VNull (sample_client true) eq_refl) eq_refl).
Defined.

Module Windows.

Import Coordinator.

(** The windows are destroyed, and the handler of ['contact'] is gone,
    exactly when the coordinator is closed. *)
Lemma live_close s :
  Forall (fun c => windowDestroyed c = isClosed s) (gameClients s)
  /\ contactHandler s = negb (isClosed s) ->
  Forall (fun c => windowDestroyed c = isClosed (close s)) (gameClients (close s))
  /\ contactHandler (close s) = negb (isClosed (close s)).
Proof.
  intros [Hw Hh]. unfold close. destruct (isClosed s) eqn:Hc; simpl.
  - by rewrite Hc.
  - split; [|done]. apply Forall_fmap, Forall_forall. by intros c _.
Qed.

Lemma live_iter n s :
  Forall (fun c => windowDestroyed c = isClosed s) (gameClients s)
  /\ contactHandler s = negb (isClosed s) ->
  Forall (fun c => windowDestroyed c = isClosed (Nat.iter n close s))
    (gameClients (Nat.iter n close s))
  /\ contactHandler (Nat.iter n close s) = negb (isClosed (Nat.iter n close s)).
Proof. induction n as [|n IH]; [done|]. intros H. simpl. by apply live_close, IH. Qed.

Lemma live_insert (clients : list GameClient) k c c' (closed : bool) :
  Forall (fun c => windowDestroyed c = closed) clients ->
  clients !! k = Some c -> windowDestroyed c' = windowDestroyed c ->
  Forall (fun c => windowDestroyed c = closed) (<[k := c']> clients).
Proof.
  intros Hall Hk Hw. apply Forall_insert; [done|].
  rewrite Hw. rewrite Forall_lookup in Hall. by apply (Hall k).
Qed.

Lemma live_step W ev s s' :
  Forall (fun c => windowDestroyed c = isClosed s) (gameClients s)
  /\ contactHandler s = negb (isClosed s) ->
  step W ev s = Some s' ->
  Forall (fun c => windowDestroyed c = isClosed s') (gameClients s')
  /\ contactHandler s' = negb (isClosed s').
Proof.
  intros [Hw Hh] Hstep.
  destruct ev as [k cev|sender type payload messageId sendFails|];
    cbn [step] in Hstep.
  - unfold deliver in Hstep.
    destruct (gameClients s !! k) as [c|] eqn:Hk; simplify_eq/=.
    destruct (Client.step W cev c) as [c'|] eqn:Hc; simplify_eq/=.
    apply live_iter. simpl. split; [|done].
    eapply live_insert; [done | done |].
    by destruct (Growth.grows_step W cev c c' Hc) as (_ & _ & -> & _).
  - simplify_eq. unfold invoke.
    destruct (contactHandler s) eqn:Hhandler;
      [|simpl; split; [done | by rewrite Hhandler]].
    destruct (list_find _ _) as [[k c]|] eqn:Hfind;
      [|simpl; split; [done | by rewrite Hhandler]].
    apply list_find_Some in Hfind as (Hk & _ & _).
    pose proof (Growth.grows_step W
                  (Client.Contact type payload messageId sendFails) c _ eq_refl)
      as (_ & _ & Hwd & _).
    destruct (Client.contact W type payload messageId sendFails c) as [r c'].
    simpl in *. split; [|done]. by eapply live_insert.
  - simplify_eq. by apply live_close.
Qed.

Lemma live_run W evs :
  forall s s',
    Forall (fun c => windowDestroyed c = isClosed s) (gameClients s)
    /\ contactHandler s = negb (isClosed s) ->
    run W evs s = Some s' ->
    Forall (fun c => windowDestroyed c = isClosed s') (gameClients s')
    /\ contactHandler s' = negb (isClosed s').
Proof.
  induction evs as [|ev evs IH]; intros s s' Hs Hrun; simpl in Hrun.
  - by simplify_eq.
  - destruct (step W ev s) as [s1|] eqn:Hstep; simplify_eq/=.
    eapply IH; [|done]. by eapply live_step.
Qed.

End Windows.

(** X25.  The windows live exactly as long as the session.  In every
    state the coordinator built by [createClients] reaches, there are as
    many clients as were built, the window of every client is destroyed
    exactly when the coordinator is closed, and the handler of ['contact']
    is registered exactly when it is open: no client loses its window
    while the session runs, and none keeps it afterwards. *)
Theorem windows_live_while_open W inherited surfaces local evs s :
  Coordinator.run W evs (Coordinator.createClients inherited surfaces local) = Some s ->
  length (Coordinator.gameClients s) = length surfaces
  /\ Forall (fun c => windowDestroyed c = Coordinator.isClosed s)
       (Coordinator.gameClients s)
  /\ Coordinator.contactHandler s = negb (Coordinator.isClosed s).
Proof.
  intros Hrun. split.
  - rewrite <- (length_fmap id (Coordinator.gameClients s)).
    rewrite (Owner.ids_run W evs _ _ Hrun). simpl. by rewrite !length_fmap.
  - eapply Windows.live_run; [|exact Hrun]. simpl. split; [|done].
    apply Forall_fmap, Forall_forall. by intros c _.
Qed.

Lemma windows_live_while_open_witness :
  exists s,
    Coordinator.run sample_world
      [Coordinator.Deliver 0 (Client.Message handshake_text);
       Coordinator.Invoke 8 "get-info" VUndefined "k3x" false]
      (Coordinator.createClients (mkGameData VUndefined (VArr []) []) [7; 8] true)
    = Some s
    /\ Coordinator.isClosed s = false
    /\ Forall (fun c => windowDestroyed c = Coordinator.isClosed s)
         (Coordinator.gameClients s).
Proof.
  eexists. split; [vm_compute; reflexivity|]. split; [reflexivity|].
  refine (proj1 (proj2 (windows_live_while_open sample_world
                          (mkGameData VUndefined (VArr []) []) [7; 8] true
                          [Coordinator.Deliver 0 (Client.Message handshake_text);
                           Coordinator.Invoke 8 "get-info" VUndefined "k3x" false]
                          _ _))).
  vm_compute. reflexivity.
Defined.
